(** * Couples-Therapy: a multiplayer Memory card game

    Shallow embedding of the browser client (public/scripts.js, the UI and
    animator modules, public/scene.js, public/animations.js) and, where the
    server engine is described by the specification only, of the session
    engine (board generator, game state, turn resolver).

    Conventions.
    - JavaScript values that the client inspects for truthiness are kept in
      [JS.value]; numbers that the game uses are integers and live in [Z].
    - The document is modelled by the elements each script looks up
      ([getElementById] returns [null] for a missing element: [None] here).
    - Mutable module variables ([currentGameState], [cards], ...) become
      fields of an explicit state record that every function threads.
    - Timers created with [setTimeout] are kept in a queue of due times.
    - Where the rounding of doubles decides a result ([shadeColor], the
      split of the confetti), the doubles are the binary64 numbers of
      [PrimFloat]; library calls on strings that are not modelled
      ([parseInt]) are parameters of a section.
    - An async function is cut at its awaits: a call that waits is a
      value, and what the event loop runs is a sequence of events
      ([SceneAsync]). *)

From Stdlib Require Import ZArith Lia QArith Ascii String Floats.
From stdpp Require Import base list strings gmap sets pretty sorting.

Local Open Scope string_scope.
Local Open Scope Z_scope.

(* ================================================================== *)
(** ** JavaScript values, numbers and strings                          *)
(* ================================================================== *)

Module JS.

(** The values a card's [value] field takes on the wire. *)
Inductive value :=
| Null
| Undefined
| Str (s : string)
| Num (n : Z).

#[global] Instance value_eq_dec : EqDecision value.
Proof. solve_decision. Defined.

(** [ToBoolean]: [null], [undefined], the empty string and [0] are falsy. *)
Definition truthy (v : value) : bool :=
  match v with
  | Null | Undefined => false
  | Str s => negb (bool_decide (s = EmptyString))
  | Num n => negb (n =? 0)
  end.

(** [String(v)], as used by template literals and [textContent]. *)
Definition toString (v : value) : string :=
  match v with
  | Null => "null"
  | Undefined => "undefined"
  | Str s => s
  | Num n => pretty n
  end.

(** The results of [Math.max]: an integer or [-Infinity]. *)
Inductive number :=
| NegInfinity
| Fin (z : Z).

#[global] Instance number_eq_dec : EqDecision number.
Proof. solve_decision. Defined.

Definition max2 (a b : number) : number :=
  match a, b with
  | NegInfinity, _ => b
  | _, NegInfinity => a
  | Fin x, Fin y => Fin (Z.max x y)
  end.

(** [Math.max(...xs)]: [-Infinity] for no argument. *)
Definition Math_max (xs : list Z) : number :=
  foldr (fun x acc => max2 (Fin x) acc) NegInfinity xs.

(** [Array.prototype.join]. *)
Definition join (sep : string) (parts : list string) : string :=
  String.concat sep parts.

(** The double quote character, and a string made of it. *)
Definition dquote : ascii := "034"%char.
Definition dq : string := String dquote EmptyString.

(** [s.replace(/[...]/g, f)] for a character class: every character of
    the class is replaced by [f c], every other one is copied. *)
Fixpoint replaceClass (cls : list ascii) (f : ascii -> string) (s : string)
  : string :=
  match s with
  | EmptyString => EmptyString
  | String c rest =>
      if bool_decide (c ∈ cls)
      then f c +:+ replaceClass cls f rest
      else String c (replaceClass cls f rest)
  end.

(** [String(n)] for a result of [Math.max]. *)
Definition numberToString (n : number) : string :=
  match n with
  | NegInfinity => "-Infinity"
  | Fin z => pretty z
  end.

(** [toLowerCase], on the ASCII letters. *)
Definition lowerChar (c : ascii) : ascii :=
  let n := nat_of_ascii c in
  if (65 <=? n)%nat && (n <=? 90)%nat then ascii_of_nat (n + 32) else c.

Fixpoint toLowerCase (s : string) : string :=
  match s with
  | EmptyString => EmptyString
  | String c rest => String (lowerChar c) (toLowerCase rest)
  end.

(** The line feed, as a string. *)
Definition nl : string := String "010"%char EmptyString.

(** *** [String.prototype.replace] for the pattern of a placeholder *)

(** The white space of [\s], in UTF-8: the ASCII controls 9 to 13 and
    the space; U+00A0; U+1680, U+2000 to U+200A, U+2028, U+2029, U+202F,
    U+205F, U+3000 and U+FEFF. *)
Definition isSpace1 (a : ascii) : bool :=
  let x := nat_of_ascii a in
  ((9 <=? x)%nat && (x <=? 13)%nat) || (x =? 32)%nat.

Definition isSpace2 (a b : ascii) : bool :=
  (nat_of_ascii a =? 194)%nat && (nat_of_ascii b =? 160)%nat.

Definition isSpace3 (a b c : ascii) : bool :=
  let x := nat_of_ascii a in
  let y := nat_of_ascii b in
  let z := nat_of_ascii c in
  ((x =? 225) && (y =? 154) && (z =? 128))%nat
  || ((x =? 226) && (y =? 128)
      && (((128 <=? z) && (z <=? 138)) || (z =? 168) || (z =? 169) || (z =? 175)))%nat
  || ((x =? 226) && (y =? 129) && (z =? 159))%nat
  || ((x =? 227) && (y =? 128) && (z =? 128))%nat
  || ((x =? 239) && (y =? 187) && (z =? 191))%nat.

(** [\s*] at the start of [s]: the white space read and what follows. *)
Fixpoint spaces (s : string) : string * string :=
  match s with
  | EmptyString => (EmptyString, s)
  | String a r1 =>
      if isSpace1 a then
        let '(w, rest) := spaces r1 in (String a w, rest)
      else
        match r1 with
        | EmptyString => (EmptyString, s)
        | String b r2 =>
            if isSpace2 a b then
              let '(w, rest) := spaces r2 in (String a (String b w), rest)
            else
              match r2 with
              | EmptyString => (EmptyString, s)
              | String c r3 =>
                  if isSpace3 a b c then
                    let '(w, rest) := spaces r3 in
                    (String a (String b (String c w)), rest)
                  else (EmptyString, s)
              end
        end
  end.

(** What follows the prefix [p] of [s], if [s] starts with [p]. *)
Fixpoint stripPrefix (p s : string) : option string :=
  match p, s with
  | EmptyString, _ => Some s
  | String a p', String b s' =>
      if bool_decide (a = b) then stripPrefix p' s' else None
  | String _ _, EmptyString => None
  end.

(** A match of [/{{\s*name\s*}}/] at the start of [s]: the text matched
    and what follows it. *)
Definition matchPlaceholder (name s : string) : option (string * string) :=
  match stripPrefix "{{" s with
  | None => None
  | Some r1 =>
      let '(w1, r2) := spaces r1 in
      match stripPrefix name r2 with
      | None => None
      | Some r3 =>
          let '(w2, r4) := spaces r3 in
          match stripPrefix "}}" r4 with
          | None => None
          | Some r5 => Some ("{{" +:+ w1 +:+ name +:+ w2 +:+ "}}", r5)
          end
      end
  end.

(** [GetSubstitution] for a pattern without groups: in the replacement
    text a dollar sign followed by a dollar sign, an ampersand, a
    backtick or an apostrophe stands for a dollar sign, the text
    matched, the text before the match and the text after it; any other
    dollar sign stands for itself. *)
Fixpoint getSubstitution (matched before after replacement : string)
  : string :=
  match replacement with
  | EmptyString => EmptyString
  | String a tail =>
      if bool_decide (a = "$"%char) then
        match tail with
        | EmptyString => String a EmptyString
        | String b rest =>
            if bool_decide (b = "$"%char)
            then String "$" (getSubstitution matched before after rest)
            else if bool_decide (b = "&"%char)
            then matched +:+ getSubstitution matched before after rest
            else if bool_decide (b = "`"%char)
            then before +:+ getSubstitution matched before after rest
            else if bool_decide (b = "'"%char)
            then after +:+ getSubstitution matched before after rest
            else String a (getSubstitution matched before after tail)
        end
      else String a (getSubstitution matched before after tail)
  end.

(** The scan of a global replace: [before] is the text already passed.
    Every step passes at least one character, so [fuel] above the
    length of [s] is never used up. *)
Fixpoint replaceGo (fuel : nat) (name replacement before s : string)
  : string :=
  match fuel with
  | O => s
  | S fuel' =>
      match matchPlaceholder name s with
      | Some (matched, rest) =>
          getSubstitution matched before rest replacement
            +:+ replaceGo fuel' name replacement (before +:+ matched) rest
      | None =>
          match s with
          | EmptyString => EmptyString
          | String a r =>
              String a (replaceGo fuel' name replacement
                          (before +:+ String a EmptyString) r)
          end
      end
  end.

(** [s.replace(/{{\s*name\s*}}/g, replacement)] *)
Definition replacePlaceholder (name replacement s : string) : string :=
  replaceGo (S (String.length s)) name replacement EmptyString s.

(** How a call ended: normally, or with a thrown [TypeError]. *)
Inductive completion :=
| Returned
| Threw (what : string).

End JS.

(* ================================================================== *)
(** ** The GAME_STATE payload as the client reads it                   *)
(* ================================================================== *)

Module Wire.

(** Card ids are only compared with [===] and used as [Set] keys. *)
Abbreviation CardId := nat.

Record Player := mkPlayer {
  slotIndex : nat;
  color : string;
  score : Z
}.

Record Card := mkCard {
  id : CardId;
  value : JS.value;
  isFaceUp : bool;
  isMatched : bool
}.

Record GameState := mkGameState {
  gameId : option string;   (* [None] is [null] *)
  players : list Player;
  activePlayerIndex : nat;
  cards : list Card;
  status : string
}.

#[global] Instance Player_eq_dec : EqDecision Player.
Proof. solve_decision. Defined.
#[global] Instance Card_eq_dec : EqDecision Card.
Proof. solve_decision. Defined.

End Wire.

(* ================================================================== *)
(** ** The page: the document and the module variables of the client   *)
(* ================================================================== *)

Module Page.
Import Wire.

(** Calls that leave the script: on the imported [gameClient], or on a
    callback handed in by the caller. *)
Inductive Effect :=
| Connect
| FlipCardCall (cardId : CardId)
| StartNewGame (playerCount : Z)
| ConfettiStart
| ConfettiStop.

(** An element created by [renderCards]: its class list, its text and
    the card object captured by its click listener. *)
Record CardEl := mkCardEl {
  classList : list string;
  textContent : string;
  listenerCard : Card
}.

(** What is visible of a card element. *)
Definition shown (el : CardEl) : list string * string :=
  (classList el, textContent el).

Inductive GridContent :=
| GridCards (els : list CardEl)
| GridMarkup (html : string).

Inductive TimerAction :=
| ClearErrorBox.

(** The win overlay appended to the body. *)
Record Overlay := mkOverlay {
  overlayClass : string;
  innerHTML : string
}.

Record Client := mkClient {
  currentGameState : option GameState;
  hasShownWinPopupForGameId : option string;
  errorBox : option string;          (* innerHTML of #errorBox *)
  cardGrid : option GridContent;     (* children of #cardGrid *)
  body : list Overlay;               (* overlays appended to body *)
  winTemplate : option string;       (* outcome of fetching /win-modal.html *)
  clock : Z;                         (* milliseconds *)
  timers : list (Z * TimerAction);   (* due time, callback *)
  calls : list Effect
}.

Definition set_currentGameState g (s : Client) : Client :=
  mkClient g (hasShownWinPopupForGameId s) (errorBox s) (cardGrid s)
           (body s) (winTemplate s) (clock s) (timers s) (calls s).
Definition set_hasShown h (s : Client) : Client :=
  mkClient (currentGameState s) h (errorBox s) (cardGrid s)
           (body s) (winTemplate s) (clock s) (timers s) (calls s).
Definition set_errorBox e (s : Client) : Client :=
  mkClient (currentGameState s) (hasShownWinPopupForGameId s) e (cardGrid s)
           (body s) (winTemplate s) (clock s) (timers s) (calls s).
Definition set_cardGrid g (s : Client) : Client :=
  mkClient (currentGameState s) (hasShownWinPopupForGameId s) (errorBox s) g
           (body s) (winTemplate s) (clock s) (timers s) (calls s).
Definition set_body b (s : Client) : Client :=
  mkClient (currentGameState s) (hasShownWinPopupForGameId s) (errorBox s)
           (cardGrid s) b (winTemplate s) (clock s) (timers s) (calls s).
Definition set_clock c (s : Client) : Client :=
  mkClient (currentGameState s) (hasShownWinPopupForGameId s) (errorBox s)
           (cardGrid s) (body s) (winTemplate s) c (timers s) (calls s).
Definition set_timers t (s : Client) : Client :=
  mkClient (currentGameState s) (hasShownWinPopupForGameId s) (errorBox s)
           (cardGrid s) (body s) (winTemplate s) (clock s) t (calls s).
Definition set_calls c (s : Client) : Client :=
  mkClient (currentGameState s) (hasShownWinPopupForGameId s) (errorBox s)
           (cardGrid s) (body s) (winTemplate s) (clock s) (timers s) c.

Definition call (e : Effect) (s : Client) : Client :=
  set_calls (calls s ++ [e])%list s.

(** [setTimeout(cb, delay)]. *)
Definition setTimeout (cb : TimerAction) (delay : Z) (s : Client) : Client :=
  set_timers (timers s ++ [(clock s + delay, cb)])%list s.

(** Running a timer callback.  The callback of the error handler holds
    the element it found, so it only exists when the element does. *)
Definition fire (cb : TimerAction) (s : Client) : Client :=
  match cb with
  | ClearErrorBox =>
      match errorBox s with
      | Some _ => set_errorBox (Some EmptyString) s
      | None => s
      end
  end.

Definition dueBefore (a b : Z * TimerAction) : Prop := a.1 <= b.1.
#[global] Instance dueBefore_dec a b : Decision (dueBefore a b).
Proof. unfold dueBefore. apply _. Defined.

(** Let [ms] milliseconds pass: the callbacks that are due run in the
    order of their due times (ties in the order they were set). *)
Definition elapse (ms : Z) (s : Client) : Client :=
  let t := clock s + ms in
  let due := filter (fun x => x.1 <= t) (timers s) in
  let rest := filter (fun x => ~ x.1 <= t) (timers s) in
  foldl (fun st x => fire x.2 st)
        (set_clock t (set_timers rest s))
        (merge_sort dueBefore due).

(** A page before any script has run, with all its elements present. *)
Definition fresh : Client :=
  mkClient None None (Some EmptyString) (Some (GridCards [])) [] None 0 [] [].

End Page.

(* ================================================================== *)
(** ** public/scripts.js (the 2D client)                               *)
(* ================================================================== *)

Module Scripts.
Import Wire Page.

(** *** gameClient.onError *)

Definition errorMarkup (errorMessage : string) : string :=
  "<div class=" +:+ JS.dq +:+ "error" +:+ JS.dq +:+ ">❌ "
    +:+ errorMessage +:+ "</div>".

Definition onError (errorMessage : string) (s : Client) : Client :=
  match errorBox s with
  | Some _ =>
      setTimeout ClearErrorBox 3000
        (set_errorBox (Some (errorMarkup errorMessage)) s)
  | None => s
  end.

(** *** renderCards *)

Definition renderCard (card : Card) : CardEl :=
  let base := ["card"] in
  let '(classes, text) :=
    if isFaceUp card && JS.truthy (value card)
    then ((base ++ ["faceup"])%list, JS.toString (value card))
    else (base, "?") in
  let classes :=
    if isMatched card then (classes ++ ["matched"])%list else classes in
  mkCardEl classes text card.

Definition renderCards (gameState : GameState) (s : Client) : Client :=
  match cardGrid s with
  | None => s
  | Some _ => set_cardGrid (Some (GridCards (renderCard <$> cards gameState))) s
  end.

(** The click listener installed on a card element. *)
Definition cardClick (card : Card) (s : Client) : Client :=
  match currentGameState s with
  | Some cur =>
      if negb (isMatched card) && bool_decide (status cur = "playing")
      then call (FlipCardCall (id card)) s
      else s
  | None => s
  end.

Definition click (el : CardEl) (s : Client) : Client :=
  cardClick (listenerCard el) s.

(** *** getWinners *)

Definition getWinners (gameState : GameState) : list Player * JS.number :=
  let maxScore := JS.Math_max (score <$> players gameState) in
  let winners :=
    filter (fun p => JS.Fin (score p) = maxScore) (players gameState) in
  (winners, maxScore).

(** *** escapeHTML *)

Definition entities : list (ascii * string) :=
  [("&"%char, "&amp;"); ("<"%char, "&lt;"); (">"%char, "&gt;");
   (JS.dquote, "&quot;"); ("'"%char, "&#39;")].

(** [obj[c]] for an object literal (its own properties). *)
Fixpoint property (c : ascii) (obj : list (ascii * string)) : option string :=
  match obj with
  | [] => None
  | (k, v) :: rest => if bool_decide (k = c) then Some v else property c rest
  end.

Definition replacer (c : ascii) : string :=
  match property c entities with
  | Some e => e
  | None => "undefined"
  end.

Definition escapeHTML (str : string) : string :=
  JS.replaceClass ["&"; "<"; ">"; JS.dquote; "'"]%char replacer str.

(** *** showWinPopup *)

Definition scoreLine (p : Player) : string :=
  color p +:+ ": " +:+ pretty (score p).

(** The texts of the popup; reading [winners[0].color] throws when there
    is no winner. *)
Definition winTexts (gameState : GameState)
  : option (string * string * string) :=
  let '(winners, maxScore) := getWinners gameState in
  let isDraw := bool_decide (1 < length winners)%nat in
  let title := if isDraw then "🤝 It's a draw!" else "🏆 We have a winner!" in
  let scoreText := JS.join " • " (scoreLine <$> players gameState) in
  if isDraw
  then Some (title,
             "Winners: " +:+ JS.join ", " (color <$> winners)
               +:+ " (all with " +:+ JS.numberToString maxScore +:+ " points)",
             scoreText)
  else match winners with
       | w :: _ =>
           Some (title,
                 "Winner: " +:+ color w +:+ " with "
                   +:+ JS.numberToString maxScore +:+ " points!",
                 scoreText)
       | [] => None
       end.

(** The markup of the [try] block: the three replacements on the
    fetched template, one after the other. *)
Definition fillTemplate (template title winnerText scoreText : string)
  : string :=
  JS.replacePlaceholder "scoreText" (escapeHTML scoreText)
    (JS.replacePlaceholder "winnerText" (escapeHTML winnerText)
       (JS.replacePlaceholder "title" (escapeHTML title) template)).

(** The markup of the [catch] block. *)
Definition inlineMarkup (title winnerText scoreText : string) : string :=
  "<div class=" +:+ JS.dq +:+ "win-modal" +:+ JS.dq
    +:+ "><div class=" +:+ JS.dq +:+ "win-title" +:+ JS.dq +:+ ">"
    +:+ escapeHTML title
    +:+ "</div><div class=" +:+ JS.dq +:+ "win-text" +:+ JS.dq +:+ ">"
    +:+ escapeHTML winnerText
    +:+ "</div><div class=" +:+ JS.dq +:+ "win-scores" +:+ JS.dq +:+ ">"
    +:+ escapeHTML scoreText +:+ "</div></div>".

(** [showWinPopup], once the template is there or its fetch has failed. *)
Definition showWinPopup (gameState : GameState) (s : Client)
  : JS.completion * Client :=
  if bool_decide (hasShownWinPopupForGameId s = gameId gameState)
  then (JS.Returned, s)
  else
    let s := set_hasShown (gameId gameState) s in
    match winTexts gameState with
    | None => (JS.Threw "TypeError", s)
    | Some (title, winnerText, scoreText) =>
        let html :=
          match winTemplate s with
          | Some template => fillTemplate template title winnerText scoreText
          | None => inlineMarkup title winnerText scoreText
          end in
        let overlay := mkOverlay "win-overlay" html in
        (JS.Returned, set_body (body s ++ [overlay])%list s)
    end.

End Scripts.

(* ================================================================== *)
(** ** The UI module of the 3D client                                  *)
(* ================================================================== *)

Module UI.
Import Wire Page.

Definition COLOR_LABEL : list (string * string) :=
  [("#ff6b81", "red"); ("#ffd54a", "yellow"); ("#7fb3ff", "blue");
   ("#8bd48b", "green"); ("red", "red"); ("yellow", "yellow");
   ("blue", "blue"); ("green", "green")].

Fixpoint property (k : string) (obj : list (string * string)) : option string :=
  match obj with
  | [] => None
  | (k', v) :: rest => if bool_decide (k' = k) then Some v else property k rest
  end.

Section WithEngine.

(** The text of [String(Object)], which the engine chooses within the
    form of a native function. *)
Variable nativeObject : string.

(** [COLOR_LABEL] is an object literal: a key it does not hold is looked
    up in [Object.prototype].  Of the names found there only
    [constructor] and [__proto__] are in lower case, as the key is; both
    values are truthy, and every caller turns the label into text (a
    template literal, [join]), which for these two values is the text
    below. *)
Definition Object_prototype : list (string * string) :=
  [("constructor", nativeObject); ("__proto__", "[object Object]")].

Definition normalizeLabel (col : string) : string :=
  if bool_decide (col = EmptyString) then col
  else match property (JS.toLowerCase col) (COLOR_LABEL ++ Object_prototype) with
       | Some label => label
       | None => col
       end.

(** *** showError *)

Definition showError (errorMessage : string) (s : Client) : Client :=
  match errorBox s with
  | None => s
  | Some _ =>
      setTimeout ClearErrorBox 3000
        (set_errorBox (Some (Scripts.errorMarkup errorMessage)) s)
  end.

(** *** escapeHTML and getWinners (the same text as in scripts.js) *)

Definition entities : list (ascii * string) :=
  [("&"%char, "&amp;"); ("<"%char, "&lt;"); (">"%char, "&gt;");
   (JS.dquote, "&quot;"); ("'"%char, "&#39;")].

Definition replacer (c : ascii) : string :=
  match Scripts.property c entities with
  | Some e => e
  | None => "undefined"
  end.

Definition escapeHTML (str : string) : string :=
  JS.replaceClass ["&"; "<"; ">"; JS.dquote; "'"]%char replacer str.

Definition getWinners (gameState : GameState) : list Player * JS.number :=
  let maxScore := JS.Math_max (score <$> players gameState) in
  let winners :=
    filter (fun p => JS.Fin (score p) = maxScore) (players gameState) in
  (winners, maxScore).

(** *** showWinPopup *)

Definition scoreLine (p : Player) : string :=
  normalizeLabel (color p) +:+ ": " +:+ pretty (score p).

(** The markup of the overlay. *)
Definition winMarkup (title scoreText : string) : string :=
  JS.nl +:+ "    <div class=" +:+ JS.dq +:+ "win-modal" +:+ JS.dq +:+ ">"
    +:+ JS.nl +:+ "      <div class=" +:+ JS.dq +:+ "win-title" +:+ JS.dq +:+ ">"
    +:+ escapeHTML title +:+ "</div>"
    +:+ JS.nl +:+ "      <div class=" +:+ JS.dq +:+ "win-scores" +:+ JS.dq +:+ ">"
    +:+ escapeHTML scoreText +:+ "</div>"
    +:+ JS.nl
    +:+ JS.nl +:+ "      <div class=" +:+ JS.dq +:+ "win-buttons" +:+ JS.dq +:+ ">"
    +:+ JS.nl +:+ "        <button class=" +:+ JS.dq +:+ "win-btn secondary"
    +:+ JS.dq +:+ " id=" +:+ JS.dq +:+ "closeWinModal" +:+ JS.dq
    +:+ ">Close</button>"
    +:+ JS.nl +:+ "        <button class=" +:+ JS.dq +:+ "win-btn primary"
    +:+ JS.dq +:+ " id=" +:+ JS.dq +:+ "playAgainBtn" +:+ JS.dq
    +:+ ">Play again</button>"
    +:+ JS.nl +:+ "      </div>"
    +:+ JS.nl +:+ "    </div>"
    +:+ JS.nl +:+ "  ".

(** [onConfettiStart] is an optional callback: [true] when one is given. *)
Definition showWinPopup (gameState : GameState) (onConfettiStart : bool)
    (s : Client) : Client :=
  if bool_decide (hasShownWinPopupForGameId s = gameId gameState) then s
  else
    let s := set_hasShown (gameId gameState) s in
    let s := if onConfettiStart then call ConfettiStart s else s in
    let winners := (getWinners gameState).1 in
    let isDraw := bool_decide (1 < length winners)%nat in
    let title :=
      if isDraw then "It's a draw, you need more therapy!"
      else " Congratulation "
             +:+ JS.join " & " ((fun w => normalizeLabel (color w)) <$> winners)
             +:+ "! You are the winner of Couples Therapy!" in
    let scoreText := JS.join " • " (scoreLine <$> players gameState) in
    let overlay := mkOverlay "win-overlay" (winMarkup title scoreText) in
    set_body (body s ++ [overlay])%list s.

End WithEngine.

Definition resetWinPopupTracking (s : Client) : Client :=
  set_hasShown None s.

End UI.

(* ================================================================== *)
(** ** The UI module: the colours of the board gradient                *)
(* ================================================================== *)

Module Board.

(** The numbers of [shadeColor].  A number that is an integer is held as
    a [Z]: doubles are exact on the integers that occur for a percentage
    between -100 and 100.  [p] and the products with [p] are doubles. *)
Inductive number :=
| Int (z : Z)
| NaN
| Infinity (negative : bool).

Definition ofZ (z : Z) : float :=
  match z with
  | Z0 => PrimFloat.zero
  | Zpos _ => PrimFloat.of_uint63 (Uint63.of_Z z)
  | Zneg q => PrimFloat.opp (PrimFloat.of_uint63 (Uint63.of_Z (Zpos q)))
  end.

(** [Math.round(x)]: the integer closest to [x], the greater one of two
    that are equally close. *)
Definition Math_round (x : float) : number :=
  match Prim2SF x with
  | S754_zero _ => Int 0
  | S754_infinity s => Infinity s
  | S754_nan => NaN
  | S754_finite s m e =>
      let num := if s then Zneg m else Zpos m in
      Int (if 0 <=? e then num * 2 ^ e
           else (2 * num + 2 ^ (- e)) / 2 ^ (- e + 1))
  end.

Definition add (a b : number) : number :=
  match a, b with
  | NaN, _ | _, NaN => NaN
  | Int x, Int y => Int (x + y)
  | Infinity s, Int _ | Int _, Infinity s => Infinity s
  | Infinity s, Infinity s' => if Bool.eqb s s' then Infinity s else NaN
  end.

(** [a * k] for a constant [k] above 0. *)
Definition scale (a : number) (k : Z) : number :=
  match a with
  | Int x => Int (x * k)
  | _ => a
  end.

(** [ToInt32], applied by the operators [>>] and [&]; NaN and the
    infinities give 0. *)
Definition toInt32 (f : option Z) : Z :=
  match f with
  | Some z => (z + 2 ^ 31) mod 2 ^ 32 - 2 ^ 31
  | None => 0
  end.

Definition hexDigit (d : Z) : ascii :=
  if d <? 10 then ascii_of_nat (48 + Z.to_nat d)
  else ascii_of_nat (87 + Z.to_nat d).

Fixpoint hexGo (fuel : nat) (n : Z) (acc : string) : string :=
  match fuel with
  | O => acc
  | S k =>
      let acc := String (hexDigit (n mod 16)) acc in
      if n / 16 =? 0 then acc else hexGo k (n / 16) acc
  end.

(** [n.toString(16)] *)
Definition toString16 (n : number) : string :=
  match n with
  | NaN => "NaN"
  | Infinity false => "Infinity"
  | Infinity true => "-Infinity"
  | Int z =>
      let digits := hexGo (S (Z.to_nat (Z.log2 (Z.abs z)))) (Z.abs z) EmptyString in
      if z <? 0 then "-" +:+ digits else digits
  end.

(** [s.slice(1)] of a string of ASCII characters. *)
Definition slice1 (s : string) : string :=
  match s with
  | EmptyString => EmptyString
  | String _ rest => rest
  end.

(** [Math.round((t - c) * p) + c] *)
Definition shade (t : Z) (p : float) (c : Z) : number :=
  add (Math_round (PrimFloat.mul (ofZ (t - c)) p)) (Int c).

Section WithParseInt.

(** [parseInt(color.slice(1), 16)]: an integer, or [None] when it is NaN
    (no hex digit to read) or infinite. *)
Variable parseHex : string -> option Z.

(** "darken/lighten hex color" *)
Definition shadeColor (color : string) (percent : Z) : string :=
  let f := parseHex color in
  let t := if percent <? 0 then 0 else 255 in
  let p := PrimFloat.div (ofZ (Z.abs percent)) (ofZ 100) in
  let R := Z.shiftr (toInt32 f) 16 in
  let G := Z.land (Z.shiftr (toInt32 f) 8) 255 in
  let B := Z.land (toInt32 f) 255 in
  "#" +:+
  slice1 (toString16
            (add (add (add (Int 16777216) (scale (shade t p R) 65536))
                      (scale (shade t p G) 256))
                 (shade t p B))).

(** "Generate radial gradient CSS string for a given base color" *)
Definition createRadialGradient (color : string) : string :=
  let inner := color in
  let outer := shadeColor color (-55) in
  "radial-gradient(circle at center, " +:+ inner +:+ " 0%, " +:+ outer +:+ " 90%)".

End WithParseInt.

End Board.

(* ================================================================== *)
(** ** The animator module: the split of the confetti in doubles       *)
(* ================================================================== *)

Module ConfettiSplit.

(** [Math.floor(x)] *)
Definition Math_floor (x : float) : Board.number :=
  match Prim2SF x with
  | S754_zero _ => Board.Int 0
  | S754_infinity s => Board.Infinity s
  | S754_nan => Board.NaN
  | S754_finite s m e =>
      let num := if s then Zneg m else Zpos m in
      Board.Int (if 0 <=? e then num * 2 ^ e else num / 2 ^ (- e))
  end.

(** The double nearest to 0.4. *)
Definition zeroPointFour : float := 0x1.999999999999ap-2%float.

(** [Math.floor(pieces * 0.4)], for an integer [pieces] a double holds
    exactly. *)
Definition burstPieces (pieces : Z) : Board.number :=
  Math_floor (PrimFloat.mul (Board.ofZ pieces) zeroPointFour).

(** [a - b] for an integer [a]. *)
Definition minus (a : Z) (b : Board.number) : Board.number :=
  match b with
  | Board.Int k => Board.Int (a - k)
  | Board.NaN => Board.NaN
  | Board.Infinity s => Board.Infinity (negb s)
  end.

(** The passes of [for (let i = 0; i < n; i++)], or [None] when the loop
    never ends: from 2^53 on, [i++] leaves [i] as it is. *)
Definition passes (n : Board.number) : option nat :=
  match n with
  | Board.Int k => if k <=? 2 ^ 53 then Some (Z.to_nat k) else None
  | Board.NaN => Some 0%nat
  | Board.Infinity true => Some 0%nat
  | Board.Infinity false => None
  end.

End ConfettiSplit.

(* ================================================================== *)
(** ** public/animations.js and the animator module: confetti          *)
(* ================================================================== *)

Module Dom.

(** Inline style of a confetti piece: [left] in percent, the animation
    delay and duration in seconds.  [Math.random] returns a double; the
    arithmetic on it is idealised to rationals. *)
Record PieceStyle := mkStyle {
  left : Q;
  animationDelay : Q;
  animationDuration : Q
}.

#[warnings="-register-all"]
Inductive Elem :=
| El (tag : string) (className : list string) (style : option PieceStyle)
     (children : list Elem).

Definition children_of (e : Elem) : list Elem :=
  match e with El _ _ _ kids => kids end.

Definition appendChild (child parent : Elem) : Elem :=
  match parent with
  | El t c s kids => El t c s (kids ++ [child])
  end.

(** [querySelector("." + cls)]: the first element in document order
    that carries the class. *)
Fixpoint querySelector (cls : string) (e : Elem) : option Elem :=
  match e with
  | El _ classes _ kids =>
      if bool_decide (cls ∈ classes) then Some e
      else (fix first (l : list Elem) : option Elem :=
              match l with
              | [] => None
              | k :: rest =>
                  match querySelector cls k with
                  | Some found => Some found
                  | None => first rest
                  end
              end) kids
  end.

(** The document ([body]) together with the number of draws made from
    the random source so far. *)
Record World := mkWorld {
  body : Elem;
  draws : nat
}.

(** [for (let i = 0; i < n; i++) { screen.appendChild(make()) }] *)
Fixpoint appendPieces (n : nat) (make : nat -> Elem * nat)
    (screen : Elem) (k : nat) : Elem * nat :=
  match n with
  | O => (screen, k)
  | S n' =>
      let '(el, k') := make k in
      appendPieces n' make (appendChild el screen) k'
  end.

End Dom.

Module Animations.
Import Dom.

Section Confetti.
(** [random k] is the result of the [k]-th call of [Math.random]. *)
Variable random : nat -> Q.

Definition piece (k : nat) : Elem * nat :=
  let left := (random k * 100)%Q in
  let delay := (random (k + 1)%nat * (8 # 10))%Q in
  let duration := (8 + random (k + 2)%nat * 2)%Q in
  (El "i" [] (Some (mkStyle left delay duration)) [], (k + 3)%nat).

(** [pieces] is an integer a double holds exactly; [None]: the call
    does not return. *)
Definition launchFullscreenConfetti (pieces : option Z) (w : World)
  : option World :=
  let pieces := default 160 pieces in
  match querySelector "confetti-screen" (body w) with
  | Some _ => Some w
  | None =>
      let screen := El "div" ["confetti-screen"] None [] in
      match ConfettiSplit.passes (Board.Int pieces) with
      | Some n =>
          let '(screen, k) := appendPieces n piece screen (draws w) in
          Some (mkWorld (appendChild screen (body w)) k)
      | None => None
      end
  end.
End Confetti.

End Animations.

Module Animator.
Import Dom.

Section Confetti.
Variable random : nat -> Q.

Definition avgDuration : Q := 4.

Definition burstPiece (k : nat) : Elem * nat :=
  let left := (random k * 100)%Q in
  let duration := (2 + random (k + 1)%nat * 2)%Q in
  (El "i" [] (Some (mkStyle left (5 # 10) duration)) [], (k + 2)%nat).

Definition loopPiece (k : nat) : Elem * nat :=
  let left := (random k * 50)%Q in
  let duration := (3 + random (k + 1)%nat * 2)%Q in
  let delay := (avgDuration + random (k + 2)%nat * duration)%Q in
  (El "i" [] (Some (mkStyle left delay duration)) [], (k + 3)%nat).

(** [pieces] is an integer a double holds exactly; the split is
    computed in doubles.  [None]: the call does not return. *)
Definition launchFullscreenConfetti (pieces : option Z) (w : World)
  : option World :=
  let pieces := default 320 pieces in
  match querySelector "confetti-screen" (body w) with
  | Some _ => Some w
  | None =>
      let screen := El "div" ["confetti-screen"] None [] in
      let burstPieces := ConfettiSplit.burstPieces pieces in
      let loopPieces := ConfettiSplit.minus pieces burstPieces in
      match ConfettiSplit.passes burstPieces with
      | Some n =>
          let '(screen, k) := appendPieces n burstPiece screen (draws w) in
          match ConfettiSplit.passes loopPieces with
          | Some m =>
              let '(screen, k) := appendPieces m loopPiece screen k in
              Some (mkWorld (appendChild screen (body w)) k)
          | None => None
          end
      | None => None
      end
  end.
End Confetti.

End Animator.

(* ================================================================== *)
(** ** public/scene.js: the cards of the 3D scene                      *)
(* ================================================================== *)

Module Scene.

(** A cloned card model in the three.js scene graph.  Objects are
    compared by identity: [handle] names the object. *)
Record Mesh := mkMesh {
  handle : nat;
  userData_cardId : Wire.CardId
}.

Record CardObj := mkCardObj {
  id : Wire.CardId;
  value : JS.value;
  mesh : Mesh;
  isFaceUp : bool;
  isMatched : bool;
  hasFlipAction : bool    (* [mixer] and [flipAction] are set *)
}.

(** The loaded FBX model: the number of animation clips it carries. *)
Record Template := mkTemplate {
  animations : nat
}.

Record State := mkState {
  cards : list CardObj;
  scene : list Mesh;                 (* card models among scene.children *)
  fbxTemplate : option Template;     (* [None]: loading card.fbx failed *)
  nextHandle : nat;                  (* objects created so far *)
  inputLocked : bool;
  inputLockTimer : option nat;
  activeTimers : list nat;
  startingPlaceholder : bool         (* #startingPlaceholder is in the page *)
}.

Definition set_cards c (s : State) : State :=
  mkState c (scene s) (fbxTemplate s) (nextHandle s) (inputLocked s)
          (inputLockTimer s) (activeTimers s) (startingPlaceholder s).
Definition set_scene sc (s : State) : State :=
  mkState (cards s) sc (fbxTemplate s) (nextHandle s) (inputLocked s)
          (inputLockTimer s) (activeTimers s) (startingPlaceholder s).
Definition set_nextHandle n (s : State) : State :=
  mkState (cards s) (scene s) (fbxTemplate s) n (inputLocked s)
          (inputLockTimer s) (activeTimers s) (startingPlaceholder s).
Definition set_inputLocked b (s : State) : State :=
  mkState (cards s) (scene s) (fbxTemplate s) (nextHandle s) b
          (inputLockTimer s) (activeTimers s) (startingPlaceholder s).
Definition set_inputLockTimer t (s : State) : State :=
  mkState (cards s) (scene s) (fbxTemplate s) (nextHandle s) (inputLocked s)
          t (activeTimers s) (startingPlaceholder s).
Definition set_activeTimers t (s : State) : State :=
  mkState (cards s) (scene s) (fbxTemplate s) (nextHandle s) (inputLocked s)
          (inputLockTimer s) t (startingPlaceholder s).
Definition set_startingPlaceholder b (s : State) : State :=
  mkState (cards s) (scene s) (fbxTemplate s) (nextHandle s) (inputLocked s)
          (inputLockTimer s) (activeTimers s) b.

(** [scene.add(obj)] for an object that has no parent yet. *)
Definition scene_add (m : Mesh) (s : State) : State :=
  set_scene (scene s ++ [m]) s.

(** [scene.remove(obj)]: splices the object out where [indexOf] finds it. *)
Fixpoint remove_object (m : Mesh) (l : list Mesh) : list Mesh :=
  match l with
  | [] => []
  | x :: rest =>
      if bool_decide (handle x = handle m) then rest
      else x :: remove_object m rest
  end.

Definition scene_remove (m : Mesh) (s : State) : State :=
  set_scene (remove_object m (scene s)) s.

Definition clearTimeout (t : option nat) (s : State) : State :=
  match t with
  | Some h => set_activeTimers (filter (fun x => x <> h) (activeTimers s)) s
  | None => s
  end.

(** [cards.find(c => c.id === id)] *)
Definition find_card (i : Wire.CardId) (l : list CardObj) : option CardObj :=
  List.find (fun c => bool_decide (id c = i)) l.

Definition find_wire (i : Wire.CardId) (l : list Wire.Card) : option Wire.Card :=
  List.find (fun g => bool_decide (Wire.id g = i)) l.

(** [createCardInstance]: [null] without a template; otherwise a fresh
    clone is added to the scene and wrapped. *)
Definition createCardInstance (cardId : Wire.CardId) (value : JS.value)
    (s : State) : option CardObj * State :=
  match fbxTemplate s with
  | None => (None, s)
  | Some tpl =>
      let clone := mkMesh (nextHandle s) cardId in
      let s := set_nextHandle (S (nextHandle s)) s in
      let s := scene_add clone s in
      (Some (mkCardObj cardId value clone false false
                       (bool_decide (0 < animations tpl)%nat)), s)
  end.

(** The body of "Create missing cards". *)
Definition createMissing (s : State) (c : Wire.Card) : State :=
  match find_card (Wire.id c) (cards s) with
  | Some _ => s
  | None =>
      match createCardInstance (Wire.id c) (Wire.value c) s with
      | (Some inst, s) => set_cards (cards s ++ [inst]) s
      | (None, s) => s
      end
  end.

(** The body of "Remove extra cards if any". *)
Definition removeExtra (gameCards : list Wire.Card) (s : State) (c : CardObj)
  : State :=
  match find_wire (id c) gameCards with
  | Some _ => s
  | None =>
      let s := scene_remove (mesh c) s in
      set_cards (filter (fun x => id x <> id c) (cards s)) s
  end.

(** Assignments to the fields of the object [cards.find] returned. *)
Definition syncLocal (g : Wire.Card) (local : CardObj) : CardObj :=
  let local :=
    if Wire.isMatched g && negb (isMatched local)
    then mkCardObj (id local) (value local) (mesh local) (isFaceUp local)
                   true (hasFlipAction local)
    else local in
  if bool_decide (Wire.isFaceUp g = isFaceUp local) then local
  else mkCardObj (id local) (Wire.value g) (mesh local) (Wire.isFaceUp g)
                 (isMatched local) (hasFlipAction local).

Fixpoint update_found (i : Wire.CardId) (f : CardObj -> CardObj)
    (l : list CardObj) : list CardObj :=
  match l with
  | [] => []
  | c :: rest =>
      if bool_decide (id c = i) then f c :: rest
      else c :: update_found i f rest
  end.

Definition syncState (s : State) (g : Wire.Card) : State :=
  set_cards (update_found (Wire.id g) (syncLocal g) (cards s)) s.

(** "Remove ALL old cards that are not in the new game state". *)
Definition removeOld (gameCards : list Wire.Card) (s : State) : State :=
  let newGameCardIds : gset nat := list_to_set (Wire.id <$> gameCards) in
  let cardsToRemove := filter (fun c => id c ∉ newGameCardIds) (cards s) in
  if bool_decide (0 < length cardsToRemove)%nat
  then
    let s := foldl (fun st c => scene_remove (mesh c) st) s cardsToRemove in
    set_cards (filter (fun c => id c ∈ newGameCardIds) (cards s)) s
  else s.

(** The input lock is taken while a state is processed and released at
    the end. *)
Definition lockInput (s : State) : State :=
  clearTimeout (inputLockTimer s) (set_inputLocked true s).

Definition releaseInput (s : State) : State :=
  let s := set_inputLocked false s in
  match inputLockTimer s with
  | Some h => set_inputLockTimer None (clearTimeout (Some h) s)
  | None => s
  end.

(** [updateFromGameState(gameState)] from its first line to its last,
    with nothing run between its awaits.  The function is async;
    [SceneAsync] below has it one await at a time, and a call that is
    resumed with nothing in between does what is written here. *)
Definition updateFromGameState (gameState : option Wire.GameState)
    (s : State) : State :=
  match gameState with
  | None => s
  | Some gameState =>
      let s := set_startingPlaceholder false s in
      let s := lockInput s in
      let s := removeOld (Wire.cards gameState) s in
      let s := foldl createMissing s (Wire.cards gameState) in
      let s := foldl (removeExtra (Wire.cards gameState)) s (cards s) in
      let s := foldl syncState s (Wire.cards gameState) in
      releaseInput s
  end.

End Scene.

(* ================================================================== *)
(** ** The session engine (server side)                                *)
(* ================================================================== *)

Module Server.

Abbreviation Symbol := string.

(** Modelled from the spec: the Card of the data model (the server's
    game state module is not among the sources). *)
Record Card := mkCard {
  id : nat;
  value : Symbol;
  isFaceUp : bool;
  isMatched : bool
}.

(** Modelled from the spec: the Player of the data model; the connection
    reference is absent while the player is disconnected. *)
Record Player := mkPlayer {
  slotIndex : nat;
  colorOrLabel : string;
  score : nat;
  connectionRef : option nat
}.

(** Modelled from the spec: the states of the turn resolver. *)
Inductive Status := waiting | playing | resolving | won.

#[global] Instance Status_eq_dec : EqDecision Status.
Proof. solve_decision. Defined.

(** Modelled from the spec: the error taxonomy of the engine. *)
Inductive Error :=
| ConfigurationError
| InvalidMoveError
| NotFoundError
| CapacityError
| ProtocolError.

(** Modelled from the spec: the Game entity, with the parameters it was
    created from (a reset generates a board from them again) and the
    pending flip-back timer. *)
Record Game := mkGame {
  gameId : string;
  cards : list Card;
  players : list Player;
  activePlayerIndex : nat;
  flippedCardIds : list nat;
  status : Status;
  flipBackTimer : bool;
  playerCount : nat;
  pairCount : nat;
  symbolSet : gset Symbol
}.

(** *** Board Generator *)

(** Modelled from the spec: "duplicates each into two cards". *)
Definition duplicate (symbols : list Symbol) : list Symbol :=
  flat_map (fun v => [v; v]) symbols.

(** Modelled from the spec: "assigns sequential unique ids"; all cards
    start face down and unmatched. *)
Fixpoint number (from : nat) (values : list Symbol) : list Card :=
  match values with
  | [] => []
  | v :: rest => mkCard from v false false :: number (S from) rest
  end.

(** Modelled from the spec: exchange of two positions of a sequence. *)
Definition swap {A} (i j : nat) (l : list A) : list A :=
  match l !! i, l !! j with
  | Some x, Some y => <[j:=x]> (<[i:=y]> l)
  | _, _ => l
  end.

(** Modelled from the spec: the Fisher-Yates shuffle, driven by the
    injected random source ([random i] is the draw made for position
    [i], reduced to [0..i]). *)
Fixpoint fisherYates {A} (random : nat -> nat) (i : nat) (l : list A)
  : list A :=
  match i with
  | O => l
  | S i' => fisherYates random i' (swap i (random i mod S i)%nat l)
  end.

(** Modelled from the spec: the shuffle "over the full sequence", from the
    last position down. *)
Definition shuffle {A} (random : nat -> nat) (l : list A) : list A :=
  fisherYates random (length l - 1)%nat l.

(** Modelled from the spec: [generate(pairCount, symbolSet)] of the
    Board Generator (section 4.1), with its random source as argument. *)
Definition generate (pairCount : nat) (symbolSet : gset Symbol)
    (random : nat -> nat) : Error + list Card :=
  if bool_decide (pairCount ≤ size symbolSet)%nat
  then
    let selected := take pairCount (elements symbolSet) in
    inr (shuffle random (number 0 (duplicate selected)))
  else inl ConfigurationError.

(** *** Game State *)

(** Modelled from the spec: the card of a given id, if the id is known. *)
Definition findCard (cardId : nat) (g : Game) : option Card :=
  List.find (fun c => bool_decide (id c = cardId)) (cards g).

Definition set_cards cs (g : Game) : Game :=
  mkGame (gameId g) cs (players g) (activePlayerIndex g) (flippedCardIds g)
         (status g) (flipBackTimer g) (playerCount g) (pairCount g)
         (symbolSet g).
Definition set_players ps (g : Game) : Game :=
  mkGame (gameId g) (cards g) ps (activePlayerIndex g) (flippedCardIds g)
         (status g) (flipBackTimer g) (playerCount g) (pairCount g)
         (symbolSet g).
Definition set_activePlayerIndex i (g : Game) : Game :=
  mkGame (gameId g) (cards g) (players g) i (flippedCardIds g)
         (status g) (flipBackTimer g) (playerCount g) (pairCount g)
         (symbolSet g).
Definition set_flippedCardIds f (g : Game) : Game :=
  mkGame (gameId g) (cards g) (players g) (activePlayerIndex g) f
         (status g) (flipBackTimer g) (playerCount g) (pairCount g)
         (symbolSet g).
Definition set_status st (g : Game) : Game :=
  mkGame (gameId g) (cards g) (players g) (activePlayerIndex g)
         (flippedCardIds g) st (flipBackTimer g) (playerCount g)
         (pairCount g) (symbolSet g).
Definition set_flipBackTimer t (g : Game) : Game :=
  mkGame (gameId g) (cards g) (players g) (activePlayerIndex g)
         (flippedCardIds g) (status g) t (playerCount g) (pairCount g)
         (symbolSet g).

(** Modelled from the spec: the mutation primitives of section 4.2. *)
Definition setFaceUp (cardId : nat) (up : bool) (g : Game) : Game :=
  set_cards
    ((fun c => if bool_decide (id c = cardId)
               then mkCard (id c) (value c) up (isMatched c) else c)
       <$> cards g) g.

(** Modelled from the spec: [setMatched(cardId)]. *)
Definition setMatched (cardId : nat) (g : Game) : Game :=
  set_cards
    ((fun c => if bool_decide (id c = cardId)
               then mkCard (id c) (value c) (isFaceUp c) true else c)
       <$> cards g) g.

(** Modelled from the spec: [advanceTurn()], to [(current+1) mod
    playerCount].  The optional policy of skipping permanently
    disconnected slots is not part of the core and is left out. *)
Definition advanceTurn (g : Game) : Game :=
  set_activePlayerIndex
    ((activePlayerIndex g + 1) mod length (players g))%nat g.

(** Modelled from the spec: [addScore(slotIndex, n)]. *)
Definition addScore (slot n : nat) (g : Game) : Game :=
  set_players
    ((fun p => if bool_decide (slotIndex p = slot)
               then mkPlayer (slotIndex p) (colorOrLabel p) (score p + n)%nat
                             (connectionRef p)
               else p) <$> players g) g.

(** Modelled from the spec: the redacted view of section 4.2 and the
    GAME_STATE payload of section 6: the value of a face-down card is
    nulled, whoever asks. *)
Definition redactCard (c : Card) : Wire.Card :=
  Wire.mkCard (id c)
              (if isFaceUp c then JS.Str (value c) else JS.Null)
              (isFaceUp c) (isMatched c).

(** Modelled from the spec: the status names of the GAME_STATE message. *)
Definition statusName (st : Status) : string :=
  match st with
  | waiting => "waiting"
  | playing => "playing"
  | resolving => "resolving"
  | won => "won"
  end.

(** Modelled from the spec: the GAME_STATE snapshot sent to a player. *)
Definition redactedView (requester : nat) (g : Game) : Wire.GameState :=
  Wire.mkGameState
    (Some (gameId g))
    ((fun p => Wire.mkPlayer (slotIndex p) (colorOrLabel p)
                             (Z.of_nat (score p))) <$> players g)
    (activePlayerIndex g)
    (redactCard <$> cards g)
    (statusName (status g)).

(** *** Turn Resolver *)

(** Modelled from the spec: win detection, "all cards isMatched". *)
Definition allMatched (g : Game) : bool :=
  forallb isMatched (cards g).

(** Modelled from the spec: the FLIP transition of section 4.3, steps 1
    to 4.  A mismatch leaves the game in [resolving] with the flip-back
    timer scheduled. *)
Definition flip (requester cardId : nat) (g : Game) : Error + Game :=
  if bool_decide (status g ≠ playing) then inl InvalidMoveError else
  match players g !! activePlayerIndex g, findCard cardId g with
  | Some active, Some card =>
      if bool_decide (slotIndex active ≠ requester) then inl InvalidMoveError
      else if isMatched card then inl InvalidMoveError
      else if isFaceUp card then inl InvalidMoveError
      else if bool_decide (length (flippedCardIds g) = 2)%nat
           then inl InvalidMoveError
      else
        let g := setFaceUp cardId true g in
        let g := set_flippedCardIds (flippedCardIds g ++ [cardId]) g in
        match flippedCardIds g with
        | [a; b] =>
            let g := set_status resolving g in
            match findCard a g, findCard b g with
            | Some ca, Some cb =>
                if bool_decide (value ca = value cb)
                then
                  let g := setMatched b (setMatched a g) in
                  let g := addScore (slotIndex active) 1 g in
                  let g := set_flippedCardIds [] g in
                  inr (set_status (if allMatched g then won else playing) g)
                else inr (set_flipBackTimer true g)
            | _, _ => inr (set_flipBackTimer true g)
            end
        | _ => inr g
        end
  | _, _ => inl InvalidMoveError
  end.

(** Modelled from the spec: the deferred callback of the no-match
    branch, run when the reveal delay has passed. *)
Definition flipBack (g : Game) : Game :=
  if flipBackTimer g then
    let g := set_flipBackTimer false g in
    let g := foldr (fun cardId g => setFaceUp cardId false g) g
                   (flippedCardIds g) in
    let g := set_flippedCardIds [] g in
    let g := advanceTurn g in
    set_status playing g
  else g.

(** Modelled from the spec: "waiting/playing per player count". *)
Definition statusFor (g : Game) : Status :=
  if bool_decide (length (players g) = playerCount g) then playing
  else waiting.

(** Modelled from the spec: RESET (section 4.3, step 5): a new board,
    scores cleared, any pending flip-back timer cancelled. *)
Definition reset (random : nat -> nat) (g : Game) : Game :=
  match generate (pairCount g) (symbolSet g) random with
  | inr board =>
      let ps := (fun p => mkPlayer (slotIndex p) (colorOrLabel p) 0%nat
                                   (connectionRef p)) <$> players g in
      let g := mkGame (gameId g) board ps 0%nat [] waiting false
                      (playerCount g) (pairCount g) (symbolSet g) in
      set_status (statusFor g) g
  | inl _ => g
  end.

(** Modelled from the spec: [createGame] of the Game Manager; the game
    starts in [waiting] with no player. *)
Definition createGame (gameId : string) (playerCount pairCount : nat)
    (symbolSet : gset Symbol) (random : nat -> nat) : Error + Game :=
  if bool_decide (playerCount < 2)%nat then inl ConfigurationError else
  match generate pairCount symbolSet random with
  | inr board =>
      inr (mkGame gameId board [] 0%nat [] waiting false
                  playerCount pairCount symbolSet)
  | inl e => inl e
  end.

(** Modelled from the spec: [joinGame]; the game starts to play once
    its slots are taken. *)
Definition joinGame (label : string) (connection : nat) (g : Game)
  : Error + Game :=
  if bool_decide (playerCount g ≤ length (players g))%nat
  then inl CapacityError
  else
    let p := mkPlayer (length (players g)) label 0%nat (Some connection) in
    let g := set_players (players g ++ [p]) g in
    inr (if bool_decide (status g = waiting)
         then set_status (statusFor g) g else g).

(** Modelled from the spec: disconnect and reconnect keep slot and score. *)
Definition setConnection (slot : nat) (conn : option nat) (g : Game) : Game :=
  set_players
    ((fun p => if bool_decide (slotIndex p = slot)
               then mkPlayer (slotIndex p) (colorOrLabel p) (score p) conn
               else p) <$> players g) g.

(** Modelled from the spec: what can happen to a game, the requests of
    section 6 and the end of the reveal delay. *)
Inductive Action :=
| Join (label : string) (connection : nat)
| Flip (requester cardId : nat)
| RevealDelayOver
| Reset (random : nat -> nat)
| Disconnect (slot : nat)
| Reconnect (slot connection : nat).

(** Modelled from the spec: [handleAction] of the Game Manager; an error
    is reported to the requester and changes nothing (section 7). *)
Definition handleAction (a : Action) (g : Game) : Game :=
  match a with
  | Join label conn =>
      match joinGame label conn g with inr g' => g' | inl _ => g end
  | Flip requester cardId =>
      match flip requester cardId g with inr g' => g' | inl _ => g end
  | RevealDelayOver => flipBack g
  | Reset random => reset random g
  | Disconnect slot => setConnection slot None g
  | Reconnect slot conn => setConnection slot (Some conn) g
  end.

(** Modelled from the spec: the game states the engine can get into,
    from [createGame] on by the actions above. *)
Inductive reachable : Game -> Prop :=
| reach_create gid n p syms random g :
    createGame gid n p syms random = inr g -> reachable g
| reach_step a g :
    reachable g -> reachable (handleAction a g).

End Server.

(* ================================================================== *)
(** ** public/scripts.js: the handlers around the board               *)
(* ================================================================== *)

Module ScriptsPage.
Import Wire Page.

(** What is put into #gameInfo: the values that [updateGameInfo]
    interpolates into its markup, or the text set by [startGame]. *)
Inductive InfoContent :=
| InfoMarkup (gameId : string) (playerCount : nat) (status : string)
             (activeColor : string) (scores : string)
| InfoText (text : string).

(** The page with the elements and variables the other handlers use. *)
Record Window := mkWindow {
  client : Client;
  gameInfo : option InfoContent;                 (* #gameInfo *)
  backgroundColor : option string;   (* cardGrid.style.backgroundColor, if declared *)
  connectionStatus : option (string * string);   (* className, textContent *)
  gameClient_gameId : option string              (* gameClient.gameId *)
}.

Definition set_client c (w : Window) : Window :=
  mkWindow c (gameInfo w) (backgroundColor w) (connectionStatus w)
           (gameClient_gameId w).
Definition set_gameInfo i (w : Window) : Window :=
  mkWindow (client w) i (backgroundColor w) (connectionStatus w)
           (gameClient_gameId w).
Definition set_backgroundColor b (w : Window) : Window :=
  mkWindow (client w) (gameInfo w) b (connectionStatus w)
           (gameClient_gameId w).
Definition set_connectionStatus c (w : Window) : Window :=
  mkWindow (client w) (gameInfo w) (backgroundColor w) c
           (gameClient_gameId w).
Definition set_gameClient_gameId g (w : Window) : Window :=
  mkWindow (client w) (gameInfo w) (backgroundColor w) (connectionStatus w) g.

(** [gameClient.onConnectionChange] *)
Definition onConnectionChange (isConnected : bool) (w : Window) : Window :=
  match connectionStatus w with
  | Some _ =>
      if isConnected
      then set_connectionStatus
             (Some ("status connected", "✅ Connected to server")) w
      else set_connectionStatus
             (Some ("status disconnected", "❌ Disconnected from server")) w
  | None => w
  end.

(** [`${gameState.gameId}`] *)
Definition gameIdText (gameId : option string) : string :=
  match gameId with
  | Some g => g
  | None => "null"
  end.

(** [updateGameInfo]: reading [activePlayer.color] throws when
    [players[activePlayerIndex]] is undefined. *)
Definition updateGameInfo (gameState : GameState) (w : Window)
  : JS.completion * Window :=
  match gameInfo w with
  | None => (JS.Returned, w)
  | Some _ =>
      let playerScores :=
        JS.join " | " (Scripts.scoreLine <$> players gameState) in
      match players gameState !! activePlayerIndex gameState with
      | Some activePlayer =>
          (JS.Returned,
           set_gameInfo
             (Some (InfoMarkup (gameIdText (gameId gameState))
                               (length (players gameState))
                               (status gameState)
                               (color activePlayer) playerScores)) w)
      | None => (JS.Threw "TypeError", w)
      end
  end.

Section WithCss.

(** The CSS parser on the value of a colour property: the colour as the
    style declaration then holds it, or [None] when the string is no
    colour. *)
Variable cssColor : string -> option string.

(** [grid.style.backgroundColor = value]: the empty string removes the
    declaration, a value that is no colour is ignored. *)
Definition assignBackgroundColor (value : string) (w : Window) : Window :=
  if bool_decide (value = EmptyString) then set_backgroundColor None w
  else match cssColor value with
       | Some c => set_backgroundColor (Some c) w
       | None => w
       end.

(** [updateActivePlayerBackground] *)
Definition updateActivePlayerBackground (gameState : GameState) (w : Window)
  : JS.completion * Window :=
  match cardGrid (client w) with
  | None => (JS.Returned, w)
  | Some _ =>
      match players gameState !! activePlayerIndex gameState with
      | Some activePlayer =>
          (JS.Returned, assignBackgroundColor (color activePlayer) w)
      | None => (JS.Threw "TypeError", w)
      end
  end.

(** [gameClient.onGameStateUpdate], as assigned last.  [showWinPopup] is
    an async function: what it throws does not reach the handler. *)
Definition onGameStateUpdate (gameState : GameState) (w : Window)
  : JS.completion * Window :=
  let w := set_client (set_currentGameState (Some gameState) (client w)) w in
  match updateGameInfo gameState w with
  | (JS.Threw e, w) => (JS.Threw e, w)
  | (JS.Returned, w) =>
      match updateActivePlayerBackground gameState w with
      | (JS.Threw e, w) => (JS.Threw e, w)
      | (JS.Returned, w) =>
          let w := set_client (Scripts.renderCards gameState (client w)) w in
          let w :=
            if bool_decide (status gameState = "won")
            then set_client (Scripts.showWinPopup gameState (client w)).2 w
            else w in
          (JS.Returned, w)
      end
  end.

End WithCss.

Definition startingMarkup : string :=
  "<p style=" +:+ JS.dq +:+ "text-align: center; color: #888;" +:+ JS.dq
    +:+ ">Starting new game...</p>".

(** [window.startGame] *)
Definition startGame (playerCount : Z) (w : Window) : Window :=
  let c := set_currentGameState None (client w) in
  let c :=
    match cardGrid c with
    | Some _ => set_cardGrid (Some (GridMarkup startingMarkup)) c
    | None => c
    end in
  let w := set_client c w in
  let w :=
    match gameInfo w with
    | Some _ => set_gameInfo (Some (InfoText "Creating new game...")) w
    | None => w
    end in
  let w := set_gameClient_gameId None w in
  set_client (call (StartNewGame playerCount) (client w)) w.

End ScriptsPage.

(* ================================================================== *)
(** ** public/scene.js: pointer clicks and the input lock              *)
(* ================================================================== *)

Module SceneInput.

(** The scene module together with the clock, the timers it has set and
    the calls it has made on the click callback. *)
Record Stage := mkStage {
  st : Scene.State;
  ready : bool;                (* [camera] and [raycaster] exist *)
  onCardClickCallback : bool;  (* a callback was given to [initScene] *)
  now : Z;                     (* milliseconds *)
  timerSeq : nat;              (* the last timer id handed out *)
  due : list (nat * Z);        (* timers set: id, due time *)
  clicked : list Wire.CardId   (* arguments of the callback, in order *)
}.

Definition set_st s (g : Stage) : Stage :=
  mkStage s (ready g) (onCardClickCallback g) (now g) (timerSeq g) (due g)
          (clicked g).

(** The object a ray hits, given by [userData.cardId] of the object and
    of its ancestors, innermost first ([None]: undefined).  The loop
    [while (obj && !obj.userData?.cardId) obj = obj.parent] stops at the
    first id that is truthy. *)
Fixpoint cardUnder (chain : list (option nat)) : option nat :=
  match chain with
  | [] => None
  | Some n :: rest => if bool_decide (n = 0%nat) then cardUnder rest else Some n
  | None :: rest => cardUnder rest
  end.

(** [onPointerClick]; [hit] is [intersects[0].object] with its ancestors,
    [None] when the ray meets no card model. *)
Definition onPointerClick (hit : option (list (option nat))) (g : Stage)
  : Stage :=
  if negb (ready g) || bool_decide (Scene.cards (st g) = []) then g
  else if Scene.inputLocked (st g) then g
  else
    match hit with
    | None => g
    | Some chain =>
        match cardUnder chain with
        | None => g
        | Some cardId =>
            if onCardClickCallback g then
              let s := Scene.set_inputLocked true (st g) in
              let s := Scene.clearTimeout (Scene.inputLockTimer s) s in
              let h := S (timerSeq g) in
              let s := Scene.set_activeTimers (Scene.activeTimers s ++ [h]) s in
              let s := Scene.set_inputLockTimer (Some h) s in
              mkStage s (ready g) (onCardClickCallback g) (now g) h
                      (due g ++ [(h, now g + 2500)])
                      (clicked g ++ [cardId])
            else g
        end
    end.

(** The callback of the timer set by [onPointerClick]. *)
Definition release (h : nat) (s : Scene.State) : Scene.State :=
  let s := Scene.set_activeTimers
             (filter (fun x => x <> h) (Scene.activeTimers s)) s in
  Scene.set_inputLockTimer None (Scene.set_inputLocked false s).

Definition dueBefore (a b : nat * Z) : Prop := a.2 <= b.2.
#[global] Instance dueBefore_dec a b : Decision (dueBefore a b).
Proof. unfold dueBefore. apply _. Defined.

(** Let [ms] milliseconds pass: the timers that are due and were not
    cleared run in the order of their due times. *)
Definition elapse (ms : Z) (g : Stage) : Stage :=
  let t := now g + ms in
  let firing :=
    filter (fun x => x.2 <= t /\ x.1 ∈ Scene.activeTimers (st g)) (due g) in
  let s := foldl (fun s x => release x.1 s) (st g)
                 (merge_sort dueBefore firing) in
  mkStage s (ready g) (onCardClickCallback g) t (timerSeq g)
          (filter (fun x => ~ x.2 <= t) (due g)) (clicked g).

(** A game state arrives and its call runs to the end, with nothing
    between its awaits. *)
Definition onGameState (gameState : option Wire.GameState) (g : Stage) : Stage :=
  set_st (Scene.updateFromGameState gameState (st g)) g.

End SceneInput.

(* ================================================================== *)
(** ** public/scene.js: updateFromGameState, one await at a time        *)
(* ================================================================== *)

Module SceneAsync.
Import Scene.

(** [updateFromGameState] is an async function.  It gives up control at
    [await Promise.all(loadPromises)] and at every [await animateFlip],
    and nothing keeps a click, a timer or another call from running
    before it goes on.  A call that waits is what is left of it to do:
    the local variables it still reads.  The card object in [local] is
    named by the handle of its model, which no code ever reassigns. *)
Inductive Call :=
| AwaitTextures (gameState : Wire.GameState)
| AwaitFlip (rest : list Wire.Card) (local : nat) (g : Wire.Card).

(** The assignments to [local] before [await animateFlip]. *)
Definition markLocal (g : Wire.Card) (local : CardObj) : CardObj :=
  let local :=
    if Wire.isMatched g && negb (isMatched local)
    then mkCardObj (id local) (value local) (mesh local) (isFaceUp local)
                   true (hasFlipAction local)
    else local in
  if bool_decide (Wire.isFaceUp g = isFaceUp local) then local
  else mkCardObj (id local) (Wire.value g) (mesh local) (isFaceUp local)
                 (isMatched local) (hasFlipAction local).

(** [local.isFaceUp = g.isFaceUp], after the await. *)
Definition faceLocal (g : Wire.Card) (local : CardObj) : CardObj :=
  mkCardObj (id local) (value local) (mesh local) (Wire.isFaceUp g)
            (isMatched local) (hasFlipAction local).

(** An assignment to a field of the object a variable holds: it shows in
    [cards] where that object still is, and nowhere when the object was
    dropped from the array in the meantime. *)
Fixpoint update_object (h : nat) (f : CardObj -> CardObj)
    (l : list CardObj) : list CardObj :=
  match l with
  | [] => []
  | c :: rest =>
      if bool_decide (handle (mesh c) = h) then f c :: rest
      else c :: update_object h f rest
  end.

(** "Update states and animate flips", from the card [rest] starts with
    up to the next await or, past the last card, through the release of
    the input lock to the end of the function. *)
Fixpoint loop (rest : list Wire.Card) (s : State) : State * option Call :=
  match rest with
  | [] => (releaseInput s, None)
  | g :: rest =>
      match find_card (Wire.id g) (cards s) with
      | None => loop rest s
      | Some local =>
          let s :=
            set_cards (update_found (Wire.id g) (markLocal g) (cards s)) s in
          if bool_decide (Wire.isFaceUp g = isFaceUp local) then loop rest s
          else (s, Some (AwaitFlip rest (handle (mesh local)) g))
      end
  end.

(** The call up to [await Promise.all(loadPromises)]. *)
Definition start (gameState : Wire.GameState) (s : State) : State * Call :=
  (lockInput (set_startingPlaceholder false s), AwaitTextures gameState).

(** From the first await to the loop over the cards of the state. *)
Definition prepare (gameState : Wire.GameState) (s : State) : State :=
  let s := removeOld (Wire.cards gameState) s in
  let s := foldl createMissing s (Wire.cards gameState) in
  foldl (removeExtra (Wire.cards gameState)) s (cards s).

(** A waiting call goes on, up to its next await or to its end. *)
Definition resume (c : Call) (s : State) : State * option Call :=
  match c with
  | AwaitTextures gameState =>
      loop (Wire.cards gameState) (prepare gameState s)
  | AwaitFlip rest local g =>
      loop rest (set_cards (update_object local (faceLocal g) (cards s)) s)
  end.

(** The scene module and the calls of [updateFromGameState] that wait. *)
Record World := mkWorld {
  stage : SceneInput.Stage;
  calls : list Call
}.

(** What the event loop runs next: a pointer click, the timers that fall
    due in [ms] milliseconds, a call of [updateFromGameState], or the
    [k]-th waiting call, whose promise is settled. *)
Inductive Event :=
| Click (hit : option (list (option nat)))
| Elapse (ms : Z)
| Arrive (gameState : option Wire.GameState)
| Resume (k : nat).

Definition step (w : World) (e : Event) : World :=
  match e with
  | Click hit => mkWorld (SceneInput.onPointerClick hit (stage w)) (calls w)
  | Elapse ms => mkWorld (SceneInput.elapse ms (stage w)) (calls w)
  | Arrive None => w
  | Arrive (Some gameState) =>
      let (s, c) := start gameState (SceneInput.st (stage w)) in
      mkWorld (SceneInput.set_st s (stage w)) (calls w ++ [c])
  | Resume k =>
      match calls w !! k with
      | None => w
      | Some c =>
          match resume c (SceneInput.st (stage w)) with
          | (s, Some c') =>
              mkWorld (SceneInput.set_st s (stage w)) (<[k := c']> (calls w))
          | (s, None) =>
              mkWorld (SceneInput.set_st s (stage w)) (delete k (calls w))
          end
      end
  end.

Definition run (es : list Event) (w : World) : World := foldl step w es.

End SceneAsync.

(* ================================================================== *)
(** ** public/scene.js: the textures of the card fronts                *)
(* ================================================================== *)

Module Textures.

(** [backTexture], or a texture the loader made: the loader hands out a
    new object for every load, named here by [handle]. *)
Inductive Texture :=
| backTexture
| loaded (handle : nat).

(** [frontTextures], a [Map] from card values to textures, in insertion
    order. *)
Abbreviation TextureMap := (list (JS.value * Texture)).

Definition Map_get (k : JS.value) (m : TextureMap) : option Texture :=
  snd <$> List.find (fun p => bool_decide (p.1 = k)) m.

Fixpoint Map_set (k : JS.value) (t : Texture) (m : TextureMap) : TextureMap :=
  match m with
  | [] => [(k, t)]
  | (k', t') :: rest =>
      if bool_decide (k' = k) then (k, t) :: rest
      else (k', t') :: Map_set k t rest
  end.

Record State := mkState {
  frontTextures : TextureMap;
  requests : list string       (* paths given to [texLoader.load], oldest first *)
}.

(** The promise a call returns: resolved at once, or settled by the
    callbacks of the load it started. *)
Inductive Promise :=
| Resolved (t : Texture)
| Loading (value : JS.value) (path : string).

(** The length of a string in UTF-16 code units; strings are held as
    UTF-8 bytes. *)
Definition units (c : ascii) : nat :=
  let n := nat_of_ascii c in
  if (n <? 128)%nat then 1%nat
  else if (n <? 192)%nat then 0%nat
  else if (n <? 240)%nat then 1%nat
  else 2%nat.

Fixpoint codeUnits (s : string) : nat :=
  match s with
  | EmptyString => 0%nat
  | String c rest => (units c + codeUnits rest)%nat
  end.

(** [s.padStart(2, '0')] *)
Definition padStart2 (s : string) : string :=
  match codeUnits s with
  | 0%nat => "00" +:+ s
  | 1%nat => "0" +:+ s
  | _ => s
  end.

Definition letterChar (c : ascii) : bool :=
  let n := nat_of_ascii c in
  ((65 <=? n)%nat && (n <=? 90)%nat) || ((97 <=? n)%nat && (n <=? 122)%nat).

(** [value.match(/^[A-Za-z]$/)] *)
Definition letter (s : string) : option ascii :=
  match s with
  | String c EmptyString => if letterChar c then Some c else None
  | _ => None
  end.

(** [toUpperCase] of a single letter. *)
Definition upperChar (c : ascii) : ascii :=
  let n := nat_of_ascii c in
  if (97 <=? n)%nat && (n <=? 122)%nat then ascii_of_nat (n - 32) else c.

Section WithParseInt.

(** [String(parseInt(value, 10))], or [None] when [parseInt] gives NaN. *)
Variable parsed : string -> option string.

(** "Map server card values (A-H) to numeric texture names 01..08" *)
Definition indexStr (value : JS.value) : string :=
  match value with
  | JS.Num _ => padStart2 (JS.toString value)
  | JS.Str s =>
      match letter s with
      | Some c =>
          let idx := Z.of_nat (nat_of_ascii (upperChar c)) - 65 + 1 in
          padStart2 (pretty idx)
      | None =>
          match parsed s with
          | Some p => padStart2 p
          | None => padStart2 s
          end
      end
  | _ => padStart2 (JS.toString value)
  end.

Definition texturePath (value : JS.value) : string :=
  "/assets/textures/card_" +:+ indexStr value +:+ ".png".

Definition ensureFrontTexture (value : JS.value) (s : State)
  : Promise * State :=
  if negb (JS.truthy value) then (Resolved backTexture, s)
  else
    match Map_get value (frontTextures s) with
    | Some t => (Resolved t, s)
    | None =>
        let path := texturePath value in
        (Loading value path, mkState (frontTextures s) (requests s ++ [path])%list)
    end.

(** The callbacks given to [texLoader.load] for [value]: what the promise
    resolves to, and the state. *)
Definition onLoad (value : JS.value) (tex : Texture) (s : State)
  : Texture * State :=
  (tex, mkState (Map_set value tex (frontTextures s)) (requests s)).

Definition onLoadError (s : State) : Texture * State := (backTexture, s).

(** [gameState.cards.map((c) => ensureFrontTexture(c.value))], the start
    of [updateFromGameState]. *)
Definition queueTextures (gameCards : list Wire.Card) (s : State)
  : list Promise * State :=
  foldl (fun acc c =>
           let '(p, s) := ensureFrontTexture (Wire.value c) acc.2 in
           ((acc.1 ++ [p])%list, s))
        ([], s) gameCards.

End WithParseInt.

End Textures.

(* ================================================================== *)
(** ** public/scene.js: the front and the back mesh of a card model    *)
(* ================================================================== *)

Module CardModel.

(** A node of the cloned model, as [clone.traverse] visits it: [lname]
    is [(node.name || '').toLowerCase()], [isMesh] is
    [node.isMesh || node.isSkinnedMesh]. *)
Record Node := mkNode {
  lname : string;
  isMesh : bool
}.

(** [/re/.test(s)] for a pattern of plain characters. *)
Fixpoint test (re s : string) : bool :=
  String.prefix re s ||
  match s with
  | EmptyString => false
  | String _ rest => test re rest
  end.

(** [allMeshes], and [frontMesh] and [backMesh] as places in it. *)
Record Found := mkFound {
  allMeshes : list Node;
  frontMesh : option nat;
  backMesh : option nat
}.

(** The callback of [clone.traverse]. *)
Definition visit (st : Found) (node : Node) : Found :=
  if negb (isMesh node) then st
  else
    let here := length (allMeshes st) in
    let all := (allMeshes st ++ [node])%list in
    if negb (bool_decide (is_Some (frontMesh st))) && test "front" (lname node)
    then mkFound all (Some here) (backMesh st)
    else if negb (bool_decide (is_Some (backMesh st))) && test "back" (lname node)
    then mkFound all (frontMesh st) (Some here)
    else mkFound all (frontMesh st) (backMesh st).

Definition byName (nodes : list Node) : Found :=
  foldl visit (mkFound [] None None) nodes.

(** "Fallback: if both have similar names, just use first two meshes" *)
Definition fallback (st : Found) : Found :=
  let n := length (allMeshes st) in
  let noFront := negb (bool_decide (is_Some (frontMesh st))) in
  let noBack := negb (bool_decide (is_Some (backMesh st))) in
  if noFront && noBack && (2 <=? n)%nat
  then mkFound (allMeshes st) (Some 0%nat) (Some 1%nat)
  else if noFront && (1 <=? n)%nat
  then mkFound (allMeshes st) (Some 0%nat) (backMesh st)
  else if noBack && (2 <=? n)%nat
  then mkFound (allMeshes st) (frontMesh st) (Some 1%nat)
  else st.

(** "Find front and back meshes by traversing children" *)
Definition findMeshes (nodes : list Node) : Found := fallback (byName nodes).

End CardModel.


(* ================================================================== *)
(** ** Notions used to state the properties                            *)
(* ================================================================== *)

Module Props.
Import Wire Page.

(** The characters of a string. *)
Definition chars (s : string) : list ascii := list_ascii_of_string s.

(** The escape of one character, spelled out: the five special characters
    go to their entity, every other character stays. *)
Definition entityOf (c : ascii) : string :=
  if bool_decide (c = "&"%char) then "&amp;"
  else if bool_decide (c = "<"%char) then "&lt;"
  else if bool_decide (c = ">"%char) then "&gt;"
  else if bool_decide (c = JS.dquote) then "&quot;"
  else if bool_decide (c = "'"%char) then "&#39;"
  else String c EmptyString.

Fixpoint escapeEach (s : string) : string :=
  match s with
  | EmptyString => EmptyString
  | String c rest => entityOf c +:+ escapeEach rest
  end.

Definition rawMarkup : list ascii := ["<"; ">"; JS.dquote; "'"]%char.

(** The markup that shows [message] as an error: a [div] of class error
    that holds the cross mark and the message. *)
Definition errorDiv (message : string) : string :=
  "<div class=" +:+ JS.dq +:+ "error" +:+ JS.dq +:+ ">❌ " +:+ message
    +:+ "</div>".

(** The click guard of the card listener. *)
Definition mayFlip (card : Card) (s : Client) : Prop :=
  isMatched card = false /\
  exists cur, currentGameState s = Some cur /\ status cur = "playing".

(** Two payloads that differ at most in the values of face-down cards. *)
Definition sameVisibleCard (c1 c2 : Card) : Prop :=
  id c1 = id c2 /\ isFaceUp c1 = isFaceUp c2 /\ isMatched c1 = isMatched c2 /\
  (isFaceUp c1 = true -> value c1 = value c2).

Definition sameVisible (g1 g2 : GameState) : Prop :=
  gameId g1 = gameId g2 /\ players g1 = players g2 /\
  activePlayerIndex g1 = activePlayerIndex g2 /\ status g1 = status g2 /\
  Forall2 sameVisibleCard (cards g1) (cards g2).

(** What the card grid shows: the class list and text of every element,
    or the markup that was put there. *)
Definition gridView (s : Client)
  : option (list (list string * string) + string) :=
  match cardGrid s with
  | Some (GridCards els) => Some (inl (shown <$> els))
  | Some (GridMarkup html) => Some (inr html)
  | None => None
  end.

(** The card elements in the grid. *)
Definition gridCards (s : Client) : list CardEl :=
  match cardGrid s with
  | Some (GridCards els) => els
  | _ => []
  end.

(** Two server games that differ at most in the values of face-down cards. *)
Definition sameButHiddenCard (c1 c2 : Server.Card) : Prop :=
  Server.id c1 = Server.id c2 /\ Server.isFaceUp c1 = Server.isFaceUp c2 /\
  Server.isMatched c1 = Server.isMatched c2 /\
  (Server.isFaceUp c1 = true -> Server.value c1 = Server.value c2).

Definition sameButHidden (g1 g2 : Server.Game) : Prop :=
  Server.gameId g1 = Server.gameId g2 /\
  Server.players g1 = Server.players g2 /\
  Server.activePlayerIndex g1 = Server.activePlayerIndex g2 /\
  Server.status g1 = Server.status g2 /\
  Forall2 sameButHiddenCard (Server.cards g1) (Server.cards g2).

(** A card element displays the value of its card. *)
Definition displaysValue (card : Card) (el : CardEl) : Prop :=
  "faceup" ∈ classList el /\ textContent el = JS.toString (value card).

(** Class list of an element, and the animation delay in its style. *)
Definition className_of (e : Dom.Elem) : list string :=
  match e with Dom.El _ classes _ _ => classes end.

Definition delay_of (e : Dom.Elem) : option Q :=
  match e with Dom.El _ _ st _ => Dom.animationDelay <$> st end.

(** An element carrying the class is somewhere in the document. *)
Definition running (w : Dom.World) : Prop :=
  is_Some (Dom.querySelector "confetti-screen" (Dom.body w)).


(** The confetti screen a launch appended to the body: one [div] of class
    confetti-screen whose children are [burst] pieces that start together
    after half a second, followed by [rest] further pieces. *)
Definition launched (burst rest : Z) (w w' : Dom.World) : Prop :=
  exists screen burstKids loopKids,
    Dom.body w' = Dom.appendChild screen (Dom.body w) /\
    className_of screen = ["confetti-screen"] /\
    Dom.children_of screen = (burstKids ++ loopKids)%list /\
    Forall (fun e => delay_of e = Some (5 # 10)%Q) burstKids /\
    Z.of_nat (length burstKids) = burst /\
    Z.of_nat (length loopKids) = rest /\
    Z.of_nat (length (Dom.children_of screen)) = burst + rest.

(** *** Sequences of calls of showWinPopup *)

Section Popups.
Variable show : GameState -> Client -> Client.

(** The number of overlays that the calls for game [gid] add to the body
    when [showWinPopup] is called for each state of [calls] in turn. *)
Fixpoint overlaysFor (gid : option string) (calls : list GameState)
    (s : Client) : nat :=
  match calls with
  | [] => O
  | gs :: rest =>
      let s' := show gs s in
      ((if bool_decide (gameId gs = gid)
        then length (body s') - length (body s) else O)
       + overlaysFor gid rest s')%nat
  end.
End Popups.

Definition showScripts (gs : GameState) (s : Client) : Client :=
  (Scripts.showWinPopup gs s).2.

(** The text of [String(Object)] in V8. *)
Definition v8Object : string := "function Object() { [native code] }".

Definition showUI (nativeObject : string) (onConfettiStart : bool)
    (gs : GameState) (s : Client) : Client :=
  UI.showWinPopup nativeObject gs onConfettiStart s.

(** The calls for one game come one after the other: a game id that has
    been followed by another one does not come back. *)
Fixpoint grouped (ids : list (option string)) : bool :=
  match ids with
  | [] => true
  | x :: rest =>
      (bool_decide (head rest = Some x) || bool_decide (x ∉ rest))
      && grouped rest
  end.

(** Won games used in the examples. *)
Definition wonGame (gid : string) : GameState :=
  mkGameState (Some gid) [mkPlayer 0 "red" 1; mkPlayer 1 "blue" 0] 0 [] "won".

(** *** The cards of the 3D scene *)

(** The ids of the card objects the scene module holds, of the card
    models in the scene graph, and of the cards of a game state. *)
Definition cardIds (s : Scene.State) : gset nat :=
  list_to_set (Scene.id <$> Scene.cards s).

Definition sceneIds (s : Scene.State) : gset nat :=
  list_to_set (Scene.userData_cardId <$> Scene.scene s).

Definition stateIds (gs : GameState) : gset nat :=
  list_to_set (id <$> cards gs).

(** The scene graph and the [cards] array agree: the card models in the
    scene are the models of the card objects, every object is there
    once, and a model carries the id of its card. *)
Definition sceneOk (s : Scene.State) : Prop :=
  (forall m, m ∈ Scene.scene s <-> m ∈ Scene.mesh <$> Scene.cards s) /\
  NoDup (Scene.handle <$> Scene.scene s) /\
  (forall m, m ∈ Scene.scene s -> (Scene.handle m < Scene.nextHandle s)%nat) /\
  (forall c, c ∈ Scene.cards s -> Scene.userData_cardId (Scene.mesh c) = Scene.id c).

(** A scene before the first game state, with and without a card model. *)
Definition emptyScene (template : option Scene.Template) : Scene.State :=
  Scene.mkState [] [] template 0 false None [] false.

(** *** Boards *)

(** The number of cards of a board that carry the value [v]. *)
Definition occurrences (v : Server.Symbol) (board : list Server.Card) : nat :=
  length (filter (fun c => Server.value c = v) board).

(** *** The turn resolver *)

(** Two different cards are face up, unresolved, and differ in value. *)
Definition mismatchRevealed (g : Server.Game) : Prop :=
  exists a b ca cb,
    Server.flippedCardIds g = [a; b] /\ a <> b /\
    Server.findCard a g = Some ca /\ Server.findCard b g = Some cb /\
    Server.isFaceUp ca = true /\ Server.isFaceUp cb = true /\
    Server.value ca <> Server.value cb.

(** What holds of the flipped cards and the timer in each status. *)
Definition resolverInv (g : Server.Game) : Prop :=
  match Server.status g with
  | Server.resolving =>
      Server.flipBackTimer g = true /\ mismatchRevealed g /\
      is_Some (Server.players g !! Server.activePlayerIndex g)
  | Server.playing =>
      Server.flipBackTimer g = false /\
      (Server.flippedCardIds g = [] \/
       exists a ca, Server.flippedCardIds g = [a] /\
                    Server.findCard a g = Some ca /\ Server.isFaceUp ca = true)
  | Server.waiting | Server.won =>
      Server.flipBackTimer g = false /\ Server.flippedCardIds g = []
  end.

(** The outcome of resolving the mismatch of cards [a] and [b] of [g]. *)
Definition resolvedFrom (a b : nat) (g g' : Server.Game) : Prop :=
  (exists ca cb,
     Server.findCard a g' = Some ca /\ Server.findCard b g' = Some cb /\
     Server.isFaceUp ca = false /\ Server.isFaceUp cb = false) /\
  (forall c, c ∈ Server.cards g' -> Server.id c = a \/ Server.id c = b ->
             Server.isFaceUp c = false) /\
  Server.flippedCardIds g' = [] /\
  Server.activePlayerIndex g'
    = ((Server.activePlayerIndex g + 1) mod length (Server.players g))%nat /\
  Server.players g' = Server.players g /\
  (0 < length (Server.players g))%nat /\
  Server.status g' = Server.playing /\
  Server.flipBackTimer g' = false.

(** A two-player game over two pairs, after both players have joined and
    the first player has turned card 0. *)
Definition demoBoard : list Server.Card :=
  match Server.generate 2 {["A"; "B"]} (fun _ => 0%nat) with
  | inr board => board
  | inl _ => []
  end.

Definition demoCreated : Server.Game :=
  Server.mkGame "g" demoBoard [] 0 [] Server.waiting false 2 2 {["A"; "B"]}.

Definition demoFirstFlip : Server.Game :=
  Server.handleAction (Server.Flip 0 0)
    (Server.handleAction (Server.Join "blue" 2)
       (Server.handleAction (Server.Join "red" 1) demoCreated)).

(** *** The handlers of scripts.js *)

(** The fields of the client that only the popup, the error handler and
    the card listeners write. *)
Definition quiet (c c' : Client) : Prop :=
  errorBox c' = errorBox c /\ timers c' = timers c /\ clock c' = clock c /\
  calls c' = calls c.

(** A window before any message, with all its elements. *)
Definition freshWindow : ScriptsPage.Window :=
  ScriptsPage.mkWindow fresh (Some (ScriptsPage.InfoText EmptyString)) None
                       (Some (EmptyString, EmptyString)) None.

(** A colour parser that knows the four colour names of the game. *)
Definition namedColors (value : string) : option string :=
  if bool_decide (value ∈ ["red"; "yellow"; "blue"; "green"]) then Some value
  else None.

(** A game of two players in which [turn] is the active index. *)
Definition playingGame (turn : nat) : GameState :=
  mkGameState (Some "g") [mkPlayer 0 "red" 0; mkPlayer 1 "blue" 0] turn
              [mkCard 1 (JS.Str "A") true false; mkCard 2 JS.Null false false]
              "playing".

(** *** Overlays *)

(** A text that holds no raw markup character, and one that holds no
    dollar sign. *)
Definition clean (t : string) : Prop := forall c, c ∈ chars t -> c ∉ rawMarkup.

Definition noDollar (t : string) : Prop := "$"%char ∉ chars t.

(** The inline markup of scripts.js around a title, a winner line and a
    score line, and the markup of the UI module around a title and a
    score line. *)
Definition inlineAround (title winner scores : string) : string :=
  "<div class=" +:+ JS.dq +:+ "win-modal" +:+ JS.dq
    +:+ "><div class=" +:+ JS.dq +:+ "win-title" +:+ JS.dq +:+ ">" +:+ title
    +:+ "</div><div class=" +:+ JS.dq +:+ "win-text" +:+ JS.dq +:+ ">" +:+ winner
    +:+ "</div><div class=" +:+ JS.dq +:+ "win-scores" +:+ JS.dq +:+ ">" +:+ scores
    +:+ "</div></div>".

Definition uiAround (title scores : string) : string :=
  JS.nl +:+ "    <div class=" +:+ JS.dq +:+ "win-modal" +:+ JS.dq +:+ ">"
    +:+ JS.nl +:+ "      <div class=" +:+ JS.dq +:+ "win-title" +:+ JS.dq +:+ ">"
    +:+ title +:+ "</div>"
    +:+ JS.nl +:+ "      <div class=" +:+ JS.dq +:+ "win-scores" +:+ JS.dq +:+ ">"
    +:+ scores +:+ "</div>"
    +:+ JS.nl
    +:+ JS.nl +:+ "      <div class=" +:+ JS.dq +:+ "win-buttons" +:+ JS.dq +:+ ">"
    +:+ JS.nl +:+ "        <button class=" +:+ JS.dq +:+ "win-btn secondary"
    +:+ JS.dq +:+ " id=" +:+ JS.dq +:+ "closeWinModal" +:+ JS.dq
    +:+ ">Close</button>"
    +:+ JS.nl +:+ "        <button class=" +:+ JS.dq +:+ "win-btn primary"
    +:+ JS.dq +:+ " id=" +:+ JS.dq +:+ "playAgainBtn" +:+ JS.dq
    +:+ ">Play again</button>"
    +:+ JS.nl +:+ "      </div>"
    +:+ JS.nl +:+ "    </div>"
    +:+ JS.nl +:+ "  ".

(** A text in which every placeholder for [name] is replaced by [text]
    as it is, from left to right. *)
Fixpoint plainGo (fuel : nat) (name text s : string) : string :=
  match fuel with
  | O => s
  | S fuel' =>
      match JS.matchPlaceholder name s with
      | Some (_, rest) => text +:+ plainGo fuel' name text rest
      | None =>
          match s with
          | EmptyString => EmptyString
          | String a r => String a (plainGo fuel' name text r)
          end
      end
  end.

Definition plainReplace (name text s : string) : string :=
  plainGo (S (String.length s)) name text s.

(** A template filled with a title, then a winner line, then a score
    line. *)
Definition plainFill (template title winner scores : string) : string :=
  plainReplace "scoreText" scores
    (plainReplace "winnerText" winner (plainReplace "title" title template)).


(** A won game whose players carry markup in their colour. *)
Definition hostileGame : GameState :=
  mkGameState (Some "x")
    [mkPlayer 0 "<img src=x onerror='alert(1)'>" 2; mkPlayer 1 "blue" 1]
    0 [] "won".

(** A won game in which the colour of the winner is a dollar sign and a
    backtick, and a page that has fetched [template]. *)
Definition dollarGame : GameState :=
  mkGameState (Some "x") [mkPlayer 0 "$`" 2; mkPlayer 1 "blue" 1] 0 [] "won".

Definition withTemplate (template : string) : Client :=
  mkClient None None (Some EmptyString) (Some (GridCards [])) [] (Some template)
           0 [] [].


(** *** The input lock of the scene *)

(** At most the timer named by [inputLockTimer] is pending, only while
    the input is locked, and it is among the timers set. *)
Definition timersOk (g : SceneInput.Stage) : Prop :=
  (forall h, h ∈ Scene.activeTimers (SceneInput.st g) ->
             Scene.inputLockTimer (SceneInput.st g) = Some h) /\
  (Scene.inputLocked (SceneInput.st g) = false ->
     Scene.activeTimers (SceneInput.st g) = []) /\
  (forall h, h ∈ Scene.activeTimers (SceneInput.st g) ->
             exists t, (h, t) ∈ SceneInput.due g) /\
  (forall x, x ∈ SceneInput.due g -> (x.1 <= SceneInput.timerSeq g)%nat).

(** The click reaches the callback. *)
Definition accepted (hit : option (list (option nat))) (g : SceneInput.Stage)
  : option nat :=
  if SceneInput.ready g && negb (bool_decide (Scene.cards (SceneInput.st g) = []))
     && negb (Scene.inputLocked (SceneInput.st g))
     && SceneInput.onCardClickCallback g
  then hit ≫= SceneInput.cardUnder
  else None.

(** Several clicks, one after the other. *)
Definition clickAll (hits : list (option (list (option nat))))
    (g : SceneInput.Stage) : SceneInput.Stage :=
  foldl (fun g hit => SceneInput.onPointerClick hit g) g hits.

(** A scene with two cards, ready for clicks. *)
Definition demoStage : SceneInput.Stage :=
  SceneInput.mkStage
    (Scene.updateFromGameState
       (Some (mkGameState (Some "g") [] 0
                [mkCard 1 JS.Null false false; mkCard 2 JS.Null false false]
                "playing"))
       (emptyScene (Some (Scene.mkTemplate 1))))
    true true 0 0 [] [].

(** The input lock, its timer variable and the pending timers. *)
Definition lockFields (s : Scene.State) : bool * option nat * list nat :=
  (Scene.inputLocked s, Scene.inputLockTimer s, Scene.activeTimers s).

(** *** Card objects and the flags of a state *)

(** What "update states and animate flips" makes of a card object: the
    assignments for the card of the state that has its id, if any. *)
Definition syncWith (gameCards : list Card) (c : Scene.CardObj) : Scene.CardObj :=
  match Scene.find_wire (Scene.id c) gameCards with
  | Some g => Scene.syncLocal g c
  | None => c
  end.

(** The scene after "create missing cards", before the flags are set. *)
Definition created (gs : GameState) (s : Scene.State) : Scene.State :=
  foldl Scene.createMissing
    (Scene.removeOld (cards gs)
       (Scene.lockInput (Scene.set_startingPlaceholder false s)))
    (cards gs).

(** A scene in which card 1 is matched and face up, and the first state
    of a new game that uses the same ids. *)
Definition matchedScene : Scene.State :=
  Scene.updateFromGameState
    (Some (mkGameState (Some "g") [] 0
             [mkCard 1 (JS.Str "A") true true; mkCard 2 JS.Null false false]
             "playing"))
    (emptyScene (Some (Scene.mkTemplate 1))).

Definition nextGame : GameState :=
  mkGameState (Some "h") [] 0
    [mkCard 1 JS.Null false false; mkCard 2 JS.Null false false] "playing".

(** *** Calls of updateFromGameState, alone or overlapping *)

(** The event starts a call of [updateFromGameState] that gets past its
    guard. *)
Definition arrives (e : SceneAsync.Event) : bool :=
  match e with
  | SceneAsync.Arrive (Some _) => true
  | _ => false
  end.

(** A call for [gs] starts while no call waits, and [es] happens next. *)
Definition callThen (gs : GameState) (es : list SceneAsync.Event)
    (g : SceneInput.Stage) : SceneAsync.World :=
  SceneAsync.run (SceneAsync.Arrive (Some gs) :: es) (SceneAsync.mkWorld g []).

(** The scene of a world. *)
Definition sceneOf (w : SceneAsync.World) : Scene.State :=
  SceneInput.st (SceneAsync.stage w).

(** Two scenes hold the same card objects, scene graph and model. *)
Definition sameCards (a b : Scene.State) : Prop :=
  Scene.cards a = Scene.cards b /\ Scene.scene a = Scene.scene b /\
  Scene.fbxTemplate a = Scene.fbxTemplate b /\
  Scene.nextHandle a = Scene.nextHandle b.

(** The scene a waiting call leaves when it goes on to its end with
    nothing in between. *)
Definition finish (c : SceneAsync.Call) (s : Scene.State) : Scene.State :=
  match c with
  | SceneAsync.AwaitTextures gs =>
      Scene.releaseInput
        (foldl Scene.syncState (SceneAsync.prepare gs s) (cards gs))
  | SceneAsync.AwaitFlip rest local g =>
      Scene.releaseInput
        (foldl Scene.syncState
           (Scene.set_cards
              (SceneAsync.update_object local (SceneAsync.faceLocal g)
                 (Scene.cards s)) s)
           rest)
  end.

(** The awaits a waiting call has before it at most. *)
Definition awaits (c : SceneAsync.Call) : nat :=
  match c with
  | SceneAsync.AwaitTextures gs => S (length (cards gs))
  | SceneAsync.AwaitFlip rest _ _ => S (length rest)
  end.

(** A stage before the first state, ready for clicks. *)
Definition readyStage (template : option Scene.Template) : SceneInput.Stage :=
  SceneInput.mkStage (emptyScene template) true true 0 0 [] [].

(** States of one board (cards 1 and 2) and the first state of another
    board (cards 7 and 8). *)
Definition bothDown : GameState :=
  mkGameState (Some "g") [] 0
    [mkCard 1 JS.Null false false; mkCard 2 JS.Null false false] "playing".

Definition oneUp : GameState :=
  mkGameState (Some "g") [] 0
    [mkCard 1 (JS.Str "A") true false; mkCard 2 JS.Null false false] "playing".

Definition twoUp : GameState :=
  mkGameState (Some "g") [] 1
    [mkCard 1 JS.Null false false; mkCard 2 (JS.Str "B") true false] "playing".

Definition newBoard : GameState :=
  mkGameState (Some "h") [] 0
    [mkCard 7 JS.Null false false; mkCard 8 JS.Null false false] "playing".

(** A handle names one card object; an assignment keeps the id and the
    model of a card object. *)
Definition handlesOk (l : list Scene.CardObj) : Prop :=
  forall c1 c2, c1 ∈ l -> c2 ∈ l ->
    Scene.handle (Scene.mesh c1) = Scene.handle (Scene.mesh c2) ->
    Scene.id c1 = Scene.id c2.

Definition keepsCard (f : Scene.CardObj -> Scene.CardObj) : Prop :=
  forall c, Scene.id (f c) = Scene.id c /\ Scene.mesh (f c) = Scene.mesh c.

(** At most one call waits, and it will leave the cards of [target]. *)
Definition aloneInv (target : Scene.State) (w : SceneAsync.World) : Prop :=
  sceneOk (sceneOf w) /\
  match SceneAsync.calls w with
  | [] => sameCards (sceneOf w) target
  | [c] => sameCards (finish c (sceneOf w)) target
  | _ => False
  end.

(** *** Textures *)

(** The place of a letter in the alphabet, from 1, and a number below
    100 written with two digits. *)
Definition position (c : ascii) : nat := (nat_of_ascii (JS.lowerChar c) - 96)%nat.

Definition twoDigits (n : nat) : string :=
  String (ascii_of_nat (48 + n / 10)) (String (ascii_of_nat (48 + n mod 10)) EmptyString).

(** The cards of a state for which a call has to ask the loader. *)
Definition needsLoad (cache : Textures.TextureMap) (c : Card) : bool :=
  JS.truthy (value c) && bool_decide (Textures.Map_get (value c) cache = None).

(** What can happen to the textures: a call, and the two callbacks of a
    load. *)
Inductive TextureEvent :=
| Asked (v : JS.value)
| LoadDone (v : JS.value) (t : Textures.Texture)
| LoadFailed (v : JS.value).

Definition textureStep (parsed : string -> option string)
    (s : Textures.State) (e : TextureEvent) : Textures.State :=
  match e with
  | Asked v => (Textures.ensureFrontTexture parsed v s).2
  | LoadDone v t => (Textures.onLoad v t s).2
  | LoadFailed _ => (Textures.onLoadError s).2
  end.

(** The promise a call for the value of a card returns when the cache is
    [cache]. *)
Definition promiseFor (parsed : string -> option string)
    (cache : Textures.TextureMap) (c : Card) : Textures.Promise :=
  (Textures.ensureFrontTexture parsed (value c) (Textures.mkState cache [])).1.

(** *** Colours *)

(** A channel of a colour in two hex digits, and the three channels of
    the integer of a colour. *)
Definition hex2 (c : Z) : string :=
  String (Board.hexDigit (c / 16)) (String (Board.hexDigit (c mod 16)) EmptyString).

Definition redOf (f : Z) : Z := f / 65536.
Definition greenOf (f : Z) : Z := (f / 256) mod 256.
Definition blueOf (f : Z) : Z := f mod 256.

(** [k] is 45% of [c], to the nearest integer. *)
Definition darkened (c k : Z) : Prop :=
  0 <= k <= c /\ Z.abs (20 * k - 9 * c) <= 10.

(** *** Card models *)

(** The places named by a search are places of [allMeshes], and no
    place has both roles. *)
Definition rolesOk (st : CardModel.Found) : Prop :=
  (forall i, CardModel.frontMesh st = Some i ->
             (i < length (CardModel.allMeshes st))%nat) /\
  (forall i, CardModel.backMesh st = Some i ->
             (i < length (CardModel.allMeshes st))%nat) /\
  (forall i, CardModel.frontMesh st = Some i -> CardModel.backMesh st <> Some i).

(** *** Ranges of integers *)

(** [f] holds for the [n] integers from [z] on. *)
Fixpoint allFrom (n : nat) (z : Z) (f : Z -> bool) : bool :=
  match n with
  | O => true
  | S k => f z && allFrom k (z + 1) f
  end.

End Props.

(* ================================================================== *)
(** * Properties                                                       *)
(* ================================================================== *)

Import Props.

(** ** escapeHTML *)

Lemma chars_app (a b : string) : chars (a +:+ b) = (chars a ++ chars b)%list.
Proof. induction a as [|c a IH]; simpl; [done|]. unfold chars in *. simpl. by rewrite IH. Qed.

Lemma replacer_entityOf (c : ascii) :
  c ∈ ["&"; "<"; ">"; JS.dquote; "'"]%char -> Scripts.replacer c = entityOf c.
Proof.
  rewrite !elem_of_cons, elem_of_nil.
  intros [->|[->|[->|[->|[->|[]]]]]]; reflexivity.
Qed.

Lemma entityOf_other (c : ascii) :
  c ∉ ["&"; "<"; ">"; JS.dquote; "'"]%char -> entityOf c = String c EmptyString.
Proof.
  rewrite !elem_of_cons, elem_of_nil. intros Hn. unfold entityOf.
  repeat case_bool_decide; try reflexivity; exfalso; apply Hn; tauto.
Qed.

Lemma escapeHTML_escapeEach (s : string) : Scripts.escapeHTML s = escapeEach s.
Proof.
  unfold Scripts.escapeHTML.
  induction s as [|c s IH]; simpl; [done|].
  case_bool_decide as Hc.
  - by rewrite replacer_entityOf, IH.
  - by rewrite entityOf_other, IH.
Qed.

Lemma entityOf_no_raw (c x : ascii) : x ∈ chars (entityOf c) -> x ∉ rawMarkup.
Proof.
  unfold entityOf, rawMarkup.
  repeat case_bool_decide; subst; unfold chars; simpl;
    rewrite ?elem_of_cons, ?elem_of_nil; intros Hx Hr;
    repeat match goal with
           | H : _ \/ _ |- _ => destruct H
           | H : False |- _ => destruct H
           end; subst; try discriminate; try congruence.
Qed.

(** C8. For every input string, escapeHTML replaces each of the characters
    ampersand, less-than, greater-than, double quote and apostrophe by its
    HTML entity and copies every other character, so the result holds no
    raw less-than, greater-than, double quote or apostrophe; the UI module
    carries the same function. *)
Theorem escapeHTML_entities (str : string) :
  Scripts.escapeHTML str = escapeEach str /\
  UI.escapeHTML str = Scripts.escapeHTML str /\
  (forall c, c ∈ chars (Scripts.escapeHTML str) -> c ∉ rawMarkup).
Proof.
  split; [apply escapeHTML_escapeEach|]. split; [reflexivity|].
  rewrite escapeHTML_escapeEach.
  induction str as [|c s IH]; simpl.
  - unfold chars. simpl. intros c Hc. by apply elem_of_nil in Hc.
  - intros x. rewrite chars_app, elem_of_app. intros [Hx|Hx].
    + by eapply entityOf_no_raw.
    + by apply IH.
Qed.

(** ** getWinners *)

Lemma Math_max_spec (xs : list Z) :
  xs <> [] ->
  exists m, JS.Math_max xs = JS.Fin m /\ m ∈ xs /\ forall x, x ∈ xs -> x <= m.
Proof.
  induction xs as [|x xs IH]; [done|]. intros _.
  destruct xs as [|y ys].
  - exists x. simpl. split; [done|]. split; [apply list_elem_of_here|].
    intros z Hz. apply list_elem_of_singleton in Hz. lia.
  - destruct IH as (m & Hm & Hin & Hle); [done|].
    exists (Z.max x m). cbn [JS.Math_max foldr] in *. rewrite Hm. simpl.
    split; [done|]. split.
    + destruct (Z.max_spec x m) as [[_ ->]|[_ ->]];
        [by apply list_elem_of_further | apply list_elem_of_here].
    + intros z Hz. apply elem_of_cons in Hz as [->|Hz]; [lia|].
      specialize (Hle z Hz). lia.
Qed.

(** C2. For a game state with at least one player, getWinners returns the
    maximum score over all players and, in the order of the players list,
    exactly the players that have this score: every player that ties for
    the maximum is a winner, and at least one player is. *)
Theorem getWinners_argmax (gameState : Wire.GameState) :
  Wire.players gameState <> [] ->
  exists m,
    (Scripts.getWinners gameState).2 = JS.Fin m /\
    (forall p, p ∈ Wire.players gameState -> Wire.score p <= m) /\
    (exists p, p ∈ Wire.players gameState /\ Wire.score p = m) /\
    (Scripts.getWinners gameState).1
      = filter (fun p => Wire.score p = m) (Wire.players gameState) /\
    (forall p, p ∈ (Scripts.getWinners gameState).1 <->
               p ∈ Wire.players gameState /\ Wire.score p = m) /\
    (Scripts.getWinners gameState).1 <> [] /\
    UI.getWinners gameState = Scripts.getWinners gameState.
Proof.
  intros Hne.
  destruct (Math_max_spec (Wire.score <$> Wire.players gameState))
    as (m & Hm & Hin & Hle).
  { by destruct (Wire.players gameState). }
  exists m. unfold Scripts.getWinners, UI.getWinners. simpl. rewrite Hm.
  assert (Hf : filter (fun p => JS.Fin (Wire.score p) = JS.Fin m)
                      (Wire.players gameState)
               = filter (fun p => Wire.score p = m) (Wire.players gameState)).
  { apply list_filter_iff. intros p. split; [by intros [= ->] | by intros ->]. }
  rewrite Hf.
  apply list_elem_of_fmap in Hin as (pm & Hpm & Hpin).
  assert (Hw : pm ∈ filter (fun p => Wire.score p = m) (Wire.players gameState))
    by (by apply list_elem_of_filter).
  split; [done|]. split.
  { intros p Hp. apply Hle. apply list_elem_of_fmap. eauto. }
  split; [by exists pm|]. split; [done|]. split.
  { intros p. rewrite list_elem_of_filter. tauto. }
  split; [|done].
  intros Hnil. rewrite Hnil in Hw. by apply elem_of_nil in Hw.
Qed.

Lemma getWinners_argmax_witness :
  exists m,
    (Scripts.getWinners
       (Wire.mkGameState (Some "g1")
          [Wire.mkPlayer 0 "red" 3; Wire.mkPlayer 1 "blue" 5;
           Wire.mkPlayer 2 "green" 5] 0 [] "won")).2 = JS.Fin m /\ m = 5.
Proof.
  destruct (getWinners_argmax
    (Wire.mkGameState (Some "g1")
          [Wire.mkPlayer 0 "red" 3; Wire.mkPlayer 1 "blue" 5;
           Wire.mkPlayer 2 "green" 5] 0 [] "won")) as (m & Hm & _).
  - discriminate.
  - exists m. split; [exact Hm|]. vm_compute in Hm. congruence.
Defined.

(** ** The click listener of a card *)

(** C5. The click listener calls [gameClient.flipCard] with the id of its
    card exactly when the card is not matched, a game state is held and
    its status is "playing"; for every other click nothing is sent and
    the client is unchanged. *)
Theorem click_guard (card : Wire.Card) (s : Page.Client) :
  (mayFlip card s /\
   Page.calls (Scripts.click (Scripts.renderCard card) s)
     = (Page.calls s ++ [Page.FlipCardCall (Wire.id card)])%list)
  \/
  (~ mayFlip card s /\ Scripts.click (Scripts.renderCard card) s = s).
Proof.
  unfold Scripts.click, Scripts.renderCard, Scripts.cardClick, mayFlip.
  destruct (Wire.isFaceUp card && JS.truthy (Wire.value card)); simpl;
  destruct (Page.currentGameState s) as [cur|] eqn:Hcur;
  destruct (Wire.isMatched card) eqn:Hm; simpl;
  try (right; split; [intros (? & ? & ? & ?); congruence | reflexivity]);
  case_bool_decide as Hst;
  try (left; split; [split; [done | by exists cur] | reflexivity]);
  right; (split; [intros (? & ? & ? & ?); congruence | reflexivity]).
Qed.

(** ** renderCards and the redacted payload *)

Lemma renderCard_shown (c1 c2 : Wire.Card) :
  sameVisibleCard c1 c2 ->
  Page.shown (Scripts.renderCard c1) = Page.shown (Scripts.renderCard c2).
Proof.
  intros (_ & Hup & Hm & Hv). unfold Scripts.renderCard, Page.shown.
  rewrite <- Hup, <- Hm.
  destruct (Wire.isFaceUp c1); simpl; [rewrite (Hv eq_refl)|done].
  by destruct (JS.truthy (Wire.value c2)).
Qed.

Lemma renderCard_click (c1 c2 : Wire.Card) (st : Page.Client) :
  sameVisibleCard c1 c2 ->
  Scripts.click (Scripts.renderCard c1) st = Scripts.click (Scripts.renderCard c2) st.
Proof.
  intros (Hid & _ & Hm & _).
  assert (H1 : forall c, Page.listenerCard (Scripts.renderCard c) = c).
  { intros c. unfold Scripts.renderCard.
    by destruct (Wire.isFaceUp c && JS.truthy (Wire.value c)). }
  unfold Scripts.click, Scripts.cardClick. rewrite !H1.
  by rewrite Hid, Hm.
Qed.

Lemma renderCard_rule (card : Wire.Card) :
  (Wire.isFaceUp card = true /\ JS.truthy (Wire.value card) = true /\
   displaysValue card (Scripts.renderCard card))
  \/
  ((Wire.isFaceUp card = false \/ JS.truthy (Wire.value card) = false) /\
   Page.textContent (Scripts.renderCard card) = "?" /\
   "faceup" ∉ Page.classList (Scripts.renderCard card)).
Proof.
  unfold Scripts.renderCard, displaysValue.
  destruct (Wire.isFaceUp card) eqn:Hup, (JS.truthy (Wire.value card)) eqn:Ht;
    destruct (Wire.isMatched card); simpl;
    try (left; split; [done|]; split; [done|]; split; [|done];
         rewrite ?elem_of_cons; tauto);
    right; (split; [tauto|]; split; [done|]);
    rewrite ?elem_of_cons, ?elem_of_nil; intros H;
    repeat (destruct H as [H|H]); try discriminate; done.
Qed.

(** Two games that differ in hidden values only have the same snapshot. *)
Lemma redactedView_sameButHidden (requester : nat) (g1 g2 : Server.Game) :
  sameButHidden g1 g2 ->
  Server.redactedView requester g1 = Server.redactedView requester g2.
Proof.
  intros (Hid & Hp & Ha & Hs & Hc). unfold Server.redactedView.
  rewrite Hid, Hp, Ha, Hs. f_equal.
  induction Hc as [|c1 c2 l1 l2 (Hi & Hup & Hm & Hv) _ IH]; [done|].
  cbn [fmap list_fmap]. f_equal; [|exact IH].
  unfold Server.redactCard. rewrite <- Hi, <- Hup, <- Hm.
  destruct (Server.isFaceUp c1); [by rewrite (Hv eq_refl)|done].
Qed.

(** C1. In every GAME_STATE snapshot a card carries a value exactly when
    it is face up.  The board renderer puts the value of a card on its
    element only when the card is face up and the value is neither null
    nor otherwise falsy, and a question mark in every other case.  Hence
    two payloads that differ only in the values of face-down cards give
    the same grid, and the same behaviour of every click listener. *)
Theorem face_down_values_stay_hidden
    (requester : nat) (g : Server.Game) (gs1 gs2 : Wire.GameState)
    (s : Page.Client) :
  sameVisible gs1 gs2 ->
  (forall c, c ∈ Wire.cards (Server.redactedView requester g) ->
     (Wire.value c <> JS.Null <-> Wire.isFaceUp c = true)) /\
  (forall card,
     (displaysValue card (Scripts.renderCard card) /\
      Wire.isFaceUp card = true /\ Wire.value card <> JS.Null)
     \/
     (Page.textContent (Scripts.renderCard card) = "?" /\
      "faceup" ∉ Page.classList (Scripts.renderCard card))) /\
  (forall card, Wire.isFaceUp card = false \/ Wire.value card = JS.Null ->
     Page.textContent (Scripts.renderCard card) = "?") /\
  gridView (Scripts.renderCards gs1 s) = gridView (Scripts.renderCards gs2 s) /\
  Forall2 (fun e1 e2 => forall st, Scripts.click e1 st = Scripts.click e2 st)
          (gridCards (Scripts.renderCards gs1 s))
          (gridCards (Scripts.renderCards gs2 s)).
Proof.
  intros (_ & _ & _ & _ & Hcards).
  split.
  { intros c Hc. unfold Server.redactedView in Hc. simpl in Hc.
    apply list_elem_of_fmap in Hc as (sc & -> & _).
    unfold Server.redactCard. simpl.
    destruct (Server.isFaceUp sc); split; intros H; congruence. }
  split.
  { intros card. destruct (renderCard_rule card) as [(Hup & Ht & Hd)|(_ & Hq & Hn)].
    - left. split; [done|]. split; [done|]. intros Hv. by rewrite Hv in Ht.
    - by right. }
  split.
  { intros card Hc. destruct (renderCard_rule card) as [(Hup & Ht & _)|(_ & Hq & _)];
      [|done].
    destruct Hc as [Hc|Hc]; [congruence|]. by rewrite Hc in Ht. }
  unfold Scripts.renderCards, gridView, gridCards.
  destruct (Page.cardGrid s) as [grid|] eqn:Hgrid; simpl.
  - split.
    + do 2 f_equal.
      induction Hcards as [|c1 c2 l1 l2 Hc _ IH]; [done|].
      cbn [fmap list_fmap]. f_equal; [by apply renderCard_shown | exact IH].
    + induction Hcards as [|c1 c2 l1 l2 Hc _ IH]; [constructor|].
      cbn [fmap list_fmap]. constructor; [|exact IH].
      intros st. by apply renderCard_click.
  - rewrite Hgrid. split; [done|constructor].
Qed.

Lemma face_down_values_stay_hidden_witness :
  gridView (Scripts.renderCards
              (Wire.mkGameState (Some "g") [] 0
                 [Wire.mkCard 1 (JS.Str "A") true false;
                  Wire.mkCard 2 (JS.Str "B") false false] "playing")
              Page.fresh)
  = gridView (Scripts.renderCards
              (Wire.mkGameState (Some "g") [] 0
                 [Wire.mkCard 1 (JS.Str "A") true false;
                  Wire.mkCard 2 (JS.Str "C") false false] "playing")
              Page.fresh).
Proof.
  refine (proj1 (proj2 (proj2 (proj2
    (face_down_values_stay_hidden 0
       (Server.mkGame "g" [] [] 0 [] Server.waiting false 2 2 ∅)
       _ _ Page.fresh _))))).
  unfold sameVisible; simpl. repeat split.
  repeat constructor; simpl; discriminate.
Defined.

(** ** The error handler *)

Lemma filter_none {A} (P : A -> Prop) `{forall x, Decision (P x)} (l : list A) :
  (forall x, x ∈ l -> ~ P x) -> filter P l = [].
Proof.
  induction l as [|x l IH]; intros Hl; [done|].
  rewrite filter_cons_False by (apply Hl, list_elem_of_here).
  apply IH. intros y Hy. by apply Hl, list_elem_of_further.
Qed.

Lemma fire_keeps (cb : Page.TimerAction) (s : Page.Client) :
  Page.currentGameState (Page.fire cb s) = Page.currentGameState s /\
  Page.cardGrid (Page.fire cb s) = Page.cardGrid s.
Proof. destruct cb. simpl. by destruct (Page.errorBox s). Qed.

Lemma run_due_keeps (l : list (Z * Page.TimerAction)) (s : Page.Client) :
  Page.currentGameState (foldl (fun st x => Page.fire x.2 st) s l)
    = Page.currentGameState s /\
  Page.cardGrid (foldl (fun st x => Page.fire x.2 st) s l) = Page.cardGrid s.
Proof.
  revert s. induction l as [|x l IH]; intros s; simpl; [done|].
  destruct (IH (Page.fire x.2 s)) as [-> ->]. apply fire_keeps.
Qed.

Lemma elapse_keeps (ms : Z) (s : Page.Client) :
  Page.currentGameState (Page.elapse ms s) = Page.currentGameState s /\
  Page.cardGrid (Page.elapse ms s) = Page.cardGrid s.
Proof. unfold Page.elapse. by destruct (run_due_keeps
  (merge_sort Page.dueBefore (filter (fun x => x.1 <= Page.clock s + ms) (Page.timers s)))
  (Page.set_clock (Page.clock s + ms)
     (Page.set_timers (filter (fun x => ~ x.1 <= Page.clock s + ms) (Page.timers s)) s)))
  as [-> ->]. Qed.

Lemma run_due_cleared (l : list (Z * Page.TimerAction)) (s : Page.Client) :
  Page.errorBox s = Some EmptyString ->
  Page.errorBox (foldl (fun st x => Page.fire x.2 st) s l) = Some EmptyString.
Proof.
  revert s. induction l as [|[t []] l IH]; intros s Hs; simpl; [done|].
  apply IH. by rewrite Hs.
Qed.

Lemma run_due_clears (l : list (Z * Page.TimerAction)) (s : Page.Client) :
  is_Some (Page.errorBox s) -> l <> [] ->
  Page.errorBox (foldl (fun st x => Page.fire x.2 st) s l) = Some EmptyString.
Proof.
  intros [b Hb] Hl. destruct l as [|[t []] l]; [done|]. simpl.
  apply run_due_cleared. by rewrite Hb.
Qed.

(** C6, as amended.  The error handler puts the message, inside a [div]
    of class error, into the error box and sets a timer for 3000 ms
    whose callback empties the box: the box is empty once 3000 ms have
    passed,
    and until then it shows the message when no timer set before it
    fires in between.  Neither the handler nor any timer touches the
    stored game state or the card grid.  Without an error box the
    handler does nothing; [showError] of the UI module is the same
    function. *)
Theorem error_display_is_transient (errorMessage : string) (s : Page.Client) :
  Page.currentGameState (Scripts.onError errorMessage s)
    = Page.currentGameState s /\
  Page.cardGrid (Scripts.onError errorMessage s) = Page.cardGrid s /\
  gridView (Scripts.onError errorMessage s) = gridView s /\
  (forall ms,
     Page.currentGameState (Page.elapse ms (Scripts.onError errorMessage s))
       = Page.currentGameState s /\
     Page.cardGrid (Page.elapse ms (Scripts.onError errorMessage s))
       = Page.cardGrid s) /\
  (is_Some (Page.errorBox s) ->
     Page.errorBox (Scripts.onError errorMessage s)
       = Some (errorDiv errorMessage) /\
     Page.timers (Scripts.onError errorMessage s)
       = (Page.timers s ++ [(Page.clock s + 3000, Page.ClearErrorBox)])%list /\
     (forall ms, 3000 <= ms ->
        Page.errorBox (Page.elapse ms (Scripts.onError errorMessage s))
          = Some EmptyString) /\
     (forall ms, ms < 3000 ->
        (forall t, t ∈ Page.timers s -> Page.clock s + ms < t.1) ->
        Page.errorBox (Page.elapse ms (Scripts.onError errorMessage s))
          = Some (errorDiv errorMessage))) /\
  (Page.errorBox s = None -> Scripts.onError errorMessage s = s) /\
  UI.showError errorMessage s = Scripts.onError errorMessage s.
Proof.
  assert (Hk : Page.currentGameState (Scripts.onError errorMessage s)
                 = Page.currentGameState s /\
               Page.cardGrid (Scripts.onError errorMessage s) = Page.cardGrid s).
  { unfold Scripts.onError. by destruct (Page.errorBox s). }
  destruct Hk as [Hg Hc].
  split; [done|]. split; [done|].
  split; [unfold gridView; by rewrite Hc|].
  split.
  { intros ms. destruct (elapse_keeps ms (Scripts.onError errorMessage s))
      as [-> ->]. done. }
  split; [|split].
  - intros [b Hb]. unfold Scripts.onError. rewrite Hb.
    split; [done|]. split; [done|]. split.
    + intros ms Hms. unfold Page.elapse. apply run_due_clears; [by eexists|].
      intros Hnil.
      assert (Hp := merge_sort_Permutation Page.dueBefore
        (filter (fun x => x.1 <= Page.clock
             (Page.setTimeout Page.ClearErrorBox 3000
                (Page.set_errorBox (Some (Scripts.errorMarkup errorMessage)) s)) + ms)
          (Page.timers (Page.setTimeout Page.ClearErrorBox 3000
                (Page.set_errorBox (Some (Scripts.errorMarkup errorMessage)) s))))).
      rewrite Hnil in Hp. symmetry in Hp. apply Permutation_nil_r in Hp.
      assert (Hin : (Page.clock s + 3000, Page.ClearErrorBox) ∈
        filter (fun x => x.1 <= Page.clock
             (Page.setTimeout Page.ClearErrorBox 3000
                (Page.set_errorBox (Some (Scripts.errorMarkup errorMessage)) s)) + ms)
          (Page.timers (Page.setTimeout Page.ClearErrorBox 3000
                (Page.set_errorBox (Some (Scripts.errorMarkup errorMessage)) s)))).
      { apply list_elem_of_filter. simpl. split; [lia|].
        apply elem_of_app. right. apply list_elem_of_here. }
      rewrite Hp in Hin. by apply elem_of_nil in Hin.
    + intros ms Hms Hlater. unfold Page.elapse.
      assert (Hd : filter (fun x => x.1 <= Page.clock
             (Page.setTimeout Page.ClearErrorBox 3000
                (Page.set_errorBox (Some (Scripts.errorMarkup errorMessage)) s)) + ms)
          (Page.timers (Page.setTimeout Page.ClearErrorBox 3000
                (Page.set_errorBox (Some (Scripts.errorMarkup errorMessage)) s)))
          = []).
      { apply filter_none. simpl. intros t Ht.
        apply elem_of_app in Ht as [Ht|Ht].
        - specialize (Hlater t Ht). lia.
        - apply list_elem_of_singleton in Ht. subst t. simpl. lia. }
      rewrite Hd. reflexivity.
  - intros Hn. unfold Scripts.onError. by rewrite Hn.
  - unfold UI.showError, Scripts.onError. by destruct (Page.errorBox s).
Qed.

(** An error that arrives 2500 ms after another one is shown for 500 ms
    only: the timer of the first error empties the box, so a message is
    not always shown for 3000 ms. *)
Lemma error_gone_before_three_seconds :
  Page.errorBox
    (Scripts.onError "Card is locked"
       (Page.elapse 2500 (Scripts.onError "Not your turn" Page.fresh)))
  = Some (errorDiv "Card is locked") /\
  Page.errorBox
    (Page.elapse 500
       (Scripts.onError "Card is locked"
          (Page.elapse 2500 (Scripts.onError "Not your turn" Page.fresh))))
  = Some EmptyString /\
  ~ (forall errorMessage s ms,
       is_Some (Page.errorBox s) -> 0 <= ms < 3000 ->
       Page.errorBox (Page.elapse ms (Scripts.onError errorMessage s))
       = Some (errorDiv errorMessage)).
Proof.
  split; [vm_compute; reflexivity|]. split; [vm_compute; reflexivity|].
  intros H.
  specialize (H "Card is locked"
                (Page.elapse 2500 (Scripts.onError "Not your turn" Page.fresh))
                500 ltac:(by eexists) ltac:(lia)).
  vm_compute in H. discriminate H.
Qed.

(** ** Confetti *)


Lemma querySelector_appended (cls : string) (scr b : Dom.Elem) :
  cls ∈ className_of scr ->
  is_Some (Dom.querySelector cls (Dom.appendChild scr b)).
Proof.
  intros Hcls. destruct b as [t c st kids]. simpl.
  case_bool_decide; [by eexists|].
  induction kids as [|x kids IH]; simpl.
  - destruct scr as [t' c' st' kids']. simpl in *.
    rewrite bool_decide_eq_true_2 by done. by eexists.
  - destruct (Dom.querySelector cls x); [by eexists|]. exact IH.
Qed.

Lemma allFrom_spec (n : nat) (z : Z) (f : Z -> bool) :
  allFrom n z f = true -> forall x, z <= x < z + Z.of_nat n -> f x = true.
Proof.
  revert z. induction n as [|n IH]; intros z H x Hx; [lia|].
  simpl in H. apply andb_prop in H as [Hz Hrest].
  destruct (decide (x = z)) as [->|Hne]; [done|].
  apply (IH (z + 1) Hrest). lia.
Qed.



Lemma launched_running (a b : Z) (w w' : Dom.World) :
  launched a b w w' -> running w'.
Proof.
  intros (screen & k1 & k2 & Hbody & Hcls & _). unfold running. rewrite Hbody.
  apply querySelector_appended. rewrite Hcls. apply list_elem_of_here.
Qed.






(** ** The win popup *)

Section PopupOnce.
Variable show : Wire.GameState -> Page.Client -> Page.Client.
Hypothesis show_same : forall gs s,
  Page.hasShownWinPopupForGameId s = Wire.gameId gs -> show gs s = s.
Hypothesis show_mark : forall gs s,
  Page.hasShownWinPopupForGameId (show gs s) = Wire.gameId gs.
Hypothesis show_one : forall gs s,
  (length (Page.body (show gs s)) <= S (length (Page.body s)))%nat.

Lemma overlaysFor_absent gid calls s :
  gid ∉ Wire.gameId <$> calls -> overlaysFor show gid calls s = O.
Proof.
  revert s. induction calls as [|gs rest IH]; intros s Hn; simpl; [done|].
  cbn [fmap list_fmap] in Hn. apply not_elem_of_cons in Hn as [Hne Hn].
  rewrite bool_decide_eq_false_2 by done. simpl. by apply IH.
Qed.

Lemma overlaysFor_shown gid calls s :
  grouped (Wire.gameId <$> calls) = true ->
  Page.hasShownWinPopupForGameId s = gid ->
  head (Wire.gameId <$> calls) = Some gid \/ gid ∉ Wire.gameId <$> calls ->
  overlaysFor show gid calls s = O.
Proof.
  revert s. induction calls as [|gs rest IH]; intros s Hg Hs Hc; [done|].
  destruct Hc as [Hh|Hn]; [|by apply overlaysFor_absent].
  cbn [fmap list_fmap head] in Hh. injection Hh as Hh.
  cbn [fmap list_fmap grouped] in Hg.
  apply andb_true_iff in Hg as [Hg1 Hg2].
  simpl. rewrite show_same by congruence.
  rewrite Nat.sub_diag. rewrite bool_decide_eq_true_2 by done. simpl.
  apply IH; [done|done|].
  apply orb_true_iff in Hg1 as [H1|H1].
  - left. apply bool_decide_eq_true_1 in H1. congruence.
  - right. apply bool_decide_eq_true_1 in H1. congruence.
Qed.

Lemma overlaysFor_grouped gid calls s :
  grouped (Wire.gameId <$> calls) = true ->
  (overlaysFor show gid calls s <= 1)%nat.
Proof.
  revert s. induction calls as [|gs rest IH]; intros s Hg; simpl; [lia|].
  cbn [fmap list_fmap grouped] in Hg.
  apply andb_true_iff in Hg as [Hg1 Hg2].
  destruct (decide (Wire.gameId gs = gid)) as [Hid|Hid].
  - rewrite bool_decide_eq_true_2 by done.
    rewrite (overlaysFor_shown gid rest (show gs s)); [| done | | ].
    + pose proof (show_one gs s). lia.
    + rewrite show_mark. done.
    + apply orb_true_iff in Hg1 as [H1|H1];
        apply bool_decide_eq_true_1 in H1; [left|right]; congruence.
  - rewrite bool_decide_eq_false_2 by done. simpl. by apply IH.
Qed.
End PopupOnce.

Lemma showScripts_same gs s :
  Page.hasShownWinPopupForGameId s = Wire.gameId gs ->
  Scripts.showWinPopup gs s = (JS.Returned, s).
Proof.
  intros H. unfold Scripts.showWinPopup. by rewrite bool_decide_eq_true_2.
Qed.

Lemma showScripts_mark gs s :
  Page.hasShownWinPopupForGameId (showScripts gs s) = Wire.gameId gs.
Proof.
  unfold showScripts, Scripts.showWinPopup. case_bool_decide as H; [done|].
  simpl. by destruct (Scripts.winTexts gs) as [[[? ?] ?]|].
Qed.

Lemma showScripts_one gs s :
  (length (Page.body (showScripts gs s)) <= S (length (Page.body s)))%nat.
Proof.
  unfold showScripts, Scripts.showWinPopup. case_bool_decide as H; [simpl; lia|].
  destruct (Scripts.winTexts gs) as [[[? ?] ?]|]; simpl; [|lia].
  rewrite length_app. simpl. lia.
Qed.

Lemma showUI_same nativeObject b gs s :
  Page.hasShownWinPopupForGameId s = Wire.gameId gs ->
  UI.showWinPopup nativeObject gs b s = s.
Proof.
  intros H. unfold UI.showWinPopup. by rewrite bool_decide_eq_true_2.
Qed.

Lemma showUI_mark nativeObject b gs s :
  Page.hasShownWinPopupForGameId (showUI nativeObject b gs s) = Wire.gameId gs.
Proof.
  unfold showUI, UI.showWinPopup. case_bool_decide as H; [done|].
  by destruct b.
Qed.

Lemma showUI_one nativeObject b gs s :
  (length (Page.body (showUI nativeObject b gs s)) <= S (length (Page.body s)))%nat.
Proof.
  unfold showUI, UI.showWinPopup. case_bool_decide as H; [lia|].
  destruct b; simpl; rewrite length_app; simpl; lia.
Qed.

(** C9, as amended.  A call of showWinPopup whose game id is the one of
    the popup shown last returns without an overlay and leaves the page
    as it is.  Hence, in every sequence of calls in which the calls for
    one game id follow one another, at most one overlay is made for each
    game id; this holds for the popup of scripts.js and for the one of
    the UI module. *)
Theorem win_popup_once_per_game
    (nativeObject : string) (calls : list Wire.GameState)
    (gid : option string) (b : bool) (s : Page.Client) :
  grouped (Wire.gameId <$> calls) = true ->
  (overlaysFor showScripts gid calls s <= 1)%nat /\
  (overlaysFor (showUI nativeObject b) gid calls s <= 1)%nat /\
  (forall gs, Page.hasShownWinPopupForGameId s = Wire.gameId gs ->
     Scripts.showWinPopup gs s = (JS.Returned, s) /\
     UI.showWinPopup nativeObject gs b s = s) /\
  (forall gs,
     Scripts.showWinPopup gs (showScripts gs s) = (JS.Returned, showScripts gs s) /\
     UI.showWinPopup nativeObject gs b (showUI nativeObject b gs s) = showUI nativeObject b gs s).
Proof.
  intros Hg. split; [|split; [|split]].
  - apply overlaysFor_grouped; auto using showScripts_mark, showScripts_one.
    intros gs s0 H. unfold showScripts. by rewrite showScripts_same.
  - apply overlaysFor_grouped; auto using showUI_mark, showUI_one.
    intros gs s0 H. by apply showUI_same.
  - intros gs H. split; [by apply showScripts_same | by apply showUI_same].
  - intros gs. split.
    + apply showScripts_same, showScripts_mark.
    + apply showUI_same, showUI_mark.
Qed.

Lemma win_popup_once_per_game_witness :
  (overlaysFor showScripts (Some "A")
     [wonGame "A"; wonGame "A"; wonGame "B"] Page.fresh <= 1)%nat.
Proof.
  exact (proj1 (win_popup_once_per_game v8Object
                  [wonGame "A"; wonGame "A"; wonGame "B"] (Some "A") true
                  Page.fresh eq_refl)).
Defined.

(** The same game id after another one: a second overlay for it. *)
Lemma win_popup_twice_for_one_game :
  overlaysFor showScripts (Some "A")
    [wonGame "A"; wonGame "B"; wonGame "A"] Page.fresh = 2%nat /\
  overlaysFor (showUI v8Object true) (Some "A")
    [wonGame "A"; wonGame "B"; wonGame "A"] Page.fresh = 2%nat /\
  ~ (forall calls gid s, (overlaysFor showScripts gid calls s <= 1)%nat) /\
  ~ (forall calls gid s, (overlaysFor (showUI v8Object true) gid calls s <= 1)%nat).
Proof.
  assert (H1 : overlaysFor showScripts (Some "A")
    [wonGame "A"; wonGame "B"; wonGame "A"] Page.fresh = 2%nat)
    by (vm_compute; reflexivity).
  assert (H2 : overlaysFor (showUI v8Object true) (Some "A")
    [wonGame "A"; wonGame "B"; wonGame "A"] Page.fresh = 2%nat)
    by (vm_compute; reflexivity).
  split; [exact H1|]. split; [exact H2|]. split.
  - intros H. specialize (H [wonGame "A"; wonGame "B"; wonGame "A"]
                            (Some "A") Page.fresh). rewrite H1 in H. lia.
  - intros H. specialize (H [wonGame "A"; wonGame "B"; wonGame "A"]
                            (Some "A") Page.fresh). rewrite H2 in H. lia.
Qed.

(** ** The cards of the 3D scene *)

Lemma find_card_None (i : nat) (l : list Scene.CardObj) :
  Scene.find_card i l = None <-> i ∉ Scene.id <$> l.
Proof.
  unfold Scene.find_card. induction l as [|c l IH]; simpl.
  - split; [intros _; apply not_elem_of_nil | done].
  - case_bool_decide as Hc.
    + split; [done|]. intros Hn. exfalso. apply Hn. subst i. apply list_elem_of_here.
    + rewrite IH, not_elem_of_cons. split; [by split; [congruence|] | tauto].
Qed.

Lemma find_wire_None (i : nat) (l : list Wire.Card) :
  Scene.find_wire i l = None <-> i ∉ Wire.id <$> l.
Proof.
  unfold Scene.find_wire. induction l as [|c l IH]; simpl.
  - split; [intros _; apply not_elem_of_nil | done].
  - case_bool_decide as Hc.
    + split; [done|]. intros Hn. exfalso. apply Hn. subst i. apply list_elem_of_here.
    + rewrite IH, not_elem_of_cons. split; [by split; [congruence|] | tauto].
Qed.

Lemma remove_object_elem (x m : Scene.Mesh) (l : list Scene.Mesh) :
  NoDup (Scene.handle <$> l) ->
  m ∈ Scene.remove_object x l <-> m ∈ l /\ Scene.handle m <> Scene.handle x.
Proof.
  induction l as [|y l IH]; simpl; intros Hnd.
  - rewrite elem_of_nil. tauto.
  - cbn [fmap list_fmap] in Hnd. apply NoDup_cons in Hnd as [Hy Hnd].
    case_bool_decide as Hh.
    + rewrite elem_of_cons. split.
      * intros Hm. split; [by right|]. intros Heq. apply Hy.
        rewrite Hh, <- Heq. by apply list_elem_of_fmap_2.
      * intros [[->|Hm] Hne]; [done|done].
    + rewrite !elem_of_cons, IH by done. split.
      * intros [->|[Hm Hne]]; [by split; [left|] | by split; [right|]].
      * intros [[->|Hm] Hne]; [by left | by right].
Qed.

Lemma remove_object_sublist (x : Scene.Mesh) (l : list Scene.Mesh) :
  Scene.remove_object x l `sublist_of` l.
Proof.
  induction l as [|y l IH]; simpl; [done|].
  case_bool_decide; [by apply sublist_cons | by apply sublist_skip].
Qed.

Lemma remove_object_NoDup (x : Scene.Mesh) (l : list Scene.Mesh) :
  NoDup (Scene.handle <$> l) ->
  NoDup (Scene.handle <$> Scene.remove_object x l).
Proof.
  intros Hnd. eapply sublist_NoDup; [exact Hnd|].
  apply fmap_sublist, remove_object_sublist.
Qed.

Lemma scene_after_removals (rem : list Scene.CardObj) (s : Scene.State) :
  NoDup (Scene.handle <$> Scene.scene s) ->
  let s' := foldl (fun st c => Scene.scene_remove (Scene.mesh c) st) s rem in
  Scene.cards s' = Scene.cards s /\
  Scene.fbxTemplate s' = Scene.fbxTemplate s /\
  Scene.nextHandle s' = Scene.nextHandle s /\
  NoDup (Scene.handle <$> Scene.scene s') /\
  (forall m, m ∈ Scene.scene s' <->
     m ∈ Scene.scene s /\
     forall c, c ∈ rem -> Scene.handle m <> Scene.handle (Scene.mesh c)).
Proof.
  revert s. induction rem as [|x rem IH]; intros s Hnd; simpl.
  - do 4 (split; [done|]). intros m. split.
    + intros Hm. split; [done|]. intros c Hc. by apply elem_of_nil in Hc.
    + by intros [? _].
  - destruct (IH (Scene.scene_remove (Scene.mesh x) s)) as (Hc & Hf & Hn & Hd & Hm).
    { simpl. by apply remove_object_NoDup. }
    simpl in *. rewrite Hc, Hf, Hn. do 4 (split; [done|]).
    intros m. rewrite Hm, (remove_object_elem _ _ _ Hnd). split.
    + intros [[Hin Hne] Hall]. split; [done|].
      intros c Hcin. apply elem_of_cons in Hcin as [->|Hcin]; [done|by apply Hall].
    + intros [Hin Hall]. split; [split; [done|]|].
      * apply Hall, list_elem_of_here.
      * intros c Hcin. by apply Hall, list_elem_of_further.
Qed.

Lemma filter_keep_all {A} (P : A -> Prop) `{forall x, Decision (P x)} (l : list A) :
  filter (fun x => ~ P x) l = [] -> filter P l = l.
Proof.
  induction l as [|x l IH]; [done|].
  destruct (decide (P x)) as [Hx|Hx].
  - rewrite (filter_cons_False (fun x => ~ P x)) by tauto.
    rewrite filter_cons_True by done. intros Hl. by rewrite IH.
  - by rewrite (filter_cons_True (fun x => ~ P x)).
Qed.

(** What "remove old cards" leaves. *)
Lemma removeOld_spec (gameCards : list Wire.Card) (s : Scene.State) :
  sceneOk s ->
  let s' := Scene.removeOld gameCards s in
  Scene.cards s'
    = filter (fun c => Scene.id c ∈ Wire.id <$> gameCards) (Scene.cards s) /\
  Scene.fbxTemplate s' = Scene.fbxTemplate s /\
  sceneOk s' /\
  (forall c, c ∈ Scene.cards s -> Scene.id c ∉ Wire.id <$> gameCards ->
     Scene.mesh c ∉ Scene.scene s').
Proof.
  intros (Hsc & Hnd & Hlt & Hid). unfold Scene.removeOld.
  set (ids := list_to_set (Wire.id <$> gameCards) : gset nat).
  assert (Hids : forall i, i ∈ ids <-> i ∈ Wire.id <$> gameCards).
  { intros i. unfold ids. apply elem_of_list_to_set. }
  assert (Hkeep : filter (fun c => Scene.id c ∈ ids) (Scene.cards s)
          = filter (fun c => Scene.id c ∈ Wire.id <$> gameCards) (Scene.cards s)).
  { apply list_filter_iff. intros c. apply Hids. }
  case_bool_decide as Hlen.
  - destruct (scene_after_removals
                (filter (fun c => Scene.id c ∉ ids) (Scene.cards s)) s Hnd)
      as (Hc & Hf & Hn & Hd & Hm).
    simpl in *. rewrite Hc, Hkeep. split; [done|]. split; [done|].
    split; [split; [|split; [done|split]]|].
    + intros m. rewrite Hm, Hsc, !list_elem_of_fmap. split.
      * intros [(c & -> & Hcin) Hall]. exists c. split; [done|].
        apply list_elem_of_filter. split; [|done].
        destruct (decide (Scene.id c ∈ Wire.id <$> gameCards)) as [|Hno]; [done|].
        exfalso. apply (Hall c); [|done].
        apply list_elem_of_filter. split; [by rewrite Hids|done].
      * intros (c & -> & Hcin). apply list_elem_of_filter in Hcin as [Hin Hcin].
        split; [by exists c|].
        intros c' Hc' Heq. apply list_elem_of_filter in Hc' as [Hout Hc'].
        assert (Hmesh : Scene.mesh c = Scene.mesh c').
        { assert (H1 : Scene.mesh c ∈ Scene.scene s)
            by (apply Hsc; by apply list_elem_of_fmap_2).
          assert (H2 : Scene.mesh c' ∈ Scene.scene s)
            by (apply Hsc; by apply list_elem_of_fmap_2).
          apply list_elem_of_lookup in H1 as [i Hi].
          apply list_elem_of_lookup in H2 as [j Hj].
          assert (i = j).
          { eapply NoDup_lookup; [exact Hnd| |]; rewrite list_lookup_fmap.
            - by rewrite Hi.
            - rewrite Hj. simpl. by rewrite Heq. }
          subst j. congruence. }
        apply Hout. rewrite Hids, <- (Hid c' Hc'), <- Hmesh, (Hid c Hcin). done.
    + intros m Hmin. simpl in *. rewrite Hn. apply Hlt. by apply Hm in Hmin as [? _].
    + intros c Hcin. simpl in *.
      apply list_elem_of_filter in Hcin as [_ Hcin]. by apply Hid.
    + intros c Hcin Hout Hin. simpl in *. apply Hm in Hin as [_ Hall].
      apply (Hall c); [|done]. apply list_elem_of_filter. by rewrite Hids.
  - assert (Hnil : filter (fun c => Scene.id c ∉ ids) (Scene.cards s) = []).
    { destruct (filter (fun c => Scene.id c ∉ ids) (Scene.cards s)); [done|].
      simpl in Hlen. lia. }
    simpl. rewrite <- Hkeep.
    split; [by rewrite (filter_keep_all _ _ Hnil)|]. split; [done|].
    split; [done|].
    intros c Hcin Hout. exfalso.
    assert (Hx : c ∈ filter (fun c => Scene.id c ∉ ids) (Scene.cards s))
      by (apply list_elem_of_filter; by rewrite Hids).
    rewrite Hnil in Hx. by apply elem_of_nil in Hx.
Qed.

Lemma sceneOk_ext (s s' : Scene.State) :
  Scene.cards s' = Scene.cards s -> Scene.scene s' = Scene.scene s ->
  Scene.nextHandle s' = Scene.nextHandle s -> sceneOk s -> sceneOk s'.
Proof. unfold sceneOk. by intros -> -> ->. Qed.

(** What "create missing cards" does for one card of the state. *)
Lemma createMissing_spec (s : Scene.State) (c : Wire.Card) :
  sceneOk s ->
  let s' := Scene.createMissing s c in
  sceneOk s' /\
  Scene.fbxTemplate s' = Scene.fbxTemplate s /\
  (forall x, x ∈ Scene.cards s -> x ∈ Scene.cards s') /\
  (forall x, x ∈ Scene.cards s' -> x ∈ Scene.cards s \/ Scene.id x = Wire.id c) /\
  (is_Some (Scene.fbxTemplate s) -> Wire.id c ∈ Scene.id <$> Scene.cards s') /\
  (Scene.fbxTemplate s = None -> s' = s) /\
  (forall m, m ∈ Scene.scene s' ->
     m ∈ Scene.scene s \/ (Scene.nextHandle s <= Scene.handle m)%nat) /\
  (Scene.nextHandle s <= Scene.nextHandle s')%nat.
Proof.
  intros Hok. pose proof Hok as (Hsc & Hnd & Hlt & Hid).
  unfold Scene.createMissing.
  destruct (Scene.find_card (Wire.id c) (Scene.cards s)) as [found|] eqn:Hfind.
  - simpl. split; [done|]. split; [done|]. split; [done|]. split; [by left|].
    split.
    { intros _. destruct (decide (Wire.id c ∈ Scene.id <$> Scene.cards s)) as [|Hn];
        [done|]. apply find_card_None in Hn. congruence. }
    split; [done|]. split; [by left|]. lia.
  - unfold Scene.createCardInstance.
    destruct (Scene.fbxTemplate s) as [tpl|] eqn:Htpl.
    + simpl. split.
      { split; [|split; [|split]]; simpl.
        - intros m. rewrite fmap_app, !elem_of_app, Hsc. simpl.
          rewrite !list_elem_of_singleton. tauto.
        - rewrite fmap_app. apply NoDup_app. split; [done|]. split.
          + intros h Hh Hh'. simpl in Hh'. apply list_elem_of_singleton in Hh'.
            apply list_elem_of_fmap in Hh as (m & -> & Hm).
            specialize (Hlt m Hm). lia.
          + simpl. apply NoDup_singleton.
        - intros m Hm. apply elem_of_app in Hm as [Hm|Hm].
          + specialize (Hlt m Hm). lia.
          + apply list_elem_of_singleton in Hm. subst m. simpl. lia.
        - intros x Hx. apply elem_of_app in Hx as [Hx|Hx]; [by apply Hid|].
          apply list_elem_of_singleton in Hx. by subst x. }
      split; [by rewrite Htpl|]. split.
      { intros x Hx. apply elem_of_app. by left. }
      split.
      { intros x Hx. apply elem_of_app in Hx as [Hx|Hx]; [by left|].
        apply list_elem_of_singleton in Hx. subst x. by right. }
      split.
      { intros _. rewrite fmap_app. apply elem_of_app. right. simpl.
        apply list_elem_of_here. }
      split; [done|]. split; [|lia].
      intros m Hm. apply elem_of_app in Hm as [Hm|Hm]; [by left|].
      apply list_elem_of_singleton in Hm. subst m. right. simpl. lia.
    + simpl. split; [done|]. split; [done|]. split; [done|]. split; [by left|].
      split; [by intros [? ?]|]. split; [done|]. split; [by left|]. lia.
Qed.

Lemma createAll_spec (gameCards : list Wire.Card) (s : Scene.State) :
  sceneOk s ->
  let s' := foldl Scene.createMissing s gameCards in
  sceneOk s' /\
  Scene.fbxTemplate s' = Scene.fbxTemplate s /\
  (forall x, x ∈ Scene.cards s -> x ∈ Scene.cards s') /\
  (forall x, x ∈ Scene.cards s' ->
     x ∈ Scene.cards s \/ Scene.id x ∈ Wire.id <$> gameCards) /\
  (is_Some (Scene.fbxTemplate s) ->
     forall i, i ∈ Wire.id <$> gameCards -> i ∈ Scene.id <$> Scene.cards s') /\
  (Scene.fbxTemplate s = None -> s' = s) /\
  (forall m, m ∈ Scene.scene s' ->
     m ∈ Scene.scene s \/ (Scene.nextHandle s <= Scene.handle m)%nat) /\
  (Scene.nextHandle s <= Scene.nextHandle s')%nat.
Proof.
  revert s. induction gameCards as [|c rest IH]; intros s Hok; simpl.
  - split; [done|]. split; [done|]. split; [done|]. split; [by left|].
    split; [intros _ i Hi; by apply elem_of_nil in Hi|]. split; [done|].
    split; [by left|]. lia.
  - destruct (createMissing_spec s c Hok)
      as (Hok1 & Ht1 & Hk1 & Hn1 & Hc1 & Hno1 & Hs1 & Hh1).
    destruct (IH (Scene.createMissing s c) Hok1)
      as (Hok2 & Ht2 & Hk2 & Hn2 & Hc2 & Hno2 & Hs2 & Hh2).
    simpl in *. split; [done|]. split; [congruence|].
    split; [by auto|]. split.
    { intros x Hx. destruct (Hn2 x Hx) as [Hx1|Hx1].
      - destruct (Hn1 x Hx1) as [?|Heq]; [by left|]. right.
        rewrite Heq. apply list_elem_of_here.
      - right. by apply list_elem_of_further. }
    split.
    { intros Hsome i Hi. apply elem_of_cons in Hi as [->|Hi].
      - specialize (Hc1 Hsome). apply list_elem_of_fmap in Hc1 as (x & Hx & Hxin).
        apply list_elem_of_fmap. exists x. split; [done|]. by apply Hk2.
      - apply Hc2; [by rewrite Ht1|done]. }
    split.
    { intros Hnone. rewrite (Hno1 Hnone) in *. by apply Hno2. }
    split; [|lia].
    intros m Hm. destruct (Hs2 m Hm) as [Hm1|Hm1].
    + destruct (Hs1 m Hm1) as [?|?]; [by left|by right].
    + right. lia.
Qed.

(** "Remove extra cards" finds nothing to remove once every card object
    belongs to a card of the state. *)
Lemma removeExtra_nothing (gameCards : list Wire.Card)
    (l : list Scene.CardObj) (s : Scene.State) :
  (forall c, c ∈ l -> Scene.id c ∈ Wire.id <$> gameCards) ->
  foldl (Scene.removeExtra gameCards) s l = s.
Proof.
  revert s. induction l as [|c l IH]; intros s Hall; simpl; [done|].
  assert (Hc : Scene.removeExtra gameCards s c = s).
  { unfold Scene.removeExtra.
    destruct (Scene.find_wire (Scene.id c) gameCards) eqn:Hf; [done|].
    apply find_wire_None in Hf. exfalso. apply Hf, Hall, list_elem_of_here. }
  rewrite Hc. apply IH. intros x Hx. by apply Hall, list_elem_of_further.
Qed.

Lemma update_found_same (i : nat) (g : Wire.Card) (l : list Scene.CardObj) :
  Scene.id <$> Scene.update_found i (Scene.syncLocal g) l = Scene.id <$> l /\
  Scene.mesh <$> Scene.update_found i (Scene.syncLocal g) l = Scene.mesh <$> l /\
  (forall c', c' ∈ Scene.update_found i (Scene.syncLocal g) l ->
     exists c, c ∈ l /\ Scene.id c' = Scene.id c /\ Scene.mesh c' = Scene.mesh c).
Proof.
  assert (Hs : forall c, Scene.id (Scene.syncLocal g c) = Scene.id c /\
                         Scene.mesh (Scene.syncLocal g c) = Scene.mesh c).
  { intros c. unfold Scene.syncLocal.
    destruct (Wire.isMatched g && negb (Scene.isMatched c));
      case_bool_decide; done. }
  induction l as [|c l (IH1 & IH2 & IH3)]; simpl.
  - split; [done|]. split; [done|]. intros c' Hc'. by apply elem_of_nil in Hc'.
  - case_bool_decide as Hc; cbn [fmap list_fmap].
    + destruct (Hs c) as [-> ->]. split; [done|]. split; [done|].
      intros c' Hc'. apply elem_of_cons in Hc' as [->|Hc'].
      * exists c. split; [apply list_elem_of_here|]. apply Hs.
      * exists c'. split; [by apply list_elem_of_further|done].
    + rewrite IH1, IH2. split; [done|]. split; [done|].
      intros c' Hc'. apply elem_of_cons in Hc' as [->|Hc'].
      * exists c. split; [apply list_elem_of_here|done].
      * destruct (IH3 c' Hc') as (x & Hx & ? & ?). exists x.
        split; [by apply list_elem_of_further|done].
Qed.

Lemma syncAll_spec (gameCards : list Wire.Card) (s : Scene.State) :
  sceneOk s ->
  let s' := foldl Scene.syncState s gameCards in
  sceneOk s' /\
  Scene.id <$> Scene.cards s' = Scene.id <$> Scene.cards s /\
  Scene.scene s' = Scene.scene s.
Proof.
  revert s. induction gameCards as [|g rest IH]; intros s Hok; simpl; [done|].
  destruct (update_found_same (Wire.id g) g (Scene.cards s)) as (H1 & H2 & H3).
  assert (Hok1 : sceneOk (Scene.syncState s g)).
  { destruct Hok as (Hsc & Hnd & Hlt & Hid).
    split; [|split; [done|split; [done|]]]; simpl.
    - intros m. by rewrite H2.
    - intros c' Hc'. destruct (H3 c' Hc') as (c & Hc & -> & ->). by apply Hid. }
  destruct (IH (Scene.syncState s g) Hok1) as (Hok2 & Hi2 & Hs2).
  simpl in *. split; [done|]. split; [by rewrite Hi2, H1|done].
Qed.

Lemma removeOld_nextHandle (gameCards : list Wire.Card) (s : Scene.State) :
  Scene.nextHandle (Scene.removeOld gameCards s) = Scene.nextHandle s.
Proof.
  unfold Scene.removeOld. case_bool_decide as Hl; [clear Hl|done]. simpl.
  generalize (filter
    (fun c => Scene.id c ∉ (list_to_set (Wire.id <$> gameCards) : gset nat))
    (Scene.cards s)).
  intros l. revert s. induction l as [|c l IH]; intros s; simpl; [done|].
  by rewrite IH.
Qed.

Lemma lockInput_fields (s : Scene.State) :
  Scene.cards (Scene.lockInput s) = Scene.cards s /\
  Scene.scene (Scene.lockInput s) = Scene.scene s /\
  Scene.nextHandle (Scene.lockInput s) = Scene.nextHandle s /\
  Scene.fbxTemplate (Scene.lockInput s) = Scene.fbxTemplate s.
Proof. unfold Scene.lockInput. simpl. by destruct (Scene.inputLockTimer s). Qed.

Lemma releaseInput_fields (s : Scene.State) :
  Scene.cards (Scene.releaseInput s) = Scene.cards s /\
  Scene.scene (Scene.releaseInput s) = Scene.scene s /\
  Scene.nextHandle (Scene.releaseInput s) = Scene.nextHandle s /\
  Scene.inputLocked (Scene.releaseInput s) = false.
Proof. unfold Scene.releaseInput. simpl. by destruct (Scene.inputLockTimer s). Qed.

Lemma sceneOk_ids (s : Scene.State) : sceneOk s -> sceneIds s = cardIds s.
Proof.
  intros (Hsc & _ & _ & Hid). unfold sceneIds, cardIds. apply set_eq. intros i.
  rewrite !elem_of_list_to_set, !list_elem_of_fmap. split.
  - intros (m & -> & Hm). apply Hsc in Hm.
    apply list_elem_of_fmap in Hm as (c & -> & Hc). exists c. by rewrite Hid.
  - intros (c & -> & Hc). exists (Scene.mesh c). rewrite Hid by done.
    split; [done|]. apply Hsc. by apply list_elem_of_fmap_2.
Qed.

(** ** scene.js: a call of updateFromGameState and its awaits *)

Lemma NoDup_fmap_unique {A B} (f : A -> B) (l : list A) (x y : A) :
  NoDup (f <$> l) -> x ∈ l -> y ∈ l -> f x = f y -> x = y.
Proof.
  intros Hnd Hx Hy Hf.
  apply list_elem_of_lookup in Hx as [i Hi].
  apply list_elem_of_lookup in Hy as [j Hj].
  assert (i = j).
  { eapply NoDup_lookup; [exact Hnd| |]; rewrite list_lookup_fmap.
    - by rewrite Hi.
    - rewrite Hj. simpl. by rewrite Hf. }
  subst j. congruence.
Qed.

Lemma set_cards_same (s : Scene.State) : Scene.set_cards (Scene.cards s) s = s.
Proof. by destruct s. Qed.

Lemma foldl_keeps {A B C} (f : A -> B -> A) (obs : A -> C) (l : list B) (a : A) :
  (forall a x, obs (f a x) = obs a) -> obs (foldl f a l) = obs a.
Proof.
  intros Hf. revert a. induction l as [|x l IH]; intros a; simpl; [done|].
  by rewrite IH, Hf.
Qed.

Lemma syncLocal_split (g : Wire.Card) (c : Scene.CardObj) :
  Scene.syncLocal g c
  = if bool_decide (Wire.isFaceUp g = Scene.isFaceUp c)
    then SceneAsync.markLocal g c
    else SceneAsync.faceLocal g (SceneAsync.markLocal g c).
Proof.
  unfold Scene.syncLocal, SceneAsync.markLocal, SceneAsync.faceLocal.
  destruct c as [i v m up ma fa], g as [gi gv gup gma]. simpl.
  destruct (gma && negb ma); simpl; by case_bool_decide.
Qed.

Lemma markLocal_keeps (g : Wire.Card) : keepsCard (SceneAsync.markLocal g).
Proof.
  intros c. unfold SceneAsync.markLocal.
  destruct (Wire.isMatched g && negb (Scene.isMatched c)); by case_bool_decide.
Qed.

Lemma faceLocal_keeps (g : Wire.Card) : keepsCard (SceneAsync.faceLocal g).
Proof. by intros c. Qed.

Lemma find_card_Some (i : nat) (l : list Scene.CardObj) (c : Scene.CardObj) :
  Scene.find_card i l = Some c -> Scene.id c = i /\ c ∈ l.
Proof.
  unfold Scene.find_card. induction l as [|x l IH]; simpl; [done|].
  case_bool_decide as Hx.
  - intros [= ->]. split; [done|apply list_elem_of_here].
  - intros H. destruct (IH H). split; [done|]. by apply list_elem_of_further.
Qed.

Lemma update_found_none (i : nat) (f : Scene.CardObj -> Scene.CardObj)
    (l : list Scene.CardObj) :
  Scene.find_card i l = None -> Scene.update_found i f l = l.
Proof.
  unfold Scene.find_card. induction l as [|x l IH]; simpl; [done|].
  case_bool_decide; [done|]. intros Hn. by rewrite IH.
Qed.

Lemma update_found_first (i : nat) (f f' : Scene.CardObj -> Scene.CardObj)
    (l : list Scene.CardObj) (c : Scene.CardObj) :
  Scene.find_card i l = Some c -> f c = f' c ->
  Scene.update_found i f l = Scene.update_found i f' l.
Proof.
  unfold Scene.find_card. induction l as [|x l IH]; simpl; [done|].
  case_bool_decide.
  - intros [= ->] Hf. by rewrite Hf.
  - intros Hn Hf. by rewrite IH.
Qed.

Lemma update_found_twice (i : nat) (f f' : Scene.CardObj -> Scene.CardObj)
    (l : list Scene.CardObj) :
  keepsCard f ->
  Scene.update_found i f' (Scene.update_found i f l)
  = Scene.update_found i (fun c => f' (f c)) l.
Proof.
  intros Hf. induction l as [|x l IH]; simpl; [done|].
  case_bool_decide as Hx; simpl.
  - destruct (Hf x) as [-> _]. by rewrite bool_decide_true.
  - rewrite bool_decide_false by done. by rewrite IH.
Qed.

Lemma find_card_updated (i : nat) (f : Scene.CardObj -> Scene.CardObj)
    (l : list Scene.CardObj) (c : Scene.CardObj) :
  keepsCard f -> Scene.find_card i l = Some c ->
  Scene.find_card i (Scene.update_found i f l) = Some (f c).
Proof.
  intros Hf. unfold Scene.find_card. induction l as [|x l IH]; simpl; [done|].
  case_bool_decide as Hx; simpl.
  - intros [= ->]. destruct (Hf c) as [-> _]. by rewrite bool_decide_true.
  - intros H. rewrite bool_decide_false by done. by apply IH.
Qed.

Lemma update_object_found (h i : nat) (f : Scene.CardObj -> Scene.CardObj)
    (l : list Scene.CardObj) (c : Scene.CardObj) :
  handlesOk l -> Scene.find_card i l = Some c ->
  Scene.handle (Scene.mesh c) = h ->
  SceneAsync.update_object h f l = Scene.update_found i f l.
Proof.
  intros Hh Hfind Hc. induction l as [|x l IH]; simpl; [done|].
  destruct (find_card_Some _ _ _ Hfind) as [Hid Hin].
  unfold Scene.find_card in Hfind. simpl in Hfind.
  case_bool_decide as Hx.
  - injection Hfind as ->. by rewrite bool_decide_true.
  - rewrite bool_decide_false.
    + f_equal. apply IH; [|done].
      intros c1 c2 H1 H2. apply Hh; by apply list_elem_of_further.
    + intros Hhx. apply Hx. rewrite <- Hid.
      apply Hh; [apply list_elem_of_here|done|congruence].
Qed.

Lemma sceneOk_handles (s : Scene.State) : sceneOk s -> handlesOk (Scene.cards s).
Proof.
  intros (Hsc & Hnd & _ & Hid) c1 c2 H1 H2 Hh.
  rewrite <- (Hid c1 H1), <- (Hid c2 H2). f_equal.
  apply (NoDup_fmap_unique Scene.handle (Scene.scene s)); try done;
    apply Hsc; by apply list_elem_of_fmap_2.
Qed.

Lemma update_found_keeps (i : nat) (f : Scene.CardObj -> Scene.CardObj)
    (l : list Scene.CardObj) :
  keepsCard f ->
  Scene.mesh <$> Scene.update_found i f l = Scene.mesh <$> l /\
  (forall c', c' ∈ Scene.update_found i f l ->
     exists c, c ∈ l /\ Scene.id c' = Scene.id c /\ Scene.mesh c' = Scene.mesh c).
Proof.
  intros Hf. induction l as [|c l (IH2 & IH3)]; simpl.
  - split; [done|]. intros c' Hc'. by apply elem_of_nil in Hc'.
  - case_bool_decide as Hc; cbn [fmap list_fmap].
    + destruct (Hf c) as [Hi ->]. split; [done|].
      intros c' Hc'. apply elem_of_cons in Hc' as [->|Hc'].
      * exists c. split; [apply list_elem_of_here|]. apply Hf.
      * exists c'. split; [by apply list_elem_of_further|done].
    + rewrite IH2. split; [done|].
      intros c' Hc'. apply elem_of_cons in Hc' as [->|Hc'].
      * exists c. split; [apply list_elem_of_here|done].
      * destruct (IH3 c' Hc') as (x & Hx & ? & ?). exists x.
        split; [by apply list_elem_of_further|done].
Qed.

Lemma update_object_keeps (h : nat) (f : Scene.CardObj -> Scene.CardObj)
    (l : list Scene.CardObj) :
  keepsCard f ->
  Scene.mesh <$> SceneAsync.update_object h f l = Scene.mesh <$> l /\
  (forall c', c' ∈ SceneAsync.update_object h f l ->
     exists c, c ∈ l /\ Scene.id c' = Scene.id c /\ Scene.mesh c' = Scene.mesh c).
Proof.
  intros Hf. induction l as [|c l (IH2 & IH3)]; simpl.
  - split; [done|]. intros c' Hc'. by apply elem_of_nil in Hc'.
  - case_bool_decide as Hc; cbn [fmap list_fmap].
    + destruct (Hf c) as [Hi ->]. split; [done|].
      intros c' Hc'. apply elem_of_cons in Hc' as [->|Hc'].
      * exists c. split; [apply list_elem_of_here|]. apply Hf.
      * exists c'. split; [by apply list_elem_of_further|done].
    + rewrite IH2. split; [done|].
      intros c' Hc'. apply elem_of_cons in Hc' as [->|Hc'].
      * exists c. split; [apply list_elem_of_here|done].
      * destruct (IH3 c' Hc') as (x & Hx & ? & ?). exists x.
        split; [by apply list_elem_of_further|done].
Qed.

Lemma sceneOk_update (l' : list Scene.CardObj) (s : Scene.State) :
  Scene.mesh <$> l' = Scene.mesh <$> Scene.cards s ->
  (forall c', c' ∈ l' ->
     exists c, c ∈ Scene.cards s /\ Scene.id c' = Scene.id c /\
               Scene.mesh c' = Scene.mesh c) ->
  sceneOk s -> sceneOk (Scene.set_cards l' s).
Proof.
  intros H2 H3 (Hsc & Hnd & Hlt & Hid).
  split; [|split; [done|split; [done|]]]; simpl.
  - intros m. by rewrite H2.
  - intros c' Hc'. destruct (H3 c' Hc') as (c & Hc & -> & ->). by apply Hid.
Qed.

Lemma set_cards_twice (l l' : list Scene.CardObj) (s : Scene.State) :
  Scene.set_cards l (Scene.set_cards l' s) = Scene.set_cards l s.
Proof. done. Qed.

(** A segment of the loop does what the loop run in one go does up to
    there, and what is left of the call does the rest. *)
Lemma loop_spec (rest : list Wire.Card) (s : Scene.State) :
  sceneOk s ->
  sceneOk (SceneAsync.loop rest s).1 /\
  match (SceneAsync.loop rest s).2 with
  | None =>
      (SceneAsync.loop rest s).1
      = Scene.releaseInput (foldl Scene.syncState s rest)
  | Some c =>
      finish c (SceneAsync.loop rest s).1
      = Scene.releaseInput (foldl Scene.syncState s rest) /\
      (awaits c <= length rest)%nat
  end.
Proof.
  revert s. induction rest as [|g rest IH]; intros s Hok; simpl.
  { split; [|done]. destruct (releaseInput_fields s) as (? & ? & ? & _).
    by apply (sceneOk_ext s). }
  destruct (Scene.find_card (Wire.id g) (Scene.cards s)) as [local|] eqn:Hfind.
  - assert (Hok1 : sceneOk (Scene.set_cards
              (Scene.update_found (Wire.id g) (SceneAsync.markLocal g)
                 (Scene.cards s)) s)).
    { destruct (update_found_keeps (Wire.id g) (SceneAsync.markLocal g)
                  (Scene.cards s) (markLocal_keeps g)) as [H2 H3].
      by apply sceneOk_update. }
    case_bool_decide as Hface.
    + assert (Hs : Scene.syncState s g
                   = Scene.set_cards
                       (Scene.update_found (Wire.id g) (SceneAsync.markLocal g)
                          (Scene.cards s)) s).
      { unfold Scene.syncState. f_equal.
        apply (update_found_first _ _ _ _ local Hfind).
        rewrite syncLocal_split. by rewrite bool_decide_true. }
      rewrite Hs. destruct (IH _ Hok1) as [H1 H2]. split; [done|].
      destruct (SceneAsync.loop rest _).2; [|done].
      destruct H2. split; [done|lia].
    + simpl. split; [done|]. split; [|lia]. f_equal. f_equal.
      unfold Scene.syncState. rewrite set_cards_twice. f_equal.
      rewrite (update_object_found _ (Wire.id g) _ _ (SceneAsync.markLocal g local)).
      * rewrite update_found_twice by apply markLocal_keeps.
        apply (update_found_first _ _ _ _ local Hfind).
        rewrite syncLocal_split. by rewrite bool_decide_false.
      * by apply (sceneOk_handles _ Hok1).
      * apply find_card_updated; [apply markLocal_keeps|done].
      * by destruct (markLocal_keeps g local) as [_ ->].
  - assert (Hs : Scene.syncState s g = s).
    { unfold Scene.syncState. rewrite update_found_none by done.
      apply set_cards_same. }
    rewrite Hs. destruct (IH _ Hok) as [H1 H2]. split; [done|].
    destruct (SceneAsync.loop rest s).2; [|done].
    destruct H2. split; [done|lia].
Qed.

Lemma prepare_ok (gs : Wire.GameState) (s : Scene.State) :
  sceneOk s -> sceneOk (SceneAsync.prepare gs s).
Proof.
  intros Hok. unfold SceneAsync.prepare.
  destruct (removeOld_spec (Wire.cards gs) s Hok) as (Hc1 & _ & Hok1 & _).
  destruct (createAll_spec (Wire.cards gs) _ Hok1) as (Hok2 & _ & _ & Hin2 & _).
  rewrite removeExtra_nothing; [done|].
  intros x Hx. destruct (Hin2 x Hx) as [Hx1|Hx1]; [|done].
  rewrite Hc1 in Hx1. by apply list_elem_of_filter in Hx1 as [? _].
Qed.

(** A waiting call that goes on: either it ends as [finish] says, or it
    waits again with fewer awaits before it and the same end. *)
Lemma resume_spec (c : SceneAsync.Call) (s : Scene.State) :
  sceneOk s ->
  sceneOk (SceneAsync.resume c s).1 /\
  match (SceneAsync.resume c s).2 with
  | None => (SceneAsync.resume c s).1 = finish c s
  | Some c' =>
      finish c' (SceneAsync.resume c s).1 = finish c s /\
      (awaits c' < awaits c)%nat
  end.
Proof.
  intros Hok. destruct c as [gs|rest h g]; simpl.
  - destruct (loop_spec (Wire.cards gs) _ (prepare_ok gs s Hok)) as [H1 H2].
    split; [done|]. destruct (SceneAsync.loop _ _).2; [|done].
    destruct H2. split; [done|lia].
  - assert (Hok1 : sceneOk (Scene.set_cards
       (SceneAsync.update_object h (SceneAsync.faceLocal g) (Scene.cards s)) s)).
    { destruct (update_object_keeps h (SceneAsync.faceLocal g) (Scene.cards s)
                  (faceLocal_keeps g)) as [H2 H3].
      by apply sceneOk_update. }
    destruct (loop_spec rest _ Hok1) as [H1 H2].
    split; [done|]. destruct (SceneAsync.loop _ _).2; [|done].
    destruct H2. split; [done|lia].
Qed.

Lemma sameCards_sym (a b : Scene.State) : sameCards a b -> sameCards b a.
Proof. unfold sameCards. intuition congruence. Qed.

Lemma sameCards_trans (a b c : Scene.State) :
  sameCards a b -> sameCards b c -> sameCards a c.
Proof. unfold sameCards. intuition congruence. Qed.

Lemma sameCards_sceneOk (a b : Scene.State) :
  sameCards a b -> sceneOk a -> sceneOk b.
Proof. intros (? & ? & ? & ?). by apply sceneOk_ext. Qed.

Lemma foldl_sameCards {B} (f : Scene.State -> B -> Scene.State) (l : list B)
    (a b : Scene.State) :
  (forall a b x, sameCards a b -> sameCards (f a x) (f b x)) ->
  sameCards a b -> sameCards (foldl f a l) (foldl f b l).
Proof.
  intros Hf. revert a b. induction l as [|x l IH]; intros a b Hab; simpl; [done|].
  by apply IH, Hf.
Qed.

Lemma scene_remove_sameCards (a b : Scene.State) (c : Scene.CardObj) :
  sameCards a b ->
  sameCards (Scene.scene_remove (Scene.mesh c) a)
            (Scene.scene_remove (Scene.mesh c) b).
Proof. intros (Hc & Hs & Ht & Hn). unfold sameCards. simpl. by rewrite Hs. Qed.

Lemma removeOld_sameCards (l : list Wire.Card) (a b : Scene.State) :
  sameCards a b -> sameCards (Scene.removeOld l a) (Scene.removeOld l b).
Proof.
  intros Hab. pose proof Hab as (Hc & Hs & Ht & Hn). unfold Scene.removeOld.
  rewrite Hc. case_bool_decide; [|done].
  pose proof (foldl_sameCards (fun st c => Scene.scene_remove (Scene.mesh c) st)
    (filter (fun c => Scene.id c ∉ (list_to_set (Wire.id <$> l) : gset nat))
            (Scene.cards b)) a b scene_remove_sameCards Hab) as (Hc' & Hs' & Ht' & Hn').
  unfold sameCards. simpl. by rewrite Hc'.
Qed.

Lemma createMissing_sameCards (a b : Scene.State) (c : Wire.Card) :
  sameCards a b -> sameCards (Scene.createMissing a c) (Scene.createMissing b c).
Proof.
  intros Hab. pose proof Hab as (Hc & Hs & Ht & Hn).
  unfold Scene.createMissing, Scene.createCardInstance.
  rewrite Hc, Ht. destruct (Scene.find_card (Wire.id c) (Scene.cards b)); [done|].
  destruct (Scene.fbxTemplate b) eqn:Hb; [|done].
  unfold sameCards. simpl. by rewrite Hc, Hs, Hn, Ht, Hb.
Qed.

Lemma removeExtra_sameCards (l : list Wire.Card) (a b : Scene.State)
    (c : Scene.CardObj) :
  sameCards a b -> sameCards (Scene.removeExtra l a c) (Scene.removeExtra l b c).
Proof.
  intros Hab. pose proof Hab as (Hc & Hs & Ht & Hn). unfold Scene.removeExtra.
  destruct (Scene.find_wire (Scene.id c) l); [done|].
  unfold sameCards. simpl. by rewrite Hc, Hs.
Qed.

Lemma syncState_sameCards (a b : Scene.State) (g : Wire.Card) :
  sameCards a b -> sameCards (Scene.syncState a g) (Scene.syncState b g).
Proof.
  intros (Hc & Hs & Ht & Hn). unfold sameCards, Scene.syncState. simpl.
  by rewrite Hc.
Qed.

Lemma releaseInput_sameCards (a : Scene.State) :
  sameCards (Scene.releaseInput a) a.
Proof.
  unfold sameCards, Scene.releaseInput. simpl.
  by destruct (Scene.inputLockTimer a).
Qed.

Lemma lockInput_sameCards (a : Scene.State) : sameCards (Scene.lockInput a) a.
Proof.
  unfold sameCards, Scene.lockInput. simpl. by destruct (Scene.inputLockTimer a).
Qed.

Lemma prepare_sameCards (gs : Wire.GameState) (a b : Scene.State) :
  sameCards a b ->
  sameCards (SceneAsync.prepare gs a) (SceneAsync.prepare gs b).
Proof.
  intros Hab. unfold SceneAsync.prepare.
  assert (H2 : sameCards
    (foldl Scene.createMissing (Scene.removeOld (Wire.cards gs) a) (Wire.cards gs))
    (foldl Scene.createMissing (Scene.removeOld (Wire.cards gs) b) (Wire.cards gs))).
  { apply foldl_sameCards; [apply createMissing_sameCards|].
    by apply removeOld_sameCards. }
  pose proof H2 as (-> & _).
  apply foldl_sameCards; [|done]. intros. by apply removeExtra_sameCards.
Qed.

(** What a waiting call leaves depends on the card objects, the scene
    graph and the model only, not on the lock. *)
Lemma finish_sameCards (c : SceneAsync.Call) (a b : Scene.State) :
  sameCards a b -> sameCards (finish c a) (finish c b).
Proof.
  intros Hab. destruct c as [gs|rest h g]; simpl.
  - eapply sameCards_trans; [apply releaseInput_sameCards|].
    eapply sameCards_trans; [|apply sameCards_sym, releaseInput_sameCards].
    apply foldl_sameCards; [apply syncState_sameCards|].
    by apply prepare_sameCards.
  - eapply sameCards_trans; [apply releaseInput_sameCards|].
    eapply sameCards_trans; [|apply sameCards_sym, releaseInput_sameCards].
    apply foldl_sameCards; [apply syncState_sameCards|].
    destruct Hab as (Hc & Hs & Ht & Hn). unfold sameCards. simpl. by rewrite Hc.
Qed.

Lemma update_sameCards (gs : Wire.GameState) (a b : Scene.State) :
  sameCards a b ->
  sameCards (Scene.updateFromGameState (Some gs) a)
            (Scene.updateFromGameState (Some gs) b).
Proof.
  intros Hab.
  apply (finish_sameCards (SceneAsync.AwaitTextures gs)
           (Scene.lockInput (Scene.set_startingPlaceholder false a))
           (Scene.lockInput (Scene.set_startingPlaceholder false b))).
  eapply sameCards_trans; [apply lockInput_sameCards|].
  eapply sameCards_trans; [|apply sameCards_sym, lockInput_sameCards].
  done.
Qed.

Lemma click_sameCards (hit : option (list (option nat))) (g : SceneInput.Stage) :
  sameCards (SceneInput.st (SceneInput.onPointerClick hit g)) (SceneInput.st g).
Proof.
  unfold SceneInput.onPointerClick.
  destruct (negb (SceneInput.ready g) ||
            bool_decide (Scene.cards (SceneInput.st g) = [])); [done|].
  destruct (Scene.inputLocked (SceneInput.st g)); [done|].
  destruct hit as [chain|]; [|done].
  destruct (SceneInput.cardUnder chain); [|done].
  destruct (SceneInput.onCardClickCallback g); [|done].
  unfold sameCards. simpl. by destruct (Scene.inputLockTimer (SceneInput.st g)).
Qed.

Lemma elapse_sameCards (ms : Z) (g : SceneInput.Stage) :
  sameCards (SceneInput.st (SceneInput.elapse ms g)) (SceneInput.st g).
Proof.
  unfold SceneInput.elapse. simpl.
  generalize (merge_sort SceneInput.dueBefore
    (filter (fun x => x.2 <= SceneInput.now g + ms /\
                      x.1 ∈ Scene.activeTimers (SceneInput.st g))
            (SceneInput.due g))).
  intros l. unfold sameCards.
  rewrite !(foldl_keeps (fun s x => SceneInput.release x.1 s)) by done. done.
Qed.

(** While no other call starts, a call ends as [updateFromGameState] run
    in one go says, whatever clicks and timers come in between. *)
Lemma alone_step (target : Scene.State) (e : SceneAsync.Event)
    (w : SceneAsync.World) :
  arrives e = false -> aloneInv target w -> aloneInv target (SceneAsync.step w e).
Proof.
  intros He [Hok Hinv]. destruct e as [hit|ms|[gs|]|k]; try done; simpl.
  - pose proof (click_sameCards hit (SceneAsync.stage w)) as Hs.
    split; [by apply (sameCards_sceneOk _ _ (sameCards_sym _ _ Hs))|].
    unfold sceneOf in *. simpl.
    destruct (SceneAsync.calls w) as [|c [|c2 l]]; [| |done].
    + by eapply sameCards_trans.
    + eapply sameCards_trans; [|exact Hinv]. by apply finish_sameCards.
  - pose proof (elapse_sameCards ms (SceneAsync.stage w)) as Hs.
    split; [by apply (sameCards_sceneOk _ _ (sameCards_sym _ _ Hs))|].
    unfold sceneOf in *. simpl.
    destruct (SceneAsync.calls w) as [|c [|c2 l]]; [| |done].
    + by eapply sameCards_trans.
    + eapply sameCards_trans; [|exact Hinv]. by apply finish_sameCards.
  - unfold aloneInv, sceneOf in *.
    destruct (SceneAsync.calls w) as [|c [|c2 l]] eqn:Hcalls; [| |done].
    + simpl. by rewrite Hcalls.
    + destruct k as [|k]; simpl; [|by rewrite Hcalls].
      destruct (resume_spec c _ Hok) as [H1 H2].
      destruct (SceneAsync.resume c (SceneInput.st (SceneAsync.stage w)))
        as [s' [c'|]]; simpl in *.
      * split; [done|]. destruct H2 as [-> _]. done.
      * split; [done|]. by rewrite H2.
Qed.

Lemma alone_run (target : Scene.State) (es : list SceneAsync.Event)
    (w : SceneAsync.World) :
  Forall (fun e => arrives e = false) es -> aloneInv target w ->
  aloneInv target (SceneAsync.run es w).
Proof.
  unfold SceneAsync.run. revert w.
  induction es as [|e es IH]; intros w Hes Hw; simpl; [done|].
  apply Forall_cons in Hes as [He Hes]. by apply IH, alone_step.
Qed.

Lemma call_alone (gs : Wire.GameState) (es : list SceneAsync.Event)
    (g : SceneInput.Stage) :
  sceneOk (SceneInput.st g) -> Forall (fun e => arrives e = false) es ->
  SceneAsync.calls (callThen gs es g) = [] ->
  sameCards (sceneOf (callThen gs es g))
            (Scene.updateFromGameState (Some gs) (SceneInput.st g)).
Proof.
  intros Hok Hes Hdone.
  assert (Hinv : aloneInv (Scene.updateFromGameState (Some gs) (SceneInput.st g))
                   (callThen gs es g)).
  { unfold callThen, SceneAsync.run.
    cbn [foldl SceneAsync.step SceneAsync.start SceneAsync.calls app].
    change (foldl SceneAsync.step ?a ?l) with (SceneAsync.run l a).
    apply alone_run; [done|]. split; simpl.
    - apply (sameCards_sceneOk (SceneInput.st g)); [|done].
      apply sameCards_sym.
      apply (lockInput_sameCards
               (Scene.set_startingPlaceholder false (SceneInput.st g))).
    - done. }
  destruct Hinv as [_ Hinv]. by rewrite Hdone in Hinv.
Qed.

Lemma resumes_idle (n : nat) (w : SceneAsync.World) :
  SceneAsync.calls w = [] ->
  SceneAsync.run (replicate n (SceneAsync.Resume 0)) w = w.
Proof.
  intros Hw. unfold SceneAsync.run.
  induction n as [|n IH]; simpl; [done|]. by rewrite Hw.
Qed.

(** A call that is resumed as often as it has awaits before it ends. *)
Lemma resumes_finish (n : nat) (w : SceneAsync.World) (c : SceneAsync.Call) :
  SceneAsync.calls w = [c] -> sceneOk (sceneOf w) -> (awaits c <= n)%nat ->
  SceneAsync.run (replicate n (SceneAsync.Resume 0)) w
  = SceneAsync.mkWorld
      (SceneInput.set_st (finish c (sceneOf w)) (SceneAsync.stage w)) [].
Proof.
  revert w c. induction n as [|n IH]; intros w c Hw Hok Hn.
  { destruct c; simpl in Hn; lia. }
  unfold SceneAsync.run. simpl. rewrite Hw. simpl.
  destruct (resume_spec c _ Hok) as [H1 H2]. unfold sceneOf in *.
  destruct (SceneAsync.resume c (SceneInput.st (SceneAsync.stage w)))
    as [s' [c'|]]; simpl in *.
  - destruct H2 as [H2 Hlt].
    change (foldl SceneAsync.step ?a ?l) with (SceneAsync.run l a).
    rewrite (IH _ c'); [|done|done|lia]. simpl. by rewrite H2.
  - change (foldl SceneAsync.step ?a ?l) with (SceneAsync.run l a).
    rewrite resumes_idle by done. by rewrite H2.
Qed.

(** The call run in one go: [SceneInput.onGameState] is the call with
    nothing between its awaits. *)
Lemma call_uninterrupted (gs : Wire.GameState) (g : SceneInput.Stage) :
  sceneOk (SceneInput.st g) ->
  callThen gs (replicate (S (length (Wire.cards gs))) (SceneAsync.Resume 0)) g
  = SceneAsync.mkWorld (SceneInput.onGameState (Some gs) g) [].
Proof.
  intros Hok. unfold callThen, SceneAsync.run.
  cbn [foldl SceneAsync.step SceneAsync.start SceneAsync.calls app].
  change (foldl SceneAsync.step ?a ?l) with (SceneAsync.run l a).
  rewrite (resumes_finish _ _ (SceneAsync.AwaitTextures gs)); [done|done| |done].
  apply (sameCards_sceneOk (SceneInput.st g)); [|done].
  apply sameCards_sym.
  apply (lockInput_sameCards
           (Scene.set_startingPlaceholder false (SceneInput.st g))).
Qed.

(** What updateFromGameState run in one go makes of the cards. *)
Lemma update_cards (gs : Wire.GameState) (s : Scene.State) :
  sceneOk s ->
  cardIds (Scene.updateFromGameState (Some gs) s) ⊆ stateIds gs /\
  (is_Some (Scene.fbxTemplate s) ->
     cardIds (Scene.updateFromGameState (Some gs) s) = stateIds gs) /\
  (Scene.fbxTemplate s = None ->
     cardIds (Scene.updateFromGameState (Some gs) s) = cardIds s ∩ stateIds gs) /\
  (forall c, c ∈ Scene.cards s -> Scene.id c ∉ stateIds gs ->
     (Scene.id c ∉ cardIds (Scene.updateFromGameState (Some gs) s)) /\
     (Scene.mesh c ∉ Scene.scene (Scene.updateFromGameState (Some gs) s))) /\
  sceneOk (Scene.updateFromGameState (Some gs) s).
Proof.
  intros Hok. unfold Scene.updateFromGameState.
  set (s0 := Scene.lockInput (Scene.set_startingPlaceholder false s)).
  destruct (lockInput_fields (Scene.set_startingPlaceholder false s))
    as (Hc0 & Hs0 & Hn0 & Ht0). fold s0 in Hc0, Hs0, Hn0, Ht0. simpl in *.
  assert (Hok0 : sceneOk s0) by (by apply (sceneOk_ext s)).
  set (s1 := Scene.removeOld (Wire.cards gs) s0).
  destruct (removeOld_spec (Wire.cards gs) s0 Hok0) as (Hc1 & Ht1 & Hok1 & Hgone1).
  fold s1 in Hc1, Ht1, Hok1, Hgone1.
  pose proof (removeOld_nextHandle (Wire.cards gs) s0) as Hn1. fold s1 in Hn1.
  set (s2 := foldl Scene.createMissing s1 (Wire.cards gs)).
  destruct (createAll_spec (Wire.cards gs) s1 Hok1)
    as (Hok2 & Ht2 & Hk2 & Hin2 & Hall2 & Hno2 & Hsc2 & Hn2).
  fold s2 in Hok2, Ht2, Hk2, Hin2, Hall2, Hno2, Hsc2, Hn2.
  assert (Hsub2 : forall x, x ∈ Scene.cards s2 ->
                            Scene.id x ∈ Wire.id <$> Wire.cards gs).
  { intros x Hx. destruct (Hin2 x Hx) as [Hx1|Hx1]; [|done].
    rewrite Hc1 in Hx1. by apply list_elem_of_filter in Hx1 as [? _]. }
  rewrite (removeExtra_nothing (Wire.cards gs) (Scene.cards s2) s2 Hsub2).
  set (s4 := foldl Scene.syncState s2 (Wire.cards gs)).
  destruct (syncAll_spec (Wire.cards gs) s2 Hok2) as (Hok4 & Hi4 & Hs4).
  fold s4 in Hok4, Hi4, Hs4.
  destruct (releaseInput_fields s4) as (Hc5 & Hs5 & Hn5 & Hl5).
  assert (Hok5 : sceneOk (Scene.releaseInput s4)) by (by apply (sceneOk_ext s4)).
  assert (Hids : forall i, i ∈ cardIds (Scene.releaseInput s4) <->
                           i ∈ Scene.id <$> Scene.cards s2).
  { intros i. unfold cardIds. by rewrite elem_of_list_to_set, Hc5, Hi4. }
  assert (Hst : forall i, i ∈ stateIds gs <-> i ∈ Wire.id <$> Wire.cards gs).
  { intros i. unfold stateIds. by rewrite elem_of_list_to_set. }
  split.
  { intros i Hi. apply Hids in Hi. apply list_elem_of_fmap in Hi as (x & -> & Hx).
    apply Hst. by apply Hsub2. }
  split.
  { intros Hsome. apply set_eq. intros i. rewrite Hids, Hst. split.
    - intros Hi. apply list_elem_of_fmap in Hi as (x & -> & Hx). by apply Hsub2.
    - apply Hall2. by rewrite Ht1, Ht0. }
  split.
  { intros Hnone. apply set_eq. intros i.
    rewrite Hids, elem_of_intersection, Hst.
    rewrite Hno2 by (by rewrite Ht1, Ht0).
    unfold cardIds. rewrite elem_of_list_to_set, Hc1, Hc0. split.
    - intros Hi. apply list_elem_of_fmap in Hi as (x & -> & Hx).
      apply list_elem_of_filter in Hx as [Hx1 Hx2].
      split; [by apply list_elem_of_fmap_2|done].
    - intros [Hi Hg]. apply list_elem_of_fmap in Hi as (x & -> & Hx).
      apply list_elem_of_fmap_2. by apply list_elem_of_filter. }
  split.
  { intros c Hc Hout. rewrite Hst in Hout. split.
    - rewrite Hids. intros Hi. apply list_elem_of_fmap in Hi as (x & Hx & Hxin).
      apply Hout. rewrite Hx. by apply Hsub2.
    - rewrite Hs5, Hs4. intros Hm.
      destruct (Hsc2 _ Hm) as [Hm1|Hm1].
      + revert Hm1. apply Hgone1; [by rewrite Hc0|done].
      + destruct Hok as (Hsc & _ & Hlt & _).
        assert (Hmc : Scene.mesh c ∈ Scene.scene s)
          by (apply Hsc; by apply list_elem_of_fmap_2).
        specialize (Hlt _ Hmc). lia. }
  done.
Qed.

(** C7, as amended.  A call of updateFromGameState that starts while no
    other call waits, and during which no other call starts, ends after
    at most one resumption per card and one more; clicks and timers may
    run between its awaits.  When it has ended, every card object of a
    previous board whose id is not in the state is gone from the [cards]
    array and its model from the scene, so the ids held by the scene are
    among the ids of the state.  They are exactly the ids of the state
    when the card model was loaded; without a model no card object is
    created and only the objects already there for ids of the state
    stay.  The scene graph and the array agree afterwards. *)
Theorem scene_cards_follow_state
    (gs : Wire.GameState) (es : list SceneAsync.Event) (g : SceneInput.Stage) :
  sceneOk (SceneInput.st g) ->
  Forall (fun e => arrives e = false) es ->
  SceneAsync.calls (callThen gs es g) = [] ->
  cardIds (sceneOf (callThen gs es g)) ⊆ stateIds gs /\
  (is_Some (Scene.fbxTemplate (SceneInput.st g)) ->
     cardIds (sceneOf (callThen gs es g)) = stateIds gs) /\
  (Scene.fbxTemplate (SceneInput.st g) = None ->
     cardIds (sceneOf (callThen gs es g))
     = cardIds (SceneInput.st g) ∩ stateIds gs) /\
  (forall c, c ∈ Scene.cards (SceneInput.st g) -> Scene.id c ∉ stateIds gs ->
     (Scene.id c ∉ cardIds (sceneOf (callThen gs es g))) /\
     (Scene.mesh c ∉ Scene.scene (sceneOf (callThen gs es g)))) /\
  sceneIds (sceneOf (callThen gs es g)) = cardIds (sceneOf (callThen gs es g)) /\
  sceneOk (sceneOf (callThen gs es g)) /\
  SceneAsync.calls
    (callThen gs (replicate (S (length (Wire.cards gs))) (SceneAsync.Resume 0)) g)
  = [].
Proof.
  intros Hok Hes Hdone.
  pose proof (call_alone gs es g Hok Hes Hdone) as Hsame.
  pose proof Hsame as (Hc & Hs & _ & _).
  destruct (update_cards gs (SceneInput.st g) Hok) as (H1 & H2 & H3 & H4 & H5).
  assert (Hids : cardIds (sceneOf (callThen gs es g))
                 = cardIds (Scene.updateFromGameState (Some gs) (SceneInput.st g)))
    by (unfold cardIds; by rewrite Hc).
  assert (Hok' : sceneOk (sceneOf (callThen gs es g)))
    by (by apply (sameCards_sceneOk _ _ (sameCards_sym _ _ Hsame))).
  split; [by rewrite Hids|]. split; [by rewrite Hids|].
  split; [by rewrite Hids|]. split; [by rewrite Hids, Hs|].
  split; [by apply sceneOk_ids|]. split; [done|].
  by rewrite call_uninterrupted.
Qed.

Lemma scene_cards_follow_state_witness :
  cardIds (sceneOf (callThen oneUp
             [SceneAsync.Resume 0; SceneAsync.Click (Some [Some 2%nat]);
              SceneAsync.Elapse 600; SceneAsync.Resume 0]
             (readyStage (Some (Scene.mkTemplate 1)))))
  = stateIds oneUp.
Proof.
  refine (proj1 (proj2 (scene_cards_follow_state oneUp _
                          (readyStage (Some (Scene.mkTemplate 1))) _ _ _)) _).
  - unfold sceneOk, readyStage, emptyScene. simpl.
    split; [done|]. split; [constructor|].
    split; intros x Hx; by apply elem_of_nil in Hx.
  - by repeat constructor.
  - reflexivity.
  - simpl. by eexists.
Defined.

(** Without a card model the scene stays empty whatever the state holds;
    and a call that is overtaken ends with the cards of another state:
    the call for [oneUp] waits for the flip of card 1, the call for
    [newBoard] runs through, and when the first call has ended the scene
    holds the cards 7 and 8. *)
Lemma scene_differs_from_the_state :
  (sceneOk (emptyScene None) /\
   SceneAsync.calls
     (callThen bothDown [SceneAsync.Resume 0] (readyStage None)) = [] /\
   Scene.cards
     (sceneOf (callThen bothDown [SceneAsync.Resume 0] (readyStage None))) = [] /\
   cardIds (sceneOf (callThen bothDown [SceneAsync.Resume 0] (readyStage None)))
   <> stateIds bothDown) /\
  (SceneAsync.calls
     (callThen oneUp [SceneAsync.Resume 0; SceneAsync.Arrive (Some newBoard)]
        (readyStage (Some (Scene.mkTemplate 1))))
   = [SceneAsync.AwaitFlip [Wire.mkCard 2 JS.Null false false] 0
                           (Wire.mkCard 1 (JS.Str "A") true false);
      SceneAsync.AwaitTextures newBoard] /\
   SceneAsync.calls
     (callThen oneUp
        [SceneAsync.Resume 0; SceneAsync.Arrive (Some newBoard);
         SceneAsync.Resume 1; SceneAsync.Resume 0]
        (readyStage (Some (Scene.mkTemplate 1)))) = [] /\
   Scene.id <$> Scene.cards
     (sceneOf (callThen oneUp
        [SceneAsync.Resume 0; SceneAsync.Arrive (Some newBoard);
         SceneAsync.Resume 1; SceneAsync.Resume 0]
        (readyStage (Some (Scene.mkTemplate 1))))) = [7; 8]%nat /\
   ~ cardIds
       (sceneOf (callThen oneUp
          [SceneAsync.Resume 0; SceneAsync.Arrive (Some newBoard);
           SceneAsync.Resume 1; SceneAsync.Resume 0]
          (readyStage (Some (Scene.mkTemplate 1))))) ⊆ stateIds oneUp).
Proof.
  split.
  - split.
    { unfold sceneOk, emptyScene. simpl. split; [done|]. split; [constructor|].
      split; intros x Hx; by apply elem_of_nil in Hx. }
    split; [reflexivity|]. split; [reflexivity|].
    assert (Hc : Scene.cards
      (sceneOf (callThen bothDown [SceneAsync.Resume 0] (readyStage None))) = [])
      by reflexivity.
    unfold cardIds, stateIds. rewrite Hc. simpl. intros H.
    assert (Hin : 1%nat ∈ (∅ : gset nat)).
    { rewrite H. apply elem_of_union. left. by apply elem_of_singleton. }
    by apply not_elem_of_empty in Hin.
  - split; [reflexivity|]. split; [reflexivity|].
    assert (Hc : Scene.id <$> Scene.cards
     (sceneOf (callThen oneUp
        [SceneAsync.Resume 0; SceneAsync.Arrive (Some newBoard);
         SceneAsync.Resume 1; SceneAsync.Resume 0]
        (readyStage (Some (Scene.mkTemplate 1))))) = [7; 8]%nat) by reflexivity.
    split; [exact Hc|]. unfold cardIds, stateIds. rewrite Hc. simpl. intros H.
    assert (Hin : 7%nat ∈ ({[1%nat]} ∪ ({[2%nat]} ∪ ∅) : gset nat)).
    { apply H. apply elem_of_union. left. by apply elem_of_singleton. }
    rewrite !elem_of_union, !elem_of_singleton, elem_of_empty in Hin.
    destruct Hin as [?|[?|?]]; lia.
Qed.

(** A call that waits for its textures while a later call runs through
    puts the old board back: the scene ends with the cards of [oneUp]
    although [newBoard] came last. *)
Example overtaken_state_wins :
  SceneAsync.calls
    (callThen oneUp
       [SceneAsync.Arrive (Some newBoard); SceneAsync.Resume 1;
        SceneAsync.Resume 0; SceneAsync.Resume 0]
       (readyStage (Some (Scene.mkTemplate 1)))) = [] /\
  Scene.id <$> Scene.cards
    (sceneOf (callThen oneUp
       [SceneAsync.Arrive (Some newBoard); SceneAsync.Resume 1;
        SceneAsync.Resume 0; SceneAsync.Resume 0]
       (readyStage (Some (Scene.mkTemplate 1))))) = [1; 2]%nat.
Proof. split; reflexivity. Qed.

(** ** Board generation *)

Lemma swap_Permutation {A} (i j : nat) (l : list A) : Server.swap i j l ≡ₚ l.
Proof.
  unfold Server.swap.
  destruct (l !! i) as [x|] eqn:Hi; [|done].
  destruct (l !! j) as [y|] eqn:Hj; [|done].
  by apply Permutation_insert_swap.
Qed.

Lemma shuffle_Permutation {A} (random : nat -> nat) (l : list A) :
  Server.shuffle random l ≡ₚ l.
Proof.
  unfold Server.shuffle. generalize (length l - 1)%nat. intros i. revert l.
  induction i as [|i IH]; intros l; simpl; [done|].
  rewrite IH. apply swap_Permutation.
Qed.

Lemma number_spec (from : nat) (values : list Server.Symbol) :
  Server.id <$> Server.number from values = seq from (length values) /\
  Server.value <$> Server.number from values = values /\
  Forall (fun c => Server.isFaceUp c = false /\ Server.isMatched c = false)
         (Server.number from values).
Proof.
  revert from. induction values as [|v vs IH]; intros from; [done|].
  destruct (IH (S from)) as (H1 & H2 & Hf).
  cbn [Server.number length seq]. rewrite !fmap_cons, H1, H2.
  split; [done|]. split; [done|]. by constructor.
Qed.

Lemma occurrences_values (v : Server.Symbol) (board : list Server.Card) :
  occurrences v board = length (filter (fun x => x = v) (Server.value <$> board)).
Proof.
  unfold occurrences. induction board as [|c board IH]; [done|].
  cbn [fmap list_fmap]. destruct (decide (Server.value c = v)) as [He|He].
  - rewrite !filter_cons_True by done. simpl. by rewrite IH.
  - by rewrite !filter_cons_False.
Qed.

Lemma duplicate_count (v : Server.Symbol) (symbols : list Server.Symbol) :
  NoDup symbols ->
  length (filter (fun x => x = v) (Server.duplicate symbols))
  = if decide (v ∈ symbols) then 2%nat else 0%nat.
Proof.
  unfold Server.duplicate. induction symbols as [|x xs IH]; intros Hnd; [done|].
  apply NoDup_cons in Hnd as [Hx Hnd]. specialize (IH Hnd). simpl.
  destruct (decide (x = v)) as [->|Hne].
  - rewrite !filter_cons_True by done. simpl. rewrite IH.
    destruct (decide (v ∈ xs)) as [|_]; [done|].
    destruct (decide (v ∈ v :: xs)) as [|Hn]; [done|].
    exfalso. apply Hn, list_elem_of_here.
  - rewrite !filter_cons_False by done. rewrite IH.
    destruct (decide (v ∈ xs)) as [Hin|Hin];
      destruct (decide (v ∈ x :: xs)) as [Hin'|Hin']; try done.
    + exfalso. by apply Hin', list_elem_of_further.
    + exfalso. apply elem_of_cons in Hin' as [->|Hin']; done.
Qed.

Lemma duplicate_elem (v : Server.Symbol) (symbols : list Server.Symbol) :
  v ∈ Server.duplicate symbols <-> v ∈ symbols.
Proof.
  unfold Server.duplicate. induction symbols as [|x xs IH]; simpl; [done|].
  rewrite !elem_of_cons, IH. tauto.
Qed.

Lemma duplicate_length (symbols : list Server.Symbol) :
  length (Server.duplicate symbols) = (2 * length symbols)%nat.
Proof.
  unfold Server.duplicate. induction symbols as [|x xs IH]; simpl; [done|].
  rewrite IH. lia.
Qed.

(** C4.  For every pair count that the symbol set can serve, [generate]
    returns a board of exactly twice as many cards, in which the value of
    every card is carried by exactly two cards, all card ids differ, and
    every card is face down and unmatched; the values come from the
    symbol set. *)
Theorem generate_board_shape (pairCount : nat) (symbolSet : gset Server.Symbol)
    (random : nat -> nat) :
  (pairCount <= size symbolSet)%nat ->
  exists board,
    Server.generate pairCount symbolSet random = inr board /\
    length board = (2 * pairCount)%nat /\
    (forall c, c ∈ board -> occurrences (Server.value c) board = 2%nat) /\
    (forall v, occurrences v board = 2%nat \/ occurrences v board = 0%nat) /\
    NoDup (Server.id <$> board) /\
    (forall c, c ∈ board ->
       Server.isFaceUp c = false /\ Server.isMatched c = false) /\
    (forall c, c ∈ board -> Server.value c ∈ symbolSet).
Proof.
  intros Hle. unfold Server.generate. rewrite bool_decide_eq_true_2 by done.
  set (selected := take pairCount (elements symbolSet)).
  set (plain := Server.number 0 (Server.duplicate selected)).
  exists (Server.shuffle random plain). split; [done|].
  pose proof (shuffle_Permutation random plain) as Hperm.
  destruct (number_spec 0 (Server.duplicate selected)) as (Hids & Hvals & Hdown).
  fold plain in Hids, Hvals, Hdown.
  assert (Hsel : NoDup selected).
  { eapply sublist_NoDup; [apply (NoDup_elements symbolSet)|apply sublist_take]. }
  assert (Hlen : length selected = pairCount).
  { unfold selected. rewrite length_take. unfold size, set_size in Hle.
    simpl in Hle. lia. }
  assert (Hocc : forall v, occurrences v (Server.shuffle random plain)
                 = if decide (v ∈ selected) then 2%nat else 0%nat).
  { intros v. rewrite occurrences_values, Hperm, Hvals.
    by apply duplicate_count. }
  assert (Hval : forall c, c ∈ Server.shuffle random plain ->
                           Server.value c ∈ selected).
  { intros c Hc. rewrite Hperm in Hc. apply duplicate_elem. rewrite <- Hvals.
    by apply list_elem_of_fmap_2. }
  split.
  { rewrite Hperm. unfold plain.
    rewrite <- (length_fmap Server.value), (proj1 (proj2 (number_spec 0 _))).
    rewrite duplicate_length. lia. }
  split.
  { intros c Hc. rewrite Hocc. by rewrite decide_True by by apply Hval. }
  split.
  { intros v. rewrite Hocc. destruct (decide (v ∈ selected)); [by left|by right]. }
  split.
  { rewrite Hperm, Hids. apply NoDup_seq. }
  split.
  { intros c Hc. rewrite Hperm in Hc.
    by apply (proj1 (Forall_forall _ _) Hdown). }
  intros c Hc. apply elem_of_elements. specialize (Hval c Hc).
  apply elem_of_take in Hval as (i & Hi & _). by eapply list_elem_of_lookup_2.
Qed.

Lemma generate_board_shape_witness :
  exists board,
    Server.generate 2 {["A"; "B"; "C"]} (fun i => i) = inr board /\
    length board = 4%nat.
Proof.
  destruct (generate_board_shape 2 {["A"; "B"; "C"]} (fun i => i))
    as (board & Hb & Hlen & _).
  - vm_compute. lia.
  - exists board. by split.
Defined.

(** ** The turn resolver *)

Lemma find_id (x : nat) (l : list Server.Card) (c : Server.Card) :
  List.find (fun c => bool_decide (Server.id c = x)) l = Some c ->
  Server.id c = x /\ c ∈ l.
Proof.
  induction l as [|y l IH]; simpl; [done|].
  case_bool_decide as Hy.
  - intros [= ->]. split; [done|apply list_elem_of_here].
  - intros H. destruct (IH H). split; [done|]. by apply list_elem_of_further.
Qed.

Lemma find_fmap (f : Server.Card -> Server.Card) (x : nat) (l : list Server.Card) :
  (forall c, Server.id (f c) = Server.id c) ->
  List.find (fun c => bool_decide (Server.id c = x)) (f <$> l)
  = f <$> List.find (fun c => bool_decide (Server.id c = x)) l.
Proof.
  intros Hf. induction l as [|y l IH]; [done|].
  cbn [fmap list_fmap List.find]. rewrite Hf.
  by case_bool_decide.
Qed.

Lemma findCard_setFaceUp (x y : nat) (up : bool) (g : Server.Game) :
  Server.findCard x (Server.setFaceUp y up g)
  = (fun c => if bool_decide (Server.id c = y)
              then Server.mkCard (Server.id c) (Server.value c) up
                                 (Server.isMatched c)
              else c) <$> Server.findCard x g.
Proof.
  unfold Server.findCard, Server.setFaceUp. simpl. apply find_fmap.
  intros c. by case_bool_decide.
Qed.

Lemma findCard_cards (x : nat) (g1 g2 : Server.Game) :
  Server.cards g1 = Server.cards g2 -> Server.findCard x g1 = Server.findCard x g2.
Proof. unfold Server.findCard. by intros ->. Qed.

Lemma flipBack_eq (g : Server.Game) (a b : nat) :
  Server.flipBackTimer g = true -> Server.flippedCardIds g = [a; b] ->
  Server.flipBack g
  = Server.set_status Server.playing
      (Server.advanceTurn
         (Server.set_flippedCardIds []
            (Server.setFaceUp a false
               (Server.setFaceUp b false (Server.set_flipBackTimer false g))))).
Proof.
  intros Ht Hf. unfold Server.flipBack. rewrite Ht.
  cbn [Server.flippedCardIds Server.set_flipBackTimer]. by rewrite Hf.
Qed.

(** Running the flip-back callback on a revealed mismatch. *)
Lemma flipBack_resolves (g : Server.Game) (a b : nat) (ca cb : Server.Card) :
  Server.flipBackTimer g = true ->
  Server.flippedCardIds g = [a; b] -> a <> b ->
  Server.findCard a g = Some ca -> Server.findCard b g = Some cb ->
  is_Some (Server.players g !! Server.activePlayerIndex g) ->
  resolvedFrom a b g (Server.flipBack g).
Proof.
  intros Ht Hf Hab Ha Hb Hp. rewrite (flipBack_eq g a b Ht Hf).
  destruct (find_id _ _ _ Ha) as [Hia _]. destruct (find_id _ _ _ Hb) as [Hib _].
  set (g2 := Server.setFaceUp a false
               (Server.setFaceUp b false (Server.set_flipBackTimer false g))).
  assert (Ha2 : Server.findCard a g2
                = Some (Server.mkCard (Server.id ca) (Server.value ca) false
                                      (Server.isMatched ca))).
  { unfold g2. rewrite !findCard_setFaceUp.
    rewrite (findCard_cards a (Server.set_flipBackTimer false g) g eq_refl), Ha.
    simpl. rewrite (bool_decide_eq_false_2 (Server.id ca = b)) by congruence.
    by rewrite bool_decide_eq_true_2. }
  assert (Hb2 : Server.findCard b g2
                = Some (Server.mkCard (Server.id cb) (Server.value cb) false
                                      (Server.isMatched cb))).
  { unfold g2. rewrite !findCard_setFaceUp.
    rewrite (findCard_cards b (Server.set_flipBackTimer false g) g eq_refl), Hb.
    simpl. rewrite (bool_decide_eq_true_2 (Server.id cb = b)) by done. simpl.
    by rewrite bool_decide_eq_false_2 by congruence. }
  unfold resolvedFrom. split.
  { exists (Server.mkCard (Server.id ca) (Server.value ca) false
                           (Server.isMatched ca)),
           (Server.mkCard (Server.id cb) (Server.value cb) false
                           (Server.isMatched cb)).
    split; [|split; [|done]].
    - erewrite findCard_cards; [exact Ha2|done].
    - erewrite findCard_cards; [exact Hb2|done]. }
  split.
  { intros c Hc Hid. simpl in Hc.
    apply list_elem_of_fmap in Hc as (c1 & -> & Hc1).
    apply list_elem_of_fmap in Hc1 as (c0 & -> & Hc0).
    repeat case_bool_decide; simpl in *; try done.
    destruct Hid; congruence. }
  split; [done|]. split; [done|]. split; [done|]. split; [|done].
  destruct Hp as [p Hp]. apply lookup_lt_Some in Hp. lia.
Qed.

Lemma inv_create gid n p syms random g :
  Server.createGame gid n p syms random = inr g -> resolverInv g.
Proof.
  unfold Server.createGame. case_bool_decide; [done|].
  destruct (Server.generate p syms random); [done|]. by intros [= <-].
Qed.

(** A successful flip, case by case. *)
Lemma flip_cases (requester b : nat) (g g' : Server.Game) :
  resolverInv g -> Server.flip requester b g = inr g' ->
  exists card,
    Server.status g = Server.playing /\
    is_Some (Server.players g !! Server.activePlayerIndex g) /\
    Server.findCard b g = Some card /\ Server.isFaceUp card = false /\
    ((Server.flippedCardIds g = [] /\
      g' = Server.set_flippedCardIds [b] (Server.setFaceUp b true g))
     \/
     (exists a ca,
        Server.flippedCardIds g = [a] /\ Server.findCard a g = Some ca /\
        Server.isFaceUp ca = true /\ a <> b /\
        ((Server.value ca = Server.value card /\
          Server.flippedCardIds g' = [] /\
          Server.flipBackTimer g' = false /\
          (Server.status g' = Server.playing \/ Server.status g' = Server.won))
         \/
         (Server.value ca <> Server.value card /\
          g' = Server.set_flipBackTimer true
                 (Server.set_status Server.resolving
                    (Server.set_flippedCardIds [a; b]
                       (Server.setFaceUp b true g))))))).
Proof.
  intros Hinv Hflip. unfold Server.flip in Hflip.
  case_bool_decide as Hst; [done|].
  destruct (Server.players g !! Server.activePlayerIndex g) as [p|] eqn:Hp;
    [|done].
  destruct (Server.findCard b g) as [card|] eqn:Hcard; [|done].
  case_bool_decide as Hreq; [done|].
  destruct (Server.isMatched card) eqn:Hm; [done|].
  destruct (Server.isFaceUp card) eqn:Hup; [done|].
  case_bool_decide as Hlen; [done|].
  exists card. split; [done|]. split; [by eexists|]. split; [done|].
  split; [done|].
  unfold resolverInv in Hinv. rewrite Hst in Hinv.
  destruct Hinv as [Ht [Hnil|(a & ca & Hfa & Hca & Hupa)]].
  - left. split; [done|].
    cbn [Server.flippedCardIds Server.set_flippedCardIds Server.setFaceUp
         Server.set_cards] in Hflip.
    rewrite Hnil in Hflip. cbn [app] in Hflip. by injection Hflip as <-.
  - right. exists a, ca.
    assert (Hab : a <> b).
    { intros ->. rewrite Hca in Hcard. injection Hcard as ->. congruence. }
    destruct (find_id _ _ _ Hca) as [Hida _].
    destruct (find_id _ _ _ Hcard) as [Hidb _].
    split; [done|]. split; [done|]. split; [done|]. split; [done|].
    cbn [Server.flippedCardIds Server.set_flippedCardIds Server.setFaceUp
         Server.set_cards] in Hflip.
    rewrite Hfa in Hflip. cbn [app] in Hflip.
    set (g3 := Server.set_status Server.resolving
                 (Server.set_flippedCardIds [a; b] (Server.setFaceUp b true g))).
    assert (Ha3 : Server.findCard a g3 = Some ca).
    { rewrite (findCard_cards a g3 (Server.setFaceUp b true g) eq_refl).
      rewrite findCard_setFaceUp, Hca. simpl.
      by rewrite bool_decide_eq_false_2 by congruence. }
    assert (Hb3 : Server.findCard b g3
                  = Some (Server.mkCard (Server.id card) (Server.value card)
                                        true (Server.isMatched card))).
    { rewrite (findCard_cards b g3 (Server.setFaceUp b true g) eq_refl).
      rewrite findCard_setFaceUp, Hcard. simpl.
      by rewrite bool_decide_eq_true_2. }
    change (match Server.findCard a g3, Server.findCard b g3 with
            | Some ca0, Some cb0 =>
                if bool_decide (Server.value ca0 = Server.value cb0)
                then inr (Server.set_status
                     (if Server.allMatched
                           (Server.set_flippedCardIds []
                              (Server.addScore (Server.slotIndex p) 1
                                 (Server.setMatched b (Server.setMatched a g3))))
                      then Server.won else Server.playing)
                     (Server.set_flippedCardIds []
                        (Server.addScore (Server.slotIndex p) 1
                           (Server.setMatched b (Server.setMatched a g3)))))
                else inr (Server.set_flipBackTimer true g3)
            | _, _ => inr (Server.set_flipBackTimer true g3)
            end = (inr g' : Server.Error + Server.Game)) in Hflip.
    rewrite Ha3, Hb3 in Hflip. cbn [Server.value] in Hflip.
    case_bool_decide as Hval.
    + left. injection Hflip as <-. split; [done|]. split; [done|].
      split; [done|]. cbn [Server.status Server.set_status].
      match goal with |- context [if ?c then _ else _] => destruct c end;
        [by right|by left].
    + right. injection Hflip as <-. by split.
Qed.

Lemma inv_same_core (g g' : Server.Game) :
  Server.status g' = Server.status g ->
  Server.flipBackTimer g' = Server.flipBackTimer g ->
  Server.flippedCardIds g' = Server.flippedCardIds g ->
  Server.cards g' = Server.cards g ->
  (is_Some (Server.players g !! Server.activePlayerIndex g) ->
   is_Some (Server.players g' !! Server.activePlayerIndex g')) ->
  resolverInv g -> resolverInv g'.
Proof.
  intros Hs Ht Hf Hc Hp. unfold resolverInv, mismatchRevealed.
  rewrite Hs, Ht, Hf. unfold Server.findCard. rewrite Hc.
  destruct (Server.status g); try done.
  intros (? & ? & ?). auto.
Qed.

Lemma inv_flip (requester b : nat) (g g' : Server.Game) :
  resolverInv g -> Server.flip requester b g = inr g' -> resolverInv g'.
Proof.
  intros Hinv Hflip.
  destruct (flip_cases requester b g g' Hinv Hflip)
    as (card & Hst & Hp & Hcard & Hup & Hcases).
  assert (Ht : Server.flipBackTimer g = false).
  { unfold resolverInv in Hinv. rewrite Hst in Hinv. by destruct Hinv. }
  destruct (find_id _ _ _ Hcard) as [Hidb _].
  assert (Hb' : Server.findCard b (Server.setFaceUp b true g)
                = Some (Server.mkCard (Server.id card) (Server.value card)
                                      true (Server.isMatched card))).
  { rewrite findCard_setFaceUp, Hcard. simpl. by rewrite bool_decide_eq_true_2. }
  destruct Hcases as [[Hnil ->]|(a & ca & Hfa & Hca & Hupa & Hab & Hcases)].
  - unfold resolverInv. cbn [Server.status Server.set_flippedCardIds
                             Server.setFaceUp Server.set_cards].
    rewrite Hst. split; [done|]. right.
    exists b, (Server.mkCard (Server.id card) (Server.value card)
                             true (Server.isMatched card)).
    split; [done|]. split; [|reflexivity].
    erewrite findCard_cards; [exact Hb'|done].
  - destruct Hcases as [(_ & Hf' & Ht' & Hs')|(Hne & ->)].
    + unfold resolverInv. destruct Hs' as [-> | ->]; auto.
    + destruct (find_id _ _ _ Hca) as [Hida _].
      unfold resolverInv. cbn [Server.status Server.set_flipBackTimer
                               Server.set_status].
      split; [done|]. split; [|done].
      exists a, b, ca, (Server.mkCard (Server.id card) (Server.value card)
                                      true (Server.isMatched card)).
      split; [done|]. split; [done|]. split.
      { transitivity (Server.findCard a (Server.setFaceUp b true g));
          [reflexivity|].
        rewrite findCard_setFaceUp, Hca. simpl.
        by rewrite bool_decide_eq_false_2 by congruence. }
      split; [erewrite findCard_cards; [exact Hb'|done]|].
      done.
Qed.

Lemma inv_flipBack (g : Server.Game) : resolverInv g -> resolverInv (Server.flipBack g).
Proof.
  intros Hinv. destruct (Server.flipBackTimer g) eqn:Ht.
  - unfold resolverInv in Hinv.
    destruct (Server.status g) eqn:Hst; try (destruct Hinv; congruence).
    destruct Hinv as (_ & (a & b & ca & cb & Hf & Hab & Ha & Hb & _) & Hp).
    destruct (flipBack_resolves g a b ca cb Ht Hf Hab Ha Hb Hp)
      as (_ & _ & Hf' & _ & _ & _ & Hs' & Ht').
    unfold resolverInv. rewrite Hs'. auto.
  - unfold Server.flipBack. by rewrite Ht.
Qed.

Lemma inv_step (a : Server.Action) (g : Server.Game) :
  resolverInv g -> resolverInv (Server.handleAction a g).
Proof.
  intros Hinv. destruct a as [label conn|requester b| |random|slot|slot conn];
    simpl.
  - unfold Server.joinGame. case_bool_decide as Hfull; [done|].
    cbn [Server.status Server.set_players].
    case_bool_decide as Hw.
    + unfold resolverInv in *. rewrite Hw in Hinv. destruct Hinv as [Ht Hf].
      unfold Server.statusFor. case_bool_decide; simpl; auto.
    + revert Hinv. apply inv_same_core; try done.
      simpl. intros [p Hp]. exists p. by apply lookup_app_l_Some.
  - destruct (Server.flip requester b g) as [e|g'] eqn:Hflip; [done|].
    by eapply inv_flip.
  - by apply inv_flipBack.
  - unfold Server.reset.
    destruct (Server.generate (Server.pairCount g) (Server.symbolSet g) random);
      [done|].
    unfold resolverInv, Server.statusFor. simpl. case_bool_decide; simpl; auto.
  - revert Hinv. apply inv_same_core; try done.
    simpl. intros [p Hp]. rewrite list_lookup_fmap, Hp. by eexists.
  - revert Hinv. apply inv_same_core; try done.
    simpl. intros [p Hp]. rewrite list_lookup_fmap, Hp. by eexists.
Qed.

Lemma reachable_inv (g : Server.Game) : Server.reachable g -> resolverInv g.
Proof.
  induction 1 as [gid n p syms random g Hc|a g _ IH];
    [by eapply inv_create | by apply inv_step].
Qed.

(** C3.  In every reachable game, flipping a second card whose value
    differs from the first one leaves the game resolving with both cards
    revealed and the flip-back scheduled; and in every reachable game
    that is resolving, a mismatched pair is revealed and, when the reveal
    delay is over, both cards are face down again, no card is flipped,
    the turn has moved on by one modulo the number of players, and the
    game is playing. *)
Theorem no_match_is_resolved (g : Server.Game) :
  Server.reachable g ->
  (forall requester a b ca cb g1,
     Server.flippedCardIds g = [a] ->
     Server.findCard a g = Some ca -> Server.findCard b g = Some cb ->
     Server.value ca <> Server.value cb ->
     Server.flip requester b g = inr g1 ->
     Server.status g1 = Server.resolving /\
     Server.flipBackTimer g1 = true /\
     Server.flippedCardIds g1 = [a; b] /\
     resolvedFrom a b g1 (Server.handleAction Server.RevealDelayOver g1)) /\
  (Server.status g = Server.resolving ->
     mismatchRevealed g /\
     exists a b,
       Server.flippedCardIds g = [a; b] /\
       resolvedFrom a b g (Server.handleAction Server.RevealDelayOver g)).
Proof.
  intros Hreach. pose proof (reachable_inv g Hreach) as Hinv.
  assert (Hres : forall g0, resolverInv g0 ->
            Server.status g0 = Server.resolving ->
            mismatchRevealed g0 /\
            exists a b, Server.flippedCardIds g0 = [a; b] /\
              resolvedFrom a b g0 (Server.handleAction Server.RevealDelayOver g0)).
  { intros g0 Hinv0 Hst. unfold resolverInv in Hinv0. rewrite Hst in Hinv0.
    destruct Hinv0 as (Ht & Hmis & Hp). split; [done|].
    destruct Hmis as (a & b & ca & cb & Hf & Hab & Ha & Hb & _).
    exists a, b. split; [done|]. simpl. by eapply flipBack_resolves. }
  split; [|by apply Hres].
  intros requester a b ca cb g1 Hfa Hca Hcb Hne Hflip.
  pose proof (inv_flip requester b g g1 Hinv Hflip) as Hinv1.
  destruct (flip_cases requester b g g1 Hinv Hflip)
    as (card & Hst & Hp & Hcard & Hup & Hcases).
  rewrite Hcb in Hcard. injection Hcard as <-.
  destruct Hcases as [[Hnil _]|(a' & ca' & Hfa' & Hca' & _ & _ & Hcases)];
    [congruence|].
  rewrite Hfa in Hfa'. injection Hfa' as <-.
  rewrite Hca in Hca'. injection Hca' as <-.
  destruct Hcases as [(Heq & _)|(_ & Hg1)]; [done|].
  assert (Hs1 : Server.status g1 = Server.resolving) by (by rewrite Hg1).
  split; [done|]. split; [by rewrite Hg1|]. split; [by rewrite Hg1|].
  destruct (Hres g1 Hinv1 Hs1) as (_ & a2 & b2 & Hf2 & Hr2).
  rewrite Hg1 in Hf2. simpl in Hf2. injection Hf2 as <- <-. exact Hr2.
Qed.

Lemma no_match_is_resolved_witness :
  Server.status (Server.handleAction (Server.Flip 0 2) demoFirstFlip)
    = Server.resolving /\
  resolvedFrom 0 2
    (Server.handleAction (Server.Flip 0 2) demoFirstFlip)
    (Server.handleAction Server.RevealDelayOver
       (Server.handleAction (Server.Flip 0 2) demoFirstFlip)).
Proof.
  assert (Hr : Server.reachable demoFirstFlip).
  { unfold demoFirstFlip. do 3 apply Server.reach_step.
    apply (Server.reach_create "g" 2 2 {["A"; "B"]} (fun _ => 0%nat)).
    vm_compute. reflexivity. }
  destruct (proj1 (no_match_is_resolved demoFirstFlip Hr) 0%nat 0%nat 2%nat
              (Server.mkCard 0 "A" true false) (Server.mkCard 2 "B" false false)
              (Server.handleAction (Server.Flip 0 2) demoFirstFlip))
    as (Hst & _ & _ & Hres).
  - vm_compute. reflexivity.
  - vm_compute. reflexivity.
  - vm_compute. reflexivity.
  - simpl. discriminate.
  - vm_compute. reflexivity.
  - split; [exact Hst | exact Hres].
Defined.

(** ** The functions on concrete inputs *)

Example escapeHTML_markup :
  Scripts.escapeHTML "<a href='x'>T&J</a>"
  = "&lt;a href=&#39;x&#39;&gt;T&amp;J&lt;/a&gt;".
Proof. reflexivity. Qed.

Example getWinners_tie :
  Scripts.getWinners
    (Wire.mkGameState (Some "g1")
       [Wire.mkPlayer 0 "red" 3; Wire.mkPlayer 1 "blue" 5;
        Wire.mkPlayer 2 "green" 5] 0 [] "won")
  = ([Wire.mkPlayer 1 "blue" 5; Wire.mkPlayer 2 "green" 5], JS.Fin 5).
Proof. reflexivity. Qed.

Example getWinners_nobody :
  Scripts.getWinners (Wire.mkGameState (Some "g1") [] 0 [] "won")
  = ([], JS.NegInfinity).
Proof. reflexivity. Qed.

Example renderCards_board :
  gridView
    (Scripts.renderCards
       (Wire.mkGameState (Some "g") [] 0
          [Wire.mkCard 1 (JS.Str "A") true false;
           Wire.mkCard 2 (JS.Str "B") false true;
           Wire.mkCard 3 JS.Null true false;
           Wire.mkCard 4 (JS.Num 0) true false] "playing")
       Page.fresh)
  = Some (inl [(["card"; "faceup"], "A"); (["card"; "matched"], "?");
               (["card"], "?"); (["card"], "?")]).
Proof. reflexivity. Qed.

Example click_on_matched_card :
  Scripts.cardClick (Wire.mkCard 2 (JS.Str "B") true true)
    (Page.set_currentGameState (Some (wonGame "A")) Page.fresh)
  = Page.set_currentGameState (Some (wonGame "A")) Page.fresh.
Proof. reflexivity. Qed.

Example onError_then_three_seconds :
  Page.errorBox (Scripts.onError "Not your turn" Page.fresh)
    = Some (Scripts.errorMarkup "Not your turn") /\
  Page.errorBox (Page.elapse 2999 (Scripts.onError "Not your turn" Page.fresh))
    = Some (Scripts.errorMarkup "Not your turn") /\
  Page.errorBox (Page.elapse 3000 (Scripts.onError "Not your turn" Page.fresh))
    = Some EmptyString.
Proof. repeat split; vm_compute; reflexivity. Qed.

Example confetti_seven_pieces :
  (fun w => length (Dom.children_of (Dom.body w))) <$>
     Animations.launchFullscreenConfetti (fun _ => 0%Q) (Some 7)
       (Dom.mkWorld (Dom.El "body" [] None []) 0) = Some 1%nat /\
  (fun w => length <$> (Dom.children_of <$> Dom.children_of (Dom.body w))) <$>
     Animator.launchFullscreenConfetti (fun _ => 0%Q) (Some 7)
       (Dom.mkWorld (Dom.El "body" [] None []) 0) = Some [7%nat] /\
  ConfettiSplit.burstPieces 7 = Board.Int 2.
Proof. repeat split; vm_compute; reflexivity. Qed.

Example scene_new_board :
  Scene.id <$> Scene.cards
    (Scene.updateFromGameState
       (Some (Wire.mkGameState (Some "h") [] 0
                [Wire.mkCard 7 JS.Null false false;
                 Wire.mkCard 2 JS.Null false false] "playing"))
       (Scene.updateFromGameState
          (Some (Wire.mkGameState (Some "g") [] 0
                   [Wire.mkCard 1 JS.Null false false;
                    Wire.mkCard 2 JS.Null false false] "playing"))
          (emptyScene (Some (Scene.mkTemplate 1)))))
  = [2%nat; 7%nat].
Proof. vm_compute. reflexivity. Qed.

Example generate_two_pairs :
  (fun c => (Server.id c, Server.value c)) <$> demoBoard
  = [(1%nat, "A"); (2%nat, "B"); (3%nat, "B"); (0%nat, "A")].
Proof. vm_compute. reflexivity. Qed.

Example generate_too_many_pairs :
  Server.generate 3 {["A"; "B"]} (fun _ => 0%nat) = inl Server.ConfigurationError.
Proof. vm_compute. reflexivity. Qed.

Example mismatch_passes_the_turn :
  Server.activePlayerIndex
    (Server.handleAction Server.RevealDelayOver
       (Server.handleAction (Server.Flip 0 2) demoFirstFlip)) = 1%nat /\
  Server.isFaceUp <$> Server.cards
    (Server.handleAction Server.RevealDelayOver
       (Server.handleAction (Server.Flip 0 2) demoFirstFlip))
  = [false; false; false; false].
Proof. split; vm_compute; reflexivity. Qed.

Example match_keeps_the_turn :
  Server.activePlayerIndex (Server.handleAction (Server.Flip 0 1) demoFirstFlip)
    = 0%nat /\
  Server.score <$> Server.players
    (Server.handleAction (Server.Flip 0 1) demoFirstFlip) = [1%nat; 0%nat] /\
  Server.status (Server.handleAction (Server.Flip 0 1) demoFirstFlip)
    = Server.playing.
Proof. repeat split; vm_compute; reflexivity. Qed.

Example snapshot_hides_face_down_values :
  Wire.value <$> Wire.cards (Server.redactedView 1 demoFirstFlip)
  = [JS.Null; JS.Null; JS.Null; JS.Str "A"].
Proof. vm_compute. reflexivity. Qed.

(** * Further properties of the client code *)

(** ** scripts.js: state updates and new games *)

Lemma renderCards_quiet gs c :
  quiet c (Scripts.renderCards gs c) /\
  Page.currentGameState (Scripts.renderCards gs c) = Page.currentGameState c /\
  Page.body (Scripts.renderCards gs c) = Page.body c /\
  Page.hasShownWinPopupForGameId (Scripts.renderCards gs c)
    = Page.hasShownWinPopupForGameId c.
Proof. unfold Scripts.renderCards, quiet. by destruct (Page.cardGrid c). Qed.

Lemma showWinPopup_quiet gs c :
  quiet c (Scripts.showWinPopup gs c).2 /\
  Page.currentGameState (Scripts.showWinPopup gs c).2 = Page.currentGameState c /\
  Page.cardGrid (Scripts.showWinPopup gs c).2 = Page.cardGrid c.
Proof.
  unfold Scripts.showWinPopup, quiet. case_bool_decide; [done|].
  by destruct (Scripts.winTexts gs) as [[[? ?] ?]|].
Qed.

(** X1. A game state whose active index names a player is taken over
    completely: it becomes the stored state, the grid holds exactly one
    element per card of the state, in order and whatever was there
    before, the info box names the active player, and nothing is sent to
    the server.  The background of the grid becomes the colour of the
    active player when that colour is a CSS colour; a colour that is
    none leaves the background as it was, and the empty string removes
    it.  A win overlay can only appear when the status is "won". *)
Theorem state_update_shows_the_state
    (cssColor : string -> option string)
    (gs : Wire.GameState) (w : ScriptsPage.Window) (active : Wire.Player) :
  Wire.players gs !! Wire.activePlayerIndex gs = Some active ->
  (ScriptsPage.onGameStateUpdate cssColor gs w).1 = JS.Returned /\
  Page.currentGameState
    (ScriptsPage.client (ScriptsPage.onGameStateUpdate cssColor gs w).2)
    = Some gs /\
  quiet (ScriptsPage.client w)
        (ScriptsPage.client (ScriptsPage.onGameStateUpdate cssColor gs w).2) /\
  (is_Some (Page.cardGrid (ScriptsPage.client w)) ->
     gridCards (ScriptsPage.client (ScriptsPage.onGameStateUpdate cssColor gs w).2)
       = Scripts.renderCard <$> Wire.cards gs /\
     Page.listenerCard <$>
       gridCards (ScriptsPage.client (ScriptsPage.onGameStateUpdate cssColor gs w).2)
       = Wire.cards gs /\
     ScriptsPage.backgroundColor (ScriptsPage.onGameStateUpdate cssColor gs w).2
       = if bool_decide (Wire.color active = EmptyString) then None
         else match cssColor (Wire.color active) with
              | Some c => Some c
              | None => ScriptsPage.backgroundColor w
              end) /\
  (is_Some (ScriptsPage.gameInfo w) ->
     ScriptsPage.gameInfo (ScriptsPage.onGameStateUpdate cssColor gs w).2
       = Some (ScriptsPage.InfoMarkup
                 (ScriptsPage.gameIdText (Wire.gameId gs))
                 (length (Wire.players gs)) (Wire.status gs)
                 (Wire.color active)
                 (JS.join " | " (Scripts.scoreLine <$> Wire.players gs)))) /\
  (Wire.status gs <> "won" ->
     Page.body (ScriptsPage.client (ScriptsPage.onGameStateUpdate cssColor gs w).2)
       = Page.body (ScriptsPage.client w) /\
     Page.hasShownWinPopupForGameId
       (ScriptsPage.client (ScriptsPage.onGameStateUpdate cssColor gs w).2)
       = Page.hasShownWinPopupForGameId (ScriptsPage.client w)).
Proof.
  intros Hact. unfold ScriptsPage.onGameStateUpdate,
    ScriptsPage.updateGameInfo, ScriptsPage.updateActivePlayerBackground,
    ScriptsPage.assignBackgroundColor.
  rewrite Hact.
  destruct w as [c info bg cs gid]. simpl.
  assert (Hlist : forall l : list Wire.Card,
            Page.listenerCard <$> (Scripts.renderCard <$> l) = l).
  { induction l as [|x l IH]; [done|]. cbn [fmap list_fmap]. rewrite IH.
    f_equal. unfold Scripts.renderCard.
    by destruct (Wire.isFaceUp x && JS.truthy (Wire.value x)). }
  destruct (bool_decide (Wire.color active = EmptyString));
    destruct (cssColor (Wire.color active)) as [col|];
    destruct info as [i|]; simpl; destruct (Page.cardGrid c) as [grid|] eqn:Hg;
    simpl; rewrite ?Hg; simpl;
    (case_bool_decide as Hwon; simpl;
     [ pose proof (showWinPopup_quiet gs
         (Scripts.renderCards gs (Page.set_currentGameState (Some gs) c)))
         as ((He & Ht & Hc & Hk) & Hcur & Hgrid);
       unfold quiet; rewrite ?Hcur, ?He, ?Ht, ?Hc, ?Hk;
       unfold gridCards; rewrite ?Hgrid;
       unfold Scripts.renderCards; simpl; rewrite ?Hg; simpl;
       repeat split; try done; try (by intros [? ?]); by rewrite ?Hlist
     | unfold quiet, gridCards, Scripts.renderCards; simpl; rewrite ?Hg; simpl;
       repeat split; try done; try (by intros [? ?]); by rewrite ?Hlist ]).
Qed.

Lemma state_update_shows_the_state_witness :
  gridView (ScriptsPage.client
              (ScriptsPage.onGameStateUpdate namedColors (playingGame 1)
                 freshWindow).2)
  = Some (inl [(["card"; "faceup"], "A"); (["card"], "?")]) /\
  ScriptsPage.backgroundColor
    (ScriptsPage.onGameStateUpdate namedColors (playingGame 1) freshWindow).2
  = Some "blue".
Proof.
  destruct (state_update_shows_the_state namedColors (playingGame 1) freshWindow
              (Wire.mkPlayer 1 "blue" 0) eq_refl)
    as (_ & _ & _ & Hgrid & _).
  destruct (Hgrid ltac:(by eexists)) as (_ & _ & Hbg).
  split; [reflexivity | exact Hbg].
Defined.

(** X2. A game state whose active index names no player (an empty
    players list included) makes the handler throw a TypeError as soon as
    the info box or the grid is there: the state is stored, but the grid
    keeps the cards of the previous state and no win overlay is shown.
    With neither element the handler returns normally. *)
Theorem state_update_with_unknown_turn
    (cssColor : string -> option string)
    (gs : Wire.GameState) (w : ScriptsPage.Window) :
  Wire.players gs !! Wire.activePlayerIndex gs = None ->
  Page.currentGameState (ScriptsPage.client (ScriptsPage.onGameStateUpdate cssColor gs w).2)
    = Some gs /\
  (is_Some (ScriptsPage.gameInfo w) \/ is_Some (Page.cardGrid (ScriptsPage.client w)) ->
     (ScriptsPage.onGameStateUpdate cssColor gs w).1 = JS.Threw "TypeError" /\
     (ScriptsPage.onGameStateUpdate cssColor gs w).2
       = ScriptsPage.set_client
           (Page.set_currentGameState (Some gs) (ScriptsPage.client w)) w) /\
  (ScriptsPage.gameInfo w = None -> Page.cardGrid (ScriptsPage.client w) = None ->
     (ScriptsPage.onGameStateUpdate cssColor gs w).1 = JS.Returned).
Proof.
  intros Hact. unfold ScriptsPage.onGameStateUpdate,
    ScriptsPage.updateGameInfo, ScriptsPage.updateActivePlayerBackground.
  rewrite Hact. destruct w as [c info bg cs gid]. simpl.
  destruct info as [i|]; simpl; destruct (Page.cardGrid c) as [grid|] eqn:Hg;
    simpl; rewrite ?Hg; simpl.
  - split; [done|]. split; [done|]. done.
  - split; [done|]. split; [done|]. done.
  - split; [done|]. split; [done|]. done.
  - case_bool_decide as Hwon; simpl.
    + pose proof (showWinPopup_quiet gs
         (Scripts.renderCards gs (Page.set_currentGameState (Some gs) c)))
         as (_ & Hcur & _).
      rewrite Hcur. unfold Scripts.renderCards. simpl. rewrite Hg. simpl.
      split; [done|]. split; [|done]. intros [[? ?]|[? ?]]; done.
    + unfold Scripts.renderCards. simpl. rewrite Hg. simpl.
      split; [done|]. split; [|done]. intros [[? ?]|[? ?]]; done.
Qed.

Lemma state_update_with_unknown_turn_witness :
  (ScriptsPage.onGameStateUpdate namedColors (playingGame 2) freshWindow).1
    = JS.Threw "TypeError" /\
  gridView (ScriptsPage.client
              (ScriptsPage.onGameStateUpdate namedColors (playingGame 2) freshWindow).2)
    = Some (inl []).
Proof.
  destruct (state_update_with_unknown_turn namedColors (playingGame 2) freshWindow eq_refl)
    as (_ & Hthrow & _).
  destruct (Hthrow ltac:(left; by eexists)) as (H1 & H2).
  split; [exact H1|]. rewrite H2. reflexivity.
Defined.

(** X3. After [startGame] no stored state is left, so the listener of no
    card, whichever it is, sends a flip; the grid holds the waiting
    markup instead of card elements, the game id of the connection is
    cleared, and exactly one request for a new game with the given
    player count has been sent.  The popup bookkeeping is not touched. *)
Theorem startGame_blocks_flips (playerCount : Z) (w : ScriptsPage.Window) :
  Page.currentGameState (ScriptsPage.client (ScriptsPage.startGame playerCount w))
    = None /\
  (forall card,
     Scripts.cardClick card (ScriptsPage.client (ScriptsPage.startGame playerCount w))
     = ScriptsPage.client (ScriptsPage.startGame playerCount w)) /\
  gridCards (ScriptsPage.client (ScriptsPage.startGame playerCount w)) = [] /\
  ScriptsPage.gameClient_gameId (ScriptsPage.startGame playerCount w) = None /\
  Page.calls (ScriptsPage.client (ScriptsPage.startGame playerCount w))
    = (Page.calls (ScriptsPage.client w) ++ [Page.StartNewGame playerCount])%list /\
  Page.hasShownWinPopupForGameId
    (ScriptsPage.client (ScriptsPage.startGame playerCount w))
    = Page.hasShownWinPopupForGameId (ScriptsPage.client w) /\
  Page.body (ScriptsPage.client (ScriptsPage.startGame playerCount w))
    = Page.body (ScriptsPage.client w) /\
  (is_Some (Page.cardGrid (ScriptsPage.client w)) ->
     Page.cardGrid (ScriptsPage.client (ScriptsPage.startGame playerCount w))
     = Some (Page.GridMarkup
               ("<p style=" +:+ JS.dq +:+ "text-align: center; color: #888;"
                  +:+ JS.dq +:+ ">Starting new game...</p>"))).
Proof.
  destruct w as [c info bg cs gid]. unfold ScriptsPage.startGame. simpl.
  destruct (Page.cardGrid c) as [grid|] eqn:Hg; destruct info as [i|]; simpl;
    unfold gridCards, Scripts.cardClick; simpl; rewrite ?Hg;
    repeat split; try done; by intros [? ?].
Qed.

(** ** The error box under several errors *)

(** X4. The timer of an error empties the box whatever it shows by then:
    when a second error arrives [d] ms after a first one (0 < d < 3000,
    nothing else pending), its message is shown, but it is gone 3000 - d
    ms later, when the timer of the first error fires, while its own
    timer is still pending. *)
Theorem second_error_is_cut_short
    (first second : string) (d : Z) (s : Page.Client) :
  is_Some (Page.errorBox s) -> Page.timers s = [] -> 0 < d < 3000 ->
  Page.errorBox
    (Scripts.onError second (Page.elapse d (Scripts.onError first s)))
    = Some (errorDiv second) /\
  Page.errorBox
    (Page.elapse (3000 - d)
       (Scripts.onError second (Page.elapse d (Scripts.onError first s))))
    = Some EmptyString /\
  Page.timers
    (Page.elapse (3000 - d)
       (Scripts.onError second (Page.elapse d (Scripts.onError first s))))
    = [(Page.clock s + d + 3000, Page.ClearErrorBox)].
Proof.
  intros [b Hb] Ht Hd.
  assert (H1 : Page.elapse d (Scripts.onError first s)
    = Page.set_clock (Page.clock s + d)
        (Page.set_timers [(Page.clock s + 3000, Page.ClearErrorBox)]
           (Page.set_errorBox (Some (Scripts.errorMarkup first)) s))).
  { unfold Scripts.onError. rewrite Hb. unfold Page.elapse, Page.setTimeout.
    simpl. rewrite Ht. simpl.
    rewrite (filter_cons_False (fun x => x.1 <= Page.clock s + d))
      by (simpl; lia).
    rewrite (filter_cons_True (fun x => ~ x.1 <= Page.clock s + d))
      by (simpl; lia).
    reflexivity. }
  rewrite H1. unfold Scripts.onError. simpl.
  split; [done|].
  unfold Page.elapse, Page.setTimeout. simpl.
  rewrite (filter_cons_True (fun x => x.1 <= Page.clock s + d + (3000 - d)))
    by (simpl; lia).
  rewrite (filter_cons_False (fun x => x.1 <= Page.clock s + d + (3000 - d)))
    by (simpl; lia).
  rewrite (filter_cons_False (fun x => ~ x.1 <= Page.clock s + d + (3000 - d)))
    by (simpl; lia).
  rewrite (filter_cons_True (fun x => ~ x.1 <= Page.clock s + d + (3000 - d)))
    by (simpl; lia).
  split; reflexivity.
Qed.

Lemma second_error_is_cut_short_witness :
  Page.errorBox
    (Page.elapse 1000
       (Scripts.onError "Card is locked"
          (Page.elapse 2000 (Scripts.onError "Not your turn" Page.fresh))))
  = Some EmptyString.
Proof.
  exact (proj1 (proj2 (second_error_is_cut_short "Not your turn" "Card is locked"
           2000 Page.fresh ltac:(by eexists) eq_refl ltac:(lia)))).
Defined.

(** ** What the win popup says *)

Lemma escapeHTML_no_raw (str : string) (c : ascii) :
  c ∈ chars (Scripts.escapeHTML str) -> c ∉ rawMarkup.
Proof.
  rewrite escapeHTML_escapeEach. revert c.
  induction str as [|x s IH]; simpl; intros c.
  - unfold chars. simpl. intros Hc. by apply elem_of_nil in Hc.
  - rewrite chars_app, elem_of_app. intros [Hx|Hx].
    + by eapply entityOf_no_raw.
    + by apply IH.
Qed.

Lemma noDollar_cons (c : ascii) (s : string) :
  noDollar (String c s) <-> c <> "$"%char /\ noDollar s.
Proof.
  unfold noDollar, chars. simpl. rewrite not_elem_of_cons. split.
  - intros [H1 H2]. split; [congruence|done].
  - intros [H1 H2]. split; [congruence|done].
Qed.

Lemma noDollar_app (a b : string) :
  noDollar (a +:+ b) <-> noDollar a /\ noDollar b.
Proof. unfold noDollar. rewrite chars_app, not_elem_of_app. done. Qed.

Lemma noDollar_nil : noDollar EmptyString.
Proof. unfold noDollar, chars. simpl. apply not_elem_of_nil. Qed.

Ltac noDollar_const :=
  unfold noDollar; apply (bool_decide_unpack _); vm_compute; exact I.

(** A replacement text without a dollar sign stands for itself. *)
Lemma getSubstitution_plain (matched before after replacement : string) :
  noDollar replacement ->
  JS.getSubstitution matched before after replacement = replacement.
Proof.
  induction replacement as [|a tail IH]; intros Hn; [done|].
  apply noDollar_cons in Hn as [Ha Ht]. simpl.
  rewrite bool_decide_eq_false_2 by done. by rewrite IH.
Qed.

Lemma replaceGo_plain (fuel : nat) (name replacement before s : string) :
  noDollar replacement ->
  JS.replaceGo fuel name replacement before s = plainGo fuel name replacement s.
Proof.
  intros Hn. revert before s.
  induction fuel as [|fuel IH]; intros before s; [done|]. simpl.
  destruct (JS.matchPlaceholder name s) as [[matched rest]|].
  - by rewrite getSubstitution_plain, IH.
  - destruct s as [|a r]; [done|]. by rewrite IH.
Qed.

Lemma replacePlaceholder_plain (name replacement s : string) :
  noDollar replacement ->
  JS.replacePlaceholder name replacement s = plainReplace name replacement s.
Proof. intros Hn. by apply replaceGo_plain. Qed.

Lemma escapeEach_noDollar (s : string) : noDollar s -> noDollar (escapeEach s).
Proof.
  induction s as [|c s IH]; intros Hn; [done|].
  apply noDollar_cons in Hn as [Hc Hs]. simpl. apply noDollar_app.
  split; [|by apply IH]. unfold entityOf.
  repeat case_bool_decide; try noDollar_const.
  apply noDollar_cons. split; [done|apply noDollar_nil].
Qed.

Lemma pretty_N_go_noDollar (x : N) (s : string) :
  noDollar s -> noDollar (pretty_N_go x s).
Proof.
  revert s. induction (N.lt_wf_0 x) as [x _ IH]; intros s Hs.
  destruct (decide (x = 0%N)) as [->|Hx]; [by rewrite pretty_N_go_0|].
  rewrite pretty_N_go_step by lia. apply IH.
  - apply N.div_lt; lia.
  - apply noDollar_cons. split; [|done].
    unfold pretty_N_char. by repeat case_match.
Qed.

Lemma pretty_Z_noDollar (z : Z) : noDollar (pretty z).
Proof.
  destruct z as [|p|p]; unfold pretty, pretty_Z.
  - noDollar_const.
  - unfold pretty, pretty_positive, pretty, pretty_N.
    case_decide; [noDollar_const|]. apply pretty_N_go_noDollar, noDollar_nil.
  - apply noDollar_app. split; [noDollar_const|].
    unfold pretty, pretty_positive, pretty, pretty_N.
    case_decide; [noDollar_const|]. apply pretty_N_go_noDollar, noDollar_nil.
Qed.

Lemma join_noDollar (sep : string) (l : list string) :
  noDollar sep -> Forall noDollar l -> noDollar (JS.join sep l).
Proof.
  intros Hsep. unfold JS.join. induction l as [|x l IH]; intros Hl.
  - apply noDollar_nil.
  - apply Forall_cons in Hl as [Hx Hl]. destruct l as [|y l]; [done|].
    change (noDollar (x +:+ sep +:+ String.concat sep (y :: l))).
    apply noDollar_app. split; [done|]. apply noDollar_app. split; [done|].
    by apply IH.
Qed.

(** The texts of the popup hold a dollar sign only if a colour does. *)
Lemma winTexts_noDollar (gs : Wire.GameState) (title winner scores : string) :
  Scripts.winTexts gs = Some (title, winner, scores) ->
  Forall (fun p => noDollar (Wire.color p)) (Wire.players gs) ->
  noDollar title /\ noDollar winner /\ noDollar scores.
Proof.
  intros Hw Hcol. unfold Scripts.winTexts in Hw.
  destruct (Scripts.getWinners gs) as [winners m] eqn:Hg.
  assert (Hwin : Forall (fun p => noDollar (Wire.color p)) winners).
  { unfold Scripts.getWinners in Hg. injection Hg as <- _.
    rewrite Forall_forall in *. intros p Hp.
    apply list_elem_of_filter in Hp as [_ Hp]. by apply Hcol. }
  assert (Hm : noDollar (JS.numberToString m)).
  { destruct m as [|z]; [noDollar_const|apply pretty_Z_noDollar]. }
  assert (Hs : noDollar (JS.join " • " (Scripts.scoreLine <$> Wire.players gs))).
  { apply join_noDollar; [noDollar_const|]. apply Forall_fmap.
    eapply Forall_impl; [exact Hcol|]. intros p Hp. unfold Scripts.scoreLine.
    simpl. apply noDollar_app. split; [done|]. apply noDollar_app.
    split; [noDollar_const|apply pretty_Z_noDollar]. }
  case_bool_decide.
  - injection Hw as <- <- <-. split; [noDollar_const|]. split; [|done].
    apply noDollar_app. split; [noDollar_const|]. apply noDollar_app. split.
    { apply join_noDollar; [noDollar_const|]. by apply Forall_fmap. }
    apply noDollar_app. split; [noDollar_const|]. apply noDollar_app.
    split; [done|noDollar_const].
  - destruct winners as [|w ws]; [done|]. injection Hw as <- <- <-.
    apply Forall_cons in Hwin as [Hw0 _].
    split; [noDollar_const|]. split; [|done].
    apply noDollar_app. split; [noDollar_const|]. apply noDollar_app.
    split; [done|]. apply noDollar_app. split; [noDollar_const|].
    apply noDollar_app. split; [done|noDollar_const].
Qed.

(** The overlay of scripts.js: the inline markup around the escaped
    texts when there is no template; with a template, the template
    filled with the escaped texts as they are, provided no colour holds
    a dollar sign. *)
Lemma showWinPopup_markup (gs : Wire.GameState) (s : Page.Client)
    (title winner scores : string) :
  Page.hasShownWinPopupForGameId s <> Wire.gameId gs ->
  Scripts.winTexts gs = Some (title, winner, scores) ->
  exists o,
    Scripts.showWinPopup gs s
    = (JS.Returned,
       Page.set_body (Page.body s ++ [o])%list
         (Page.set_hasShown (Wire.gameId gs) s)) /\
    Page.overlayClass o = "win-overlay" /\
    (Page.winTemplate s = None ->
       Page.innerHTML o
       = inlineAround (escapeEach title) (escapeEach winner) (escapeEach scores)) /\
    (forall t, Page.winTemplate s = Some t ->
       Forall (fun p => noDollar (Wire.color p)) (Wire.players gs) ->
       Page.innerHTML o
       = plainFill t (escapeEach title) (escapeEach winner) (escapeEach scores)).
Proof.
  intros Hne Hw. unfold Scripts.showWinPopup.
  rewrite bool_decide_eq_false_2 by done. rewrite Hw. simpl.
  eexists. split; [reflexivity|]. simpl. split; [done|]. split.
  - intros ->. unfold Scripts.inlineMarkup, inlineAround.
    by rewrite !escapeHTML_escapeEach.
  - intros t -> Hcol.
    destruct (winTexts_noDollar gs title winner scores Hw Hcol)
      as (Ht & Hwn & Hsc).
    unfold Scripts.fillTemplate, plainFill. rewrite !escapeHTML_escapeEach.
    rewrite !replacePlaceholder_plain by (by apply escapeEach_noDollar). done.
Qed.

Lemma escapeEach_clean (t : string) : clean (escapeEach t).
Proof.
  intros c. rewrite <- escapeHTML_escapeEach. apply escapeHTML_no_raw.
Qed.

(** X5. The texts of the win popup reach the overlay escaped.  In the UI
    module, and in scripts.js when the template could not be fetched,
    the overlay holds the fixed markup around texts without a raw
    less-than, greater-than, double quote or apostrophe, whatever the
    colours of the players contain.  With a template, scripts.js hands
    the escaped texts to replace as replacement texts: when no colour
    holds a dollar sign, every placeholder is replaced by its escaped
    text as it is. *)
Theorem win_popup_texts_are_escaped
    (nativeObject : string) (gs : Wire.GameState) (b : bool) (s : Page.Client) :
  (Page.body (Scripts.showWinPopup gs s).2 = Page.body s \/
   exists o title winner scores,
     Page.body (Scripts.showWinPopup gs s).2 = (Page.body s ++ [o])%list /\
     clean title /\ clean winner /\ clean scores /\
     (Page.winTemplate s = None ->
        Page.innerHTML o = inlineAround title winner scores) /\
     (forall t, Page.winTemplate s = Some t ->
        Forall (fun p => noDollar (Wire.color p)) (Wire.players gs) ->
        Page.innerHTML o = plainFill t title winner scores)) /\
  (Page.body (UI.showWinPopup nativeObject gs b s) = Page.body s \/
   exists o title scores,
     Page.body (UI.showWinPopup nativeObject gs b s) = (Page.body s ++ [o])%list /\
     clean title /\ clean scores /\
     Page.innerHTML o = uiAround title scores).
Proof.
  split.
  - destruct (decide (Page.hasShownWinPopupForGameId s = Wire.gameId gs))
      as [He|Hne].
    { left. unfold Scripts.showWinPopup. by rewrite bool_decide_eq_true_2. }
    destruct (Scripts.winTexts gs) as [[[title winner] scores]|] eqn:Hw.
    + right.
      destruct (showWinPopup_markup gs s title winner scores Hne Hw)
        as (o & -> & _ & Hin & Htpl).
      exists o, (escapeEach title), (escapeEach winner), (escapeEach scores).
      split; [done|]. split; [apply escapeEach_clean|].
      split; [apply escapeEach_clean|]. split; [apply escapeEach_clean|]. done.
    + left. unfold Scripts.showWinPopup.
      rewrite bool_decide_eq_false_2 by done. by rewrite Hw.
  - unfold UI.showWinPopup. case_bool_decide; [by left|].
    right. eexists _, (escapeEach _), (escapeEach _).
    split; [by destruct b|]. split; [apply escapeEach_clean|].
    split; [apply escapeEach_clean|].
    simpl. unfold UI.winMarkup, uiAround.
    change UI.escapeHTML with Scripts.escapeHTML.
    by rewrite !escapeHTML_escapeEach.
Qed.

Example win_popup_with_markup_in_a_colour :
  Page.innerHTML <$> Page.body (Scripts.showWinPopup hostileGame Page.fresh).2
  = [inlineAround "🏆 We have a winner!"
       "Winner: &lt;img src=x onerror=&#39;alert(1)&#39;&gt; with 2 points!"
       "&lt;img src=x onerror=&#39;alert(1)&#39;&gt;: 2 • blue: 1"].
Proof. vm_compute. reflexivity. Qed.

(** With a template, a colour that holds a dollar sign and a backtick
    brings the text of the template before the placeholder into the
    winner line, raw markup included. *)
Example win_popup_with_a_dollar_in_a_colour :
  Page.innerHTML <$>
    Page.body (Scripts.showWinPopup dollarGame
                 (withTemplate "<p>{{ winnerText }}</p>")).2
  = ["<p>Winner: <p> with 2 points!</p>"].
Proof. vm_compute. reflexivity. Qed.

Lemma getWinners_nil (gs : Wire.GameState) :
  (Scripts.getWinners gs).1 = [] <-> Wire.players gs = [].
Proof.
  split.
  - intros Hnil. destruct (Wire.players gs) as [|p ps] eqn:Hp; [done|].
    destruct (Math_max_spec (Wire.score <$> Wire.players gs)) as (m & Hm & Hin & _).
    { by rewrite Hp. }
    apply list_elem_of_fmap in Hin as (q & Hq & Hqin).
    assert (Hw : q ∈ (Scripts.getWinners gs).1).
    { unfold Scripts.getWinners. simpl. apply list_elem_of_filter.
      split; [by rewrite Hm, Hq|done]. }
    rewrite Hnil in Hw. by apply elem_of_nil in Hw.
  - intros Hp. unfold Scripts.getWinners. simpl. by rewrite Hp.
Qed.

(** X6. For a game id that was not the last one shown, showWinPopup of
    scripts.js shows an overlay exactly when the state has a player.
    With no player it throws a TypeError after it has recorded the game
    id, so the same state gets no popup on the next call either; the
    popup of the UI module appends its overlay even then. *)
Theorem win_popup_needs_a_player
    (nativeObject : string) (gs : Wire.GameState) (b : bool) (s : Page.Client) :
  Page.hasShownWinPopupForGameId s <> Wire.gameId gs ->
  (Wire.players gs <> [] ->
     (Scripts.showWinPopup gs s).1 = JS.Returned /\
     length (Page.body (Scripts.showWinPopup gs s).2) = S (length (Page.body s))) /\
  (Wire.players gs = [] ->
     Scripts.showWinPopup gs s
       = (JS.Threw "TypeError", Page.set_hasShown (Wire.gameId gs) s) /\
     Scripts.showWinPopup gs (Scripts.showWinPopup gs s).2
       = (JS.Returned, Page.set_hasShown (Wire.gameId gs) s)) /\
  length (Page.body (UI.showWinPopup nativeObject gs b s)) = S (length (Page.body s)).
Proof.
  intros Hne. split; [|split].
  - intros Hp. unfold Scripts.showWinPopup.
    rewrite bool_decide_eq_false_2 by done.
    unfold Scripts.winTexts.
    destruct (Scripts.getWinners gs) as [winners m] eqn:Hw.
    assert (Hwn : winners <> []).
    { intros ->. apply Hp, getWinners_nil. by rewrite Hw. }
    case_bool_decide; simpl.
    + rewrite length_app. simpl. split; [done|lia].
    + destruct winners as [|w ws]; [done|]. simpl. rewrite length_app. simpl.
      split; [done|lia].
  - intros Hp.
    assert (Hfirst : Scripts.showWinPopup gs s
       = (JS.Threw "TypeError", Page.set_hasShown (Wire.gameId gs) s)).
    { unfold Scripts.showWinPopup. rewrite bool_decide_eq_false_2 by done.
      unfold Scripts.winTexts, Scripts.getWinners. by rewrite Hp. }
    split; [exact Hfirst|]. rewrite Hfirst. simpl.
    unfold Scripts.showWinPopup. by rewrite bool_decide_eq_true_2.
  - unfold UI.showWinPopup. rewrite bool_decide_eq_false_2 by done.
    destruct b; simpl; rewrite length_app; simpl; lia.
Qed.

Lemma win_popup_needs_a_player_witness :
  (Scripts.showWinPopup (Wire.mkGameState (Some "g") [] 0 [] "won") Page.fresh).1
  = JS.Threw "TypeError".
Proof.
  destruct (win_popup_needs_a_player v8Object
              (Wire.mkGameState (Some "g") [] 0 [] "won")
              true Page.fresh ltac:(discriminate)) as (_ & Hnone & _).
  destruct (Hnone eq_refl) as [H _]. by rewrite H.
Defined.





(** X8. resetWinPopupTracking arms the popup again: right after it,
    showWinPopup of the UI module appends an overlay for every state that
    has a game id, the game shown last included; for a state whose game
    id is null it does nothing. *)
Theorem reset_arms_the_popup
    (nativeObject : string) (gs : Wire.GameState) (b : bool) (s : Page.Client) :
  (is_Some (Wire.gameId gs) ->
     length (Page.body (UI.showWinPopup nativeObject gs b (UI.resetWinPopupTracking s)))
       = S (length (Page.body s)) /\
     length (Page.body
               (UI.showWinPopup nativeObject gs b
                  (UI.resetWinPopupTracking (UI.showWinPopup nativeObject gs b s))))
       = S (length (Page.body (UI.showWinPopup nativeObject gs b s))) /\
     UI.showWinPopup nativeObject gs b (UI.showWinPopup nativeObject gs b s) = UI.showWinPopup nativeObject gs b s) /\
  (Wire.gameId gs = None ->
     UI.showWinPopup nativeObject gs b (UI.resetWinPopupTracking s)
       = UI.resetWinPopupTracking s).
Proof.
  assert (Hre : forall s0, is_Some (Wire.gameId gs) ->
    length (Page.body (UI.showWinPopup nativeObject gs b (UI.resetWinPopupTracking s0)))
    = S (length (Page.body s0))).
  { intros s0 [g Hg]. unfold UI.showWinPopup, UI.resetWinPopupTracking. simpl.
    rewrite bool_decide_eq_false_2 by (by rewrite Hg).
    destruct b; simpl; rewrite length_app; simpl; lia. }
  split.
  - intros Hg. split; [by apply Hre|]. split; [by apply Hre|].
    apply showUI_same, (showUI_mark nativeObject b gs s).
  - intros Hg. unfold UI.showWinPopup, UI.resetWinPopupTracking. simpl.
    by rewrite bool_decide_eq_true_2.
Qed.

(** The label of a colour whose lower-case text names a property that
    [COLOR_LABEL] inherits. *)
Example label_of_an_inherited_name :
  UI.normalizeLabel v8Object "Constructor" = v8Object /\
  UI.normalizeLabel v8Object "__proto__" = "[object Object]" /\
  UI.normalizeLabel v8Object "#FF6B81" = "red" /\
  UI.normalizeLabel v8Object "toString" = "toString".
Proof. repeat split; reflexivity. Qed.

(** ** scene.js: pointer clicks and the input lock *)

Lemma click_ignored (hit : option (list (option nat))) (g : SceneInput.Stage) :
  accepted hit g = None -> SceneInput.onPointerClick hit g = g.
Proof.
  unfold accepted, SceneInput.onPointerClick.
  destruct (SceneInput.ready g); simpl; [|done].
  case_bool_decide; simpl; [done|].
  destruct (Scene.inputLocked (SceneInput.st g)); simpl; [done|].
  destruct hit as [chain|]; simpl; [|done].
  destruct (SceneInput.onCardClickCallback g); simpl;
    destruct (SceneInput.cardUnder chain); done.
Qed.

Lemma click_accepted (hit : option (list (option nat))) (g : SceneInput.Stage)
    (cardId : nat) :
  accepted hit g = Some cardId ->
  SceneInput.onPointerClick hit g
  = SceneInput.mkStage
      (Scene.set_inputLockTimer (Some (S (SceneInput.timerSeq g)))
         (Scene.set_activeTimers
            (Scene.activeTimers
               (Scene.clearTimeout (Scene.inputLockTimer (SceneInput.st g))
                  (Scene.set_inputLocked true (SceneInput.st g)))
             ++ [S (SceneInput.timerSeq g)])
            (Scene.clearTimeout (Scene.inputLockTimer (SceneInput.st g))
               (Scene.set_inputLocked true (SceneInput.st g)))))
      (SceneInput.ready g) (SceneInput.onCardClickCallback g)
      (SceneInput.now g) (S (SceneInput.timerSeq g))
      (SceneInput.due g ++ [(S (SceneInput.timerSeq g), SceneInput.now g + 2500)])
      (SceneInput.clicked g ++ [cardId]).
Proof.
  unfold accepted, SceneInput.onPointerClick.
  destruct (SceneInput.ready g); simpl; [|done].
  case_bool_decide; simpl; [done|].
  destruct (Scene.inputLocked (SceneInput.st g)); simpl; [done|].
  destruct (SceneInput.onCardClickCallback g); simpl; [|done].
  destruct hit as [chain|]; simpl; [|done].
  destruct (SceneInput.cardUnder chain); [|done]. by intros [= ->].
Qed.

Lemma click_locks (hit : option (list (option nat))) (g : SceneInput.Stage)
    (cardId : nat) :
  accepted hit g = Some cardId ->
  Scene.inputLocked (SceneInput.st (SceneInput.onPointerClick hit g)) = true.
Proof.
  intros Ha. rewrite (click_accepted hit g cardId Ha). simpl.
  by destruct (Scene.inputLockTimer (SceneInput.st g)).
Qed.

Lemma clickAll_locked (hits : list (option (list (option nat))))
    (g : SceneInput.Stage) :
  Scene.inputLocked (SceneInput.st g) = true -> clickAll hits g = g.
Proof.
  intros Hl. unfold clickAll. induction hits as [|hit hits IH]; [done|]. simpl.
  rewrite (click_ignored hit g); [exact IH|].
  unfold accepted. rewrite Hl. by rewrite !andb_false_r.
Qed.

(** X9. However often the player clicks, and whatever is clicked, the
    click callback is called at most once until a game state has been
    processed or the lock timer has fired: the first click that reaches
    a card locks the input and every later click changes nothing.  A
    click is ignored when the scene is not set up, holds no card, is
    locked, or the ray meets no object with a truthy card id. *)
Theorem clicks_reach_the_callback_once
    (hits : list (option (list (option nat)))) (g : SceneInput.Stage) :
  (length (SceneInput.clicked (clickAll hits g))
     <= S (length (SceneInput.clicked g)))%nat /\
  (forall hit cardId, accepted hit g = Some cardId ->
     SceneInput.clicked (clickAll (hit :: hits) g)
       = (SceneInput.clicked g ++ [cardId])%list /\
     clickAll (hit :: hits) g = SceneInput.onPointerClick hit g) /\
  (forall hit, accepted hit g = None -> SceneInput.onPointerClick hit g = g).
Proof.
  split; [|split].
  - revert g. induction hits as [|hit hits IH]; intros g; [simpl; lia|].
    unfold clickAll in *. simpl.
    destruct (accepted hit g) as [cardId|] eqn:Ha.
    + pose proof (clickAll_locked hits _ (click_locks hit g cardId Ha)) as Hrest.
      unfold clickAll in Hrest. rewrite Hrest.
      rewrite (click_accepted hit g cardId Ha). simpl.
      rewrite length_app. simpl. lia.
    + rewrite (click_ignored hit g Ha). apply IH.
  - intros hit cardId Ha.
    pose proof (clickAll_locked hits _ (click_locks hit g cardId Ha)) as Hrest.
    unfold clickAll in *. simpl. rewrite Hrest. split; [|done].
    by rewrite (click_accepted hit g cardId Ha).
  - intros hit. apply click_ignored.
Qed.

Example click_on_card_two :
  SceneInput.clicked
    (clickAll [Some [None; Some 2%nat]; Some [Some 1%nat]; None] demoStage)
  = [2%nat].
Proof. vm_compute. reflexivity. Qed.

Lemma createMissing_lockFields (s : Scene.State) (c : Wire.Card) :
  lockFields (Scene.createMissing s c) = lockFields s.
Proof.
  unfold Scene.createMissing, Scene.createCardInstance.
  destruct (Scene.find_card (Wire.id c) (Scene.cards s)); [done|].
  by destruct (Scene.fbxTemplate s).
Qed.

Lemma removeExtra_lockFields (l : list Wire.Card) (s : Scene.State)
    (c : Scene.CardObj) :
  lockFields (Scene.removeExtra l s c) = lockFields s.
Proof. unfold Scene.removeExtra. by destruct (Scene.find_wire (Scene.id c) l). Qed.

Lemma removeOld_lockFields (l : list Wire.Card) (s : Scene.State) :
  lockFields (Scene.removeOld l s) = lockFields s.
Proof.
  unfold Scene.removeOld. case_bool_decide; [|done].
  unfold lockFields. simpl.
  change (lockFields (foldl (fun st c => Scene.scene_remove (Scene.mesh c) st) s
            (filter (fun c => Scene.id c ∉ (list_to_set (Wire.id <$> l) : gset nat))
                    (Scene.cards s))) = lockFields s).
  by apply foldl_keeps.
Qed.

(** What processing a game state does to the lock. *)
Lemma update_lockFields (gs : Wire.GameState) (s : Scene.State) :
  (forall h, h ∈ Scene.activeTimers s -> Scene.inputLockTimer s = Some h) ->
  lockFields (Scene.updateFromGameState (Some gs) s) = (false, None, []).
Proof.
  intros Hone. unfold Scene.updateFromGameState.
  set (s0 := Scene.lockInput (Scene.set_startingPlaceholder false s)).
  assert (H0 : Scene.inputLockTimer s0 = Scene.inputLockTimer s /\
               Scene.activeTimers s0 = []).
  { unfold s0, Scene.lockInput. simpl.
    destruct (Scene.inputLockTimer s) as [o|] eqn:Ho; simpl.
    - split; [done|]. apply filter_none. intros x Hx Hne.
      specialize (Hone x Hx). congruence.
    - split; [done|]. destruct (Scene.activeTimers s) as [|x l] eqn:Ha; [done|].
      specialize (Hone x (list_elem_of_here _ _)). congruence. }
  destruct H0 as [Ht0 Ha0].
  set (s4 := foldl Scene.syncState
               (foldl (Scene.removeExtra (Wire.cards gs))
                  (foldl Scene.createMissing
                     (Scene.removeOld (Wire.cards gs) s0) (Wire.cards gs))
                  (Scene.cards
                     (foldl Scene.createMissing
                        (Scene.removeOld (Wire.cards gs) s0) (Wire.cards gs))))
               (Wire.cards gs)).
  assert (H4 : lockFields s4 = lockFields s0).
  { unfold s4. rewrite (foldl_keeps Scene.syncState lockFields) by done.
    rewrite (foldl_keeps (Scene.removeExtra (Wire.cards gs)) lockFields)
      by (intros; apply removeExtra_lockFields).
    rewrite (foldl_keeps Scene.createMissing lockFields)
      by (intros; apply createMissing_lockFields).
    apply removeOld_lockFields. }
  unfold lockFields in H4. injection H4 as Hl4 Ht4 Ha4.
  unfold Scene.releaseInput, lockFields. simpl.
  rewrite Ht4, Ht0. destruct (Scene.inputLockTimer s) as [o|] eqn:Ho; simpl.
  - rewrite Ha4, Ha0. reflexivity.
  - rewrite Ha4, Ha0. repeat f_equal. congruence.
Qed.

Lemma filter_all {A} (P : A -> Prop) `{forall x, Decision (P x)} (l : list A) :
  (forall x, x ∈ l -> P x) -> filter P l = l.
Proof.
  induction l as [|x l IH]; intros Hl; [done|].
  rewrite filter_cons_True by apply Hl, list_elem_of_here.
  rewrite IH; [done|]. intros y Hy. by apply Hl, list_elem_of_further.
Qed.

Lemma release_all (l : list (nat * Z)) (s : Scene.State) :
  Scene.cards (foldl (fun s x => SceneInput.release x.1 s) s l) = Scene.cards s /\
  Scene.scene (foldl (fun s x => SceneInput.release x.1 s) s l) = Scene.scene s /\
  Scene.activeTimers (foldl (fun s x => SceneInput.release x.1 s) s l)
    = filter (fun h => h ∉ l.*1) (Scene.activeTimers s) /\
  (l <> [] ->
     Scene.inputLocked (foldl (fun s x => SceneInput.release x.1 s) s l) = false /\
     Scene.inputLockTimer (foldl (fun s x => SceneInput.release x.1 s) s l) = None).
Proof.
  revert s. induction l as [|x l IH]; intros s; simpl.
  - split; [done|]. split; [done|]. split; [|done].
    symmetry. apply filter_all. intros h _. apply not_elem_of_nil.
  - destruct (IH (SceneInput.release x.1 s)) as (Hc & Hs & Ha & Hl).
    rewrite Hc, Hs, Ha. simpl. split; [done|]. split; [done|]. split.
    + rewrite list_filter_filter. apply list_filter_iff. intros h.
      rewrite not_elem_of_cons. tauto.
    + intros _. destruct l as [|y l]; [done|]. by apply Hl.
Qed.

Lemma firing_fst (g : SceneInput.Stage) (t : Z) (h : nat) :
  h ∈ (merge_sort SceneInput.dueBefore
         (filter (fun x => x.2 <= t /\ x.1 ∈ Scene.activeTimers (SceneInput.st g))
                 (SceneInput.due g))).*1 ->
  h ∈ Scene.activeTimers (SceneInput.st g).
Proof.
  rewrite merge_sort_Permutation. intros Hh.
  apply list_elem_of_fmap in Hh as (x & -> & Hx).
  by apply list_elem_of_filter in Hx as [[_ ?] _].
Qed.

Lemma one_lock_timer_at_most_aux (hit : option (list (option nat)))
    (g : SceneInput.Stage) :
  timersOk g -> timersOk (SceneInput.onPointerClick hit g).
Proof.
  intros (Hone & Hfree & Hdue & Hseq).
  destruct (accepted hit g) as [cardId|] eqn:Ha.
  - rewrite (click_accepted hit g cardId Ha).
    assert (Hact : Scene.activeTimers
             (Scene.clearTimeout (Scene.inputLockTimer (SceneInput.st g))
                (Scene.set_inputLocked true (SceneInput.st g))) = []).
    { destruct (Scene.inputLockTimer (SceneInput.st g)) as [o|] eqn:Ho; simpl.
      - apply filter_none. intros x Hx Hne. specialize (Hone x Hx). congruence.
      - destruct (Scene.activeTimers (SceneInput.st g)) as [|x l] eqn:Hl;
          [done|]. specialize (Hone x (list_elem_of_here _ _)). congruence. }
    unfold timersOk. simpl. rewrite Hact. simpl.
    split; [|split; [|split]].
    + intros h Hh. apply list_elem_of_singleton in Hh. by subst h.
    + by destruct (Scene.inputLockTimer (SceneInput.st g)).
    + intros h Hh. apply list_elem_of_singleton in Hh. subst h.
      eexists. apply elem_of_app. right. apply list_elem_of_here.
    + intros x Hx. apply elem_of_app in Hx as [Hx|Hx].
      * specialize (Hseq x Hx). lia.
      * apply list_elem_of_singleton in Hx. by subst x.
  - rewrite (click_ignored hit g Ha). by unfold timersOk.
Qed.

Lemma elapse_timersOk (ms : Z) (g : SceneInput.Stage) :
  timersOk g -> timersOk (SceneInput.elapse ms g).
Proof.
  intros (Hone & Hfree & Hdue & Hseq).
  unfold timersOk, SceneInput.elapse. simpl.
  set (firing := merge_sort SceneInput.dueBefore
         (filter (fun x => x.2 <= SceneInput.now g + ms /\
                           x.1 ∈ Scene.activeTimers (SceneInput.st g))
                 (SceneInput.due g))).
  destruct (release_all firing (SceneInput.st g)) as (_ & _ & Ha & Hl).
  rewrite Ha.
  destruct firing as [|x0 rest] eqn:Hf.
  - rewrite filter_all by (intros h _; apply not_elem_of_nil).
    split; [done|]. split; [done|]. split.
    + intros h Hh. destruct (Hdue h Hh) as [t Ht].
      exists t. apply list_elem_of_filter. split; [|done]. simpl.
      intros Hle.
      assert (Hin : (h, t) ∈ firing).
      { unfold firing. rewrite merge_sort_Permutation.
        apply list_elem_of_filter. by split. }
      rewrite Hf in Hin. by apply elem_of_nil in Hin.
    + intros x Hx. apply list_elem_of_filter in Hx as [_ Hx]. by apply Hseq.
  - assert (Hx0 : x0.1 ∈ Scene.activeTimers (SceneInput.st g)).
    { apply (firing_fst g (SceneInput.now g + ms)). fold firing. rewrite Hf.
      apply list_elem_of_here. }
    assert (Hnone : filter (fun h => h ∉ (x0 :: rest).*1)
                      (Scene.activeTimers (SceneInput.st g)) = []).
    { apply filter_none. intros h Hh Hn. apply Hn.
      pose proof (Hone h Hh) as H1. pose proof (Hone _ Hx0) as H2.
      assert (h = x0.1) by congruence. subst h. apply list_elem_of_here. }
    rewrite Hnone. split; [|split; [done|split]].
    + intros h Hh. by apply elem_of_nil in Hh.
    + intros h Hh. by apply elem_of_nil in Hh.
    + intros x Hx. apply list_elem_of_filter in Hx as [_ Hx]. by apply Hseq.
Qed.

(** X10. The lock and its timer stay in step: whatever happens (a click,
    time passing, a game state), at most the timer named by
    [inputLockTimer] is pending, it is pending only while the input is
    locked, and it was handed out by [setTimeout]. *)
Theorem one_lock_timer_at_most
    (hit : option (list (option nat))) (ms : Z)
    (gs : option Wire.GameState) (g : SceneInput.Stage) :
  timersOk g ->
  timersOk (SceneInput.onPointerClick hit g) /\
  timersOk (SceneInput.elapse ms g) /\
  timersOk (SceneInput.onGameState gs g).
Proof.
  intros Hok. split; [by apply one_lock_timer_at_most_aux|].
  split; [by apply elapse_timersOk|].
  destruct Hok as (Hone & Hfree & Hdue & Hseq).
  destruct gs as [gs|]; [|by unfold timersOk].
  unfold timersOk, SceneInput.onGameState. simpl.
  pose proof (update_lockFields gs (SceneInput.st g) Hone) as Hu.
  unfold lockFields in Hu. injection Hu as Hl Ht Ha. rewrite Ha.
  split; [|split; [done|split; [|done]]].
  - intros h Hh. by apply elem_of_nil in Hh.
  - intros h Hh. by apply elem_of_nil in Hh.
Qed.

Lemma one_lock_timer_at_most_witness :
  timersOk (SceneInput.elapse 100
              (SceneInput.onPointerClick (Some [Some 2%nat]) demoStage)).
Proof.
  assert (H0 : timersOk demoStage).
  { unfold timersOk. simpl. split; [|split; [done|split]];
      intros x Hx; by apply elem_of_nil in Hx. }
  destruct (one_lock_timer_at_most (Some [Some 2%nat]) 0 None demoStage H0)
    as (H1 & _).
  exact (proj1 (proj2 (one_lock_timer_at_most None 100 None _ H1))).
Defined.

Lemma click_accepted_fields (hit : option (list (option nat)))
    (g : SceneInput.Stage) (cardId : nat) :
  timersOk g -> accepted hit g = Some cardId ->
  lockFields (SceneInput.st (SceneInput.onPointerClick hit g))
    = (true, Some (S (SceneInput.timerSeq g)), [S (SceneInput.timerSeq g)]) /\
  Scene.cards (SceneInput.st (SceneInput.onPointerClick hit g))
    = Scene.cards (SceneInput.st g) /\
  Scene.scene (SceneInput.st (SceneInput.onPointerClick hit g))
    = Scene.scene (SceneInput.st g) /\
  SceneInput.due (SceneInput.onPointerClick hit g)
    = (SceneInput.due g
         ++ [(S (SceneInput.timerSeq g), SceneInput.now g + 2500)])%list /\
  SceneInput.now (SceneInput.onPointerClick hit g) = SceneInput.now g /\
  SceneInput.ready (SceneInput.onPointerClick hit g) = SceneInput.ready g /\
  SceneInput.onCardClickCallback (SceneInput.onPointerClick hit g)
    = SceneInput.onCardClickCallback g /\
  Scene.inputLocked (SceneInput.st g) = false.
Proof.
  intros (Hone & Hfree & Hdue & Hseq) Ha.
  assert (Hunl : Scene.inputLocked (SceneInput.st g) = false).
  { unfold accepted in Ha.
    destruct (Scene.inputLocked (SceneInput.st g)); [|done].
    by rewrite !andb_false_r in Ha. }
  rewrite (click_accepted hit g cardId Ha). unfold lockFields. simpl.
  destruct (Scene.inputLockTimer (SceneInput.st g)); simpl; rewrite (Hfree Hunl);
    done.
Qed.

(** X11. A click that reached the callback locks the input for 2500 ms
    when no game state arrives: before that, time passing changes
    nothing in the scene and no click is accepted; from 2500 ms on the
    lock is open, no timer is left, and a click is accepted exactly as
    it was before the first one. *)
Theorem lock_opens_after_2500_ms
    (hit : option (list (option nat))) (cardId : nat) (ms : Z)
    (g : SceneInput.Stage) :
  timersOk g -> accepted hit g = Some cardId ->
  (ms < 2500 ->
     SceneInput.st (SceneInput.elapse ms (SceneInput.onPointerClick hit g))
       = SceneInput.st (SceneInput.onPointerClick hit g) /\
     forall hit', accepted hit'
       (SceneInput.elapse ms (SceneInput.onPointerClick hit g)) = None) /\
  (2500 <= ms ->
     lockFields
       (SceneInput.st (SceneInput.elapse ms (SceneInput.onPointerClick hit g)))
       = (false, None, []) /\
     forall hit', accepted hit'
       (SceneInput.elapse ms (SceneInput.onPointerClick hit g))
       = accepted hit' g).
Proof.
  intros Hok Ha.
  destruct (click_accepted_fields hit g cardId Hok Ha)
    as (Hlf & Hcards & Hscene & Hdue' & Hnow & Hready & Hcb & Hunl).
  unfold lockFields in Hlf. injection Hlf as Hl Ht Hact.
  destruct Hok as (_ & _ & _ & Hseq).
  set (g' := SceneInput.onPointerClick hit g) in *.
  set (h := S (SceneInput.timerSeq g)) in *.
  assert (Hold : forall t,
    filter (fun x => x.2 <= t /\ x.1 ∈ Scene.activeTimers (SceneInput.st g'))
           (SceneInput.due g) = []).
  { intros t. apply filter_none. intros x Hx [_ Hin]. rewrite Hact in Hin.
    apply list_elem_of_singleton in Hin. specialize (Hseq x Hx). unfold h in Hin.
    lia. }
  split.
  - intros Hms.
    assert (Hst : SceneInput.st (SceneInput.elapse ms g') = SceneInput.st g').
    { unfold SceneInput.elapse. simpl. rewrite Hdue', filter_app, Hold. simpl.
      rewrite filter_cons_False by (simpl; lia). reflexivity. }
    split; [exact Hst|]. intros hit'. unfold accepted.
    change (SceneInput.st (SceneInput.elapse ms g'))
      with (SceneInput.st (SceneInput.elapse ms g')). rewrite Hst, Hl.
    by rewrite !andb_false_r.
  - intros Hms.
    assert (Hst : SceneInput.st (SceneInput.elapse ms g')
                  = SceneInput.release h (SceneInput.st g')).
    { unfold SceneInput.elapse. simpl. rewrite Hdue', filter_app, Hold. simpl.
      rewrite filter_cons_True; [reflexivity|]. simpl. split; [lia|].
      rewrite Hact. apply list_elem_of_here. }
    split.
    + rewrite Hst. unfold lockFields, SceneInput.release. simpl. rewrite Hact.
      by rewrite filter_cons_False by (intros Hne; by apply Hne).
    + intros hit'. unfold accepted. rewrite Hst.
      unfold SceneInput.release. simpl. rewrite Hcards, Hunl.
      change (SceneInput.ready (SceneInput.elapse ms g')) with (SceneInput.ready g').
      change (SceneInput.onCardClickCallback (SceneInput.elapse ms g'))
        with (SceneInput.onCardClickCallback g').
      by rewrite Hready, Hcb.
Qed.

Lemma lock_opens_after_2500_ms_witness :
  accepted (Some [Some 1%nat])
    (SceneInput.elapse 2500
       (SceneInput.onPointerClick (Some [Some 2%nat]) demoStage)) = Some 1%nat /\
  accepted (Some [Some 1%nat])
    (SceneInput.elapse 2499
       (SceneInput.onPointerClick (Some [Some 2%nat]) demoStage)) = None.
Proof.
  assert (H0 : timersOk demoStage).
  { unfold timersOk. simpl. split; [|split; [done|split]];
      intros x Hx; by apply elem_of_nil in Hx. }
  split.
  - destruct (lock_opens_after_2500_ms (Some [Some 2%nat]) 2 2500 demoStage
                H0 eq_refl) as [_ Hopen].
    destruct (Hopen ltac:(lia)) as [_ Hacc]. by rewrite Hacc.
  - destruct (lock_opens_after_2500_ms (Some [Some 2%nat]) 2 2499 demoStage
                H0 eq_refl) as [Hshut _].
    destruct (Hshut ltac:(lia)) as [_ Hacc]. apply Hacc.
Defined.

Lemma timersOk_ext (s : Scene.State) (g : SceneInput.Stage) :
  lockFields s = lockFields (SceneInput.st g) ->
  timersOk g -> timersOk (SceneInput.set_st s g).
Proof.
  unfold lockFields. intros [= Hl Ht Ha]. unfold timersOk. simpl.
  by rewrite Hl, Ht, Ha.
Qed.

Lemma timersOk_settled (s : Scene.State) (g : SceneInput.Stage) (b : bool)
    (t : option nat) :
  lockFields s = (b, t, []) ->
  timersOk g -> timersOk (SceneInput.set_st s g).
Proof.
  unfold lockFields. intros [= Hl Ht Ha] (_ & _ & _ & Hseq).
  unfold timersOk. simpl. rewrite Ha.
  split; [|split; [done|split; [|done]]]; intros h Hh; by apply elem_of_nil in Hh.
Qed.

(** The start of a call takes the lock and cancels the lock timer. *)
Lemma lockInput_lockFields (s : Scene.State) :
  (forall h, h ∈ Scene.activeTimers s -> Scene.inputLockTimer s = Some h) ->
  lockFields (Scene.lockInput (Scene.set_startingPlaceholder false s))
  = (true, Scene.inputLockTimer s, []).
Proof.
  intros Hone. unfold lockFields, Scene.lockInput. simpl.
  destruct (Scene.inputLockTimer s) as [o|] eqn:Ho; simpl; rewrite ?Ho.
  - rewrite filter_none; [done|]. intros x Hx Hne.
    specialize (Hone x Hx). congruence.
  - destruct (Scene.activeTimers s) as [|x l] eqn:Ha; [done|].
    specialize (Hone x (list_elem_of_here _ _)). congruence.
Qed.

(** The end of a call opens the lock and cancels the lock timer. *)
Lemma releaseInput_lockFields (s : Scene.State) :
  (forall h, h ∈ Scene.activeTimers s -> Scene.inputLockTimer s = Some h) ->
  lockFields (Scene.releaseInput s) = (false, None, []).
Proof.
  intros Hone. unfold lockFields, Scene.releaseInput. simpl.
  destruct (Scene.inputLockTimer s) as [o|] eqn:Ho; simpl; rewrite ?Ho.
  - rewrite filter_none; [done|]. intros x Hx Hne.
    specialize (Hone x Hx). congruence.
  - destruct (Scene.activeTimers s) as [|x l] eqn:Ha; [done|].
    specialize (Hone x (list_elem_of_here _ _)). congruence.
Qed.

Lemma releaseInput_same_lock (a b : Scene.State) :
  lockFields a = lockFields b ->
  lockFields (Scene.releaseInput a) = lockFields (Scene.releaseInput b).
Proof.
  destruct a as [c1 sc1 t1 n1 l1 lt1 at1 p1], b as [c2 sc2 t2 n2 l2 lt2 at2 p2].
  unfold lockFields, Scene.releaseInput. simpl. intros [= -> -> ->].
  by destruct lt2.
Qed.

(** Between its awaits a call leaves the lock alone; only its end
    releases it. *)
Lemma loop_lockFields (rest : list Wire.Card) (s : Scene.State) :
  lockFields (SceneAsync.loop rest s).1
  = match (SceneAsync.loop rest s).2 with
    | Some _ => lockFields s
    | None => lockFields (Scene.releaseInput s)
    end.
Proof.
  revert s. induction rest as [|g rest IH]; intros s; simpl; [done|].
  destruct (Scene.find_card (Wire.id g) (Scene.cards s)) as [local|]; [|apply IH].
  case_bool_decide; [|done]. rewrite IH.
  destruct (SceneAsync.loop rest _).2; [done|]. by apply releaseInput_same_lock.
Qed.

Lemma prepare_lockFields (gs : Wire.GameState) (s : Scene.State) :
  lockFields (SceneAsync.prepare gs s) = lockFields s.
Proof.
  unfold SceneAsync.prepare.
  rewrite (foldl_keeps (Scene.removeExtra (Wire.cards gs)) lockFields)
    by (intros; apply removeExtra_lockFields).
  rewrite (foldl_keeps Scene.createMissing lockFields)
    by (intros; apply createMissing_lockFields).
  apply removeOld_lockFields.
Qed.

Lemma resume_lockFields (c : SceneAsync.Call) (s : Scene.State) :
  lockFields (SceneAsync.resume c s).1
  = match (SceneAsync.resume c s).2 with
    | Some _ => lockFields s
    | None => lockFields (Scene.releaseInput s)
    end.
Proof.
  destruct c as [gs|rest h g]; simpl; rewrite loop_lockFields.
  - destruct (SceneAsync.loop _ _).2; [apply prepare_lockFields|].
    apply releaseInput_same_lock, prepare_lockFields.
  - destruct (SceneAsync.loop _ _).2; [done|]. by apply releaseInput_same_lock.
Qed.

(** The lock and its timer stay in step under every event. *)
Lemma step_timersOk (e : SceneAsync.Event) (w : SceneAsync.World) :
  timersOk (SceneAsync.stage w) ->
  timersOk (SceneAsync.stage (SceneAsync.step w e)).
Proof.
  intros Hok. destruct e as [hit|ms|[gs|]|k]; simpl; try done.
  - by apply one_lock_timer_at_most_aux.
  - by apply elapse_timersOk.
  - eapply timersOk_settled; [|done]. apply lockInput_lockFields. apply Hok.
  - destruct (SceneAsync.calls w !! k) as [c|]; [|done].
    pose proof (resume_lockFields c (SceneInput.st (SceneAsync.stage w))) as Hl.
    destruct (SceneAsync.resume c (SceneInput.st (SceneAsync.stage w)))
      as [s' [c'|]]; simpl in *.
    + by apply timersOk_ext.
    + eapply timersOk_settled; [|done]. rewrite Hl.
      apply releaseInput_lockFields. apply Hok.
Qed.

Lemma run_timersOk (es : list SceneAsync.Event) (w : SceneAsync.World) :
  timersOk (SceneAsync.stage w) ->
  timersOk (SceneAsync.stage (SceneAsync.run es w)).
Proof.
  unfold SceneAsync.run. revert w.
  induction es as [|e es IH]; intros w Hw; simpl; [done|].
  by apply IH, step_timersOk.
Qed.

(** X12. The input lock under calls of updateFromGameState.  A call that
    starts takes the lock and cancels the lock timer; between its awaits
    it leaves the lock as it is; and when a call ends, whatever else
    waits, the input is unlocked, [inputLockTimer] is null and no timer
    is pending, so the timer of a click made before cannot unlock or
    re-lock later.  A null game state does nothing.  The lock and its
    timer stay in step (at most the timer named by [inputLockTimer] is
    pending, only while the input is locked) under every sequence of
    clicks, timers, calls and resumptions. *)
Theorem game_state_opens_the_lock
    (w : SceneAsync.World) (k : nat) (c : SceneAsync.Call) (ms : Z)
    (gs : Wire.GameState) :
  timersOk (SceneAsync.stage w) ->
  lockFields (sceneOf (SceneAsync.step w (SceneAsync.Arrive (Some gs))))
  = (true, Scene.inputLockTimer (sceneOf w), []) /\
  (SceneAsync.calls w !! k = Some c ->
   (SceneAsync.resume c (sceneOf w)).2 = None ->
   lockFields (sceneOf (SceneAsync.step w (SceneAsync.Resume k)))
   = (false, None, []) /\
   SceneAsync.calls (SceneAsync.step w (SceneAsync.Resume k))
   = delete k (SceneAsync.calls w) /\
   SceneInput.st
     (SceneInput.elapse ms
        (SceneAsync.stage (SceneAsync.step w (SceneAsync.Resume k))))
   = sceneOf (SceneAsync.step w (SceneAsync.Resume k))) /\
  (SceneAsync.calls w !! k = Some c ->
   is_Some (SceneAsync.resume c (sceneOf w)).2 ->
   lockFields (sceneOf (SceneAsync.step w (SceneAsync.Resume k)))
   = lockFields (sceneOf w)) /\
  SceneAsync.step w (SceneAsync.Arrive None) = w /\
  (forall es, timersOk (SceneAsync.stage (SceneAsync.run es w))).
Proof.
  intros Hok. pose proof Hok as (Hone & _). unfold sceneOf.
  split; [by apply lockInput_lockFields|]. split; [|split; [|split]].
  - intros Hk Hend. simpl. rewrite Hk.
    pose proof (resume_lockFields c (SceneInput.st (SceneAsync.stage w))) as Hl.
    destruct (SceneAsync.resume c (SceneInput.st (SceneAsync.stage w)))
      as [s' [c'|]]; simpl in *; [done|].
    rewrite releaseInput_lockFields in Hl by done.
    split; [done|]. split; [done|].
    unfold lockFields in Hl. injection Hl as _ _ Ha.
    unfold SceneInput.elapse. simpl. rewrite Ha.
    rewrite filter_none; [reflexivity|].
    intros x _ [_ Hin]. by apply elem_of_nil in Hin.
  - intros Hk [c' Hc']. simpl. rewrite Hk.
    pose proof (resume_lockFields c (SceneInput.st (SceneAsync.stage w))) as Hl.
    destruct (SceneAsync.resume c (SceneInput.st (SceneAsync.stage w)))
      as [s' [c2|]]; simpl in *; done.
  - done.
  - intros es. by apply run_timersOk.
Qed.

Lemma game_state_opens_the_lock_witness :
  lockFields
    (sceneOf
       (SceneAsync.run
          [SceneAsync.Click (Some [Some 2%nat]); SceneAsync.Arrive (Some bothDown);
           SceneAsync.Resume 0]
          (SceneAsync.mkWorld demoStage [])))
  = (false, None, []).
Proof.
  refine (proj1 (proj1 (proj2
    (game_state_opens_the_lock
       (SceneAsync.run
          [SceneAsync.Click (Some [Some 2%nat]); SceneAsync.Arrive (Some bothDown)]
          (SceneAsync.mkWorld demoStage []))
       0 (SceneAsync.AwaitTextures bothDown) 0 bothDown _)) _ _)).
  - apply run_timersOk. unfold timersOk. simpl. split; [|split; [done|split]];
      intros x Hx; by apply elem_of_nil in Hx.
  - reflexivity.
  - reflexivity.
Defined.

(** The lock opens when any call ends: while the call for [oneUp] still
    waits for the flip of card 1, the call for [bothDown] that came later
    and was resumed first has ended, the input is unlocked and a click
    on card 2 reaches the callback. *)
Example lock_opens_while_a_call_waits :
  SceneAsync.calls
    (SceneAsync.run
       [SceneAsync.Arrive (Some oneUp); SceneAsync.Resume 0;
        SceneAsync.Arrive (Some bothDown); SceneAsync.Resume 1]
       (SceneAsync.mkWorld demoStage []))
  = [SceneAsync.AwaitFlip [Wire.mkCard 2 JS.Null false false] 0
                          (Wire.mkCard 1 (JS.Str "A") true false)] /\
  Scene.inputLocked
    (sceneOf
       (SceneAsync.run
          [SceneAsync.Arrive (Some oneUp); SceneAsync.Resume 0;
           SceneAsync.Arrive (Some bothDown); SceneAsync.Resume 1]
          (SceneAsync.mkWorld demoStage []))) = false /\
  SceneInput.clicked
    (SceneAsync.stage
       (SceneAsync.run
          [SceneAsync.Arrive (Some oneUp); SceneAsync.Resume 0;
           SceneAsync.Arrive (Some bothDown); SceneAsync.Resume 1;
           SceneAsync.Click (Some [Some 2%nat])]
          (SceneAsync.mkWorld demoStage []))) = [2%nat].
Proof. split; [reflexivity|]. split; reflexivity. Qed.

(** ** scene.js: the flags of the card objects *)

Lemma update_as_phases (gs : Wire.GameState) (s : Scene.State) :
  sceneOk s ->
  Scene.updateFromGameState (Some gs) s
    = Scene.releaseInput (foldl Scene.syncState (created gs s) (Wire.cards gs)) /\
  sceneOk (created gs s) /\
  Scene.fbxTemplate (created gs s) = Scene.fbxTemplate s /\
  (forall x, x ∈ Scene.cards (created gs s) ->
             Scene.id x ∈ Wire.id <$> Wire.cards gs) /\
  (forall x, x ∈ Scene.cards s -> Scene.id x ∈ Wire.id <$> Wire.cards gs ->
             x ∈ Scene.cards (created gs s)) /\
  (forall x, x ∈ Scene.cards (created gs s) ->
             x ∈ Scene.cards s \/
             (Scene.isFaceUp x = false /\ Scene.isMatched x = false)) /\
  (is_Some (Scene.fbxTemplate s) ->
     forall i, i ∈ Wire.id <$> Wire.cards gs ->
               i ∈ Scene.id <$> Scene.cards (created gs s)).
Proof.
  intros Hok. unfold Scene.updateFromGameState, created.
  set (s0 := Scene.lockInput (Scene.set_startingPlaceholder false s)).
  destruct (lockInput_fields (Scene.set_startingPlaceholder false s))
    as (Hc0 & Hs0 & Hn0 & Ht0). fold s0 in Hc0, Hs0, Hn0, Ht0. simpl in *.
  assert (Hok0 : sceneOk s0) by (by apply (sceneOk_ext s)).
  set (s1 := Scene.removeOld (Wire.cards gs) s0).
  destruct (removeOld_spec (Wire.cards gs) s0 Hok0) as (Hc1 & Ht1 & Hok1 & _).
  fold s1 in Hc1, Ht1, Hok1.
  set (s2 := foldl Scene.createMissing s1 (Wire.cards gs)).
  destruct (createAll_spec (Wire.cards gs) s1 Hok1)
    as (Hok2 & Ht2 & Hk2 & Hin2 & Hall2 & _ & _ & _).
  fold s2 in Hok2, Ht2, Hk2, Hin2, Hall2.
  assert (Hsub2 : forall x, x ∈ Scene.cards s2 ->
                            Scene.id x ∈ Wire.id <$> Wire.cards gs).
  { intros x Hx. destruct (Hin2 x Hx) as [Hx1|Hx1]; [|done].
    rewrite Hc1 in Hx1. by apply list_elem_of_filter in Hx1 as [? _]. }
  rewrite (removeExtra_nothing (Wire.cards gs) (Scene.cards s2) s2 Hsub2).
  split; [done|]. split; [done|]. split; [congruence|]. split; [done|].
  split.
  { intros x Hx Hid. apply Hk2. rewrite Hc1, Hc0. by apply list_elem_of_filter. }
  split; [|intros Hsome; apply Hall2; by rewrite Ht1, Ht0].
  (* a card object made in this run starts face down and unmatched *)
  assert (Hnew : forall l s', (forall x, x ∈ Scene.cards s' ->
              x ∈ Scene.cards s1 \/
              (Scene.isFaceUp x = false /\ Scene.isMatched x = false)) ->
            forall x, x ∈ Scene.cards (foldl Scene.createMissing s' l) ->
              x ∈ Scene.cards s1 \/
              (Scene.isFaceUp x = false /\ Scene.isMatched x = false)).
  { induction l as [|c l IH]; intros s' Hs' x Hx; [by apply Hs'|].
    simpl in Hx. revert x Hx. apply IH. intros x Hx.
    unfold Scene.createMissing, Scene.createCardInstance in Hx.
    destruct (Scene.find_card (Wire.id c) (Scene.cards s')); [by apply Hs'|].
    destruct (Scene.fbxTemplate s'); [|by apply Hs'].
    simpl in Hx. apply elem_of_app in Hx as [Hx|Hx]; [by apply Hs'|].
    apply list_elem_of_singleton in Hx. subst x. by right. }
  intros x Hx. destruct (Hnew (Wire.cards gs) s1 ltac:(by left) x Hx) as [H1|H1];
    [|by right].
  left. rewrite Hc1, Hc0 in H1. by apply list_elem_of_filter in H1 as [_ ?].
Qed.

Lemma syncLocal_keeps (g : Wire.Card) (c : Scene.CardObj) :
  Scene.id (Scene.syncLocal g c) = Scene.id c /\
  Scene.mesh (Scene.syncLocal g c) = Scene.mesh c /\
  (Scene.isMatched c = true -> Scene.isMatched (Scene.syncLocal g c) = true) /\
  Scene.isFaceUp (Scene.syncLocal g c) = Wire.isFaceUp g /\
  (Wire.isMatched g = true -> Scene.isMatched (Scene.syncLocal g c) = true) /\
  (Scene.isMatched (Scene.syncLocal g c) = true ->
     Wire.isMatched g = true \/ Scene.isMatched c = true) /\
  (Wire.isFaceUp g <> Scene.isFaceUp c ->
     Scene.value (Scene.syncLocal g c) = Wire.value g) /\
  (Wire.isFaceUp g = Scene.isFaceUp c ->
     Scene.value (Scene.syncLocal g c) = Scene.value c).
Proof.
  destruct g as [gi gv [] []], c as [ci cv cm [] [] ch]; cbv;
    repeat split; intros; try done; auto.
Qed.

Lemma sync_keeps_matched (l : list Wire.Card) (s : Scene.State)
    (c : Scene.CardObj) :
  c ∈ Scene.cards s ->
  exists c', c' ∈ Scene.cards (foldl Scene.syncState s l) /\
             Scene.id c' = Scene.id c /\ Scene.mesh c' = Scene.mesh c /\
             (Scene.isMatched c = true -> Scene.isMatched c' = true).
Proof.
  revert s c. induction l as [|g l IH]; intros s c Hc; simpl.
  - exists c. by repeat split.
  - assert (Hstep : exists c1, c1 ∈ Scene.cards (Scene.syncState s g) /\
              Scene.id c1 = Scene.id c /\ Scene.mesh c1 = Scene.mesh c /\
              (Scene.isMatched c = true -> Scene.isMatched c1 = true)).
    { unfold Scene.syncState. simpl.
      induction (Scene.cards s) as [|x xs IHx]; [by apply elem_of_nil in Hc|].
      simpl. case_bool_decide as Hx.
      - apply elem_of_cons in Hc as [->|Hc].
        + exists (Scene.syncLocal g x). split; [apply list_elem_of_here|].
          destruct (syncLocal_keeps g x) as (? & ? & ? & _). by repeat split.
        + exists c. split; [by apply list_elem_of_further|]. by repeat split.
      - apply elem_of_cons in Hc as [->|Hc].
        + exists x. split; [apply list_elem_of_here|]. by repeat split.
        + destruct (IHx Hc) as (c1 & H1 & ?). exists c1.
          split; [by apply list_elem_of_further|done]. }
    destruct Hstep as (c1 & Hc1 & Hi1 & Hm1 & Hk1).
    destruct (IH _ c1 Hc1) as (c' & Hc' & Hi' & Hm' & Hk').
    exists c'. split; [done|]. split; [congruence|]. split; [congruence|]. auto.
Qed.

(** X13. A card object that is matched stays matched for as long as its
    id is in the states that arrive, whatever these states say about the
    card: updateFromGameState sets [isMatched] and never clears it, so
    the first state of a new game that uses the same ids leaves the card
    matched (and the same model in the scene). *)
Theorem matched_card_stays_matched
    (gs : Wire.GameState) (s : Scene.State) (c : Scene.CardObj) :
  sceneOk s -> c ∈ Scene.cards s -> Scene.isMatched c = true ->
  Scene.id c ∈ stateIds gs ->
  exists c', c' ∈ Scene.cards (Scene.updateFromGameState (Some gs) s) /\
             Scene.id c' = Scene.id c /\ Scene.mesh c' = Scene.mesh c /\
             Scene.isMatched c' = true.
Proof.
  intros Hok Hc Hm Hid.
  destruct (update_as_phases gs s Hok) as (-> & _ & _ & _ & Hkeep & _).
  assert (Hc2 : c ∈ Scene.cards (created gs s)).
  { apply Hkeep; [done|]. unfold stateIds in Hid.
    by apply elem_of_list_to_set in Hid. }
  destruct (sync_keeps_matched (Wire.cards gs) _ c Hc2) as (c' & Hc' & Hi & Hme & Hk).
  exists c'. destruct (releaseInput_fields
    (foldl Scene.syncState (created gs s) (Wire.cards gs))) as (-> & _).
  split; [done|]. split; [done|]. split; [done|]. by apply Hk.
Qed.

Lemma matched_card_stays_matched_witness :
  exists c', c' ∈ Scene.cards (Scene.updateFromGameState (Some nextGame) matchedScene) /\
             Scene.id c' = 1%nat /\ Scene.isMatched c' = true.
Proof.
  destruct (matched_card_stays_matched nextGame matchedScene
              (Scene.mkCardObj 1 (JS.Str "A") (Scene.mkMesh 0 1) true true true))
    as (c' & Hc' & Hi & _ & Hm).
  - unfold sceneOk. vm_compute Scene.scene. vm_compute Scene.cards.
    vm_compute Scene.nextHandle. split; [done|]. split.
    + cbn. repeat constructor; rewrite ?elem_of_cons, ?elem_of_nil; intuition lia.
    + split; intros x Hx; repeat (apply elem_of_cons in Hx as [->|Hx]);
        try (by apply elem_of_nil in Hx); simpl; try done; lia.
  - vm_compute. apply list_elem_of_here.
  - reflexivity.
  - unfold stateIds. apply elem_of_list_to_set. simpl. apply list_elem_of_here.
  - exists c'. by repeat split.
Defined.

Lemma find_wire_Some (i : nat) (l : list Wire.Card) (g : Wire.Card) :
  Scene.find_wire i l = Some g -> Wire.id g = i /\ g ∈ l.
Proof.
  unfold Scene.find_wire. induction l as [|x l IH]; simpl; [done|].
  case_bool_decide as Hx.
  - intros [= ->]. split; [done|apply list_elem_of_here].
  - intros H. destruct (IH H). split; [done|]. by apply list_elem_of_further.
Qed.

Lemma update_found_fmap (i : nat) (f : Scene.CardObj -> Scene.CardObj)
    (l : list Scene.CardObj) :
  NoDup (Scene.id <$> l) ->
  Scene.update_found i f l
  = (fun c => if bool_decide (Scene.id c = i) then f c else c) <$> l.
Proof.
  induction l as [|c l IH]; intros Hnd; [done|].
  cbn [fmap list_fmap] in Hnd. apply NoDup_cons in Hnd as [Hc Hnd].
  cbn [fmap list_fmap Scene.update_found]. case_bool_decide as Hi.
  - f_equal. symmetry. rewrite <- (list_fmap_id l) at 2.
    apply list_fmap_ext. intros k x Hx. simpl.
    rewrite bool_decide_eq_false_2; [done|]. intros Hxi. apply Hc.
    rewrite Hi, <- Hxi. apply list_elem_of_fmap_2. by eapply list_elem_of_lookup_2.
  - f_equal. by apply IH.
Qed.

(** The flags after "update states and animate flips", for unique ids. *)
Lemma sync_cards (gameCards : list Wire.Card) (s : Scene.State) :
  NoDup (Scene.id <$> Scene.cards s) -> NoDup (Wire.id <$> gameCards) ->
  foldl Scene.syncState s gameCards
  = Scene.set_cards (syncWith gameCards <$> Scene.cards s) s.
Proof.
  revert s. induction gameCards as [|g rest IH]; intros s Hs Hg.
  - simpl. unfold syncWith. simpl. rewrite list_fmap_id. symmetry.
    apply set_cards_same.
  - cbn [fmap list_fmap] in Hg. apply NoDup_cons in Hg as [Hgi Hg].
    simpl. unfold Scene.syncState at 2.
    rewrite (update_found_fmap _ _ _ Hs).
    rewrite IH; [|simpl|done].
    + unfold Scene.set_cards. simpl. f_equal. rewrite <- list_fmap_compose.
      apply list_fmap_ext. intros k c Hc. simpl.
      unfold syncWith. unfold Scene.find_wire. simpl.
      destruct (decide (Scene.id c = Wire.id g)) as [He|He].
      * rewrite (bool_decide_eq_true_2 (Scene.id c = Wire.id g)) by done.
        rewrite (bool_decide_eq_true_2 (Wire.id g = Scene.id c)) by done.
        destruct (syncLocal_keeps g c) as (Hid & _). rewrite Hid.
        fold (Scene.find_wire (Scene.id c) rest).
        destruct (Scene.find_wire (Scene.id c) rest) as [g'|] eqn:Hf; [|done].
        exfalso. apply find_wire_Some in Hf as [Hi Hin]. apply Hgi.
        rewrite <- He, <- Hi. by apply list_elem_of_fmap_2.
      * rewrite (bool_decide_eq_false_2 (Scene.id c = Wire.id g)) by done.
        by rewrite (bool_decide_eq_false_2 (Wire.id g = Scene.id c)) by done.
    + rewrite <- list_fmap_compose.
      erewrite list_fmap_ext; [exact Hs|]. intros k c Hc. simpl.
      case_bool_decide; [|done]. by destruct (syncLocal_keeps g c) as (-> & _).
Qed.

Lemma created_NoDup (gs : Wire.GameState) (s : Scene.State) :
  NoDup (Scene.id <$> Scene.cards s) ->
  NoDup (Scene.id <$> Scene.cards (created gs s)).
Proof.
  intros Hnd. unfold created.
  assert (H1 : NoDup (Scene.id <$> Scene.cards
     (Scene.removeOld (Wire.cards gs)
        (Scene.lockInput (Scene.set_startingPlaceholder false s))))).
  { destruct (lockInput_fields (Scene.set_startingPlaceholder false s))
      as (Hc0 & _). simpl in Hc0.
    unfold Scene.removeOld. case_bool_decide.
    - simpl.
      rewrite (foldl_keeps (fun st c => Scene.scene_remove (Scene.mesh c) st)
                 Scene.cards) by done.
      rewrite Hc0. eapply sublist_NoDup; [exact Hnd|].
      apply fmap_sublist, sublist_filter.
    - by rewrite Hc0. }
  revert H1. generalize (Scene.removeOld (Wire.cards gs)
        (Scene.lockInput (Scene.set_startingPlaceholder false s))).
  induction (Wire.cards gs) as [|c l IH]; intros s1 H1; [done|].
  simpl. apply IH. unfold Scene.createMissing, Scene.createCardInstance.
  destruct (Scene.find_card (Wire.id c) (Scene.cards s1)) eqn:Hf; [done|].
  destruct (Scene.fbxTemplate s1); [|done]. simpl.
  rewrite fmap_app. apply NoDup_app. split; [done|]. split.
  - intros i Hi Hi'. simpl in Hi'. apply list_elem_of_singleton in Hi'. subst i.
    by apply find_card_None in Hf.
  - simpl. apply NoDup_singleton.
Qed.

(** The flags after updateFromGameState run in one go. *)
Lemma update_flags
    (gs : Wire.GameState) (s : Scene.State) :
  sceneOk s -> NoDup (Scene.id <$> Scene.cards s) ->
  NoDup (Wire.id <$> Wire.cards gs) ->
  NoDup (Scene.id <$> Scene.cards (Scene.updateFromGameState (Some gs) s)) /\
  forall g c', g ∈ Wire.cards gs ->
    c' ∈ Scene.cards (Scene.updateFromGameState (Some gs) s) ->
    Scene.id c' = Wire.id g ->
    Scene.isFaceUp c' = Wire.isFaceUp g /\
    (Wire.isMatched g = true -> Scene.isMatched c' = true) /\
    (Scene.isMatched c' = true ->
       Wire.isMatched g = true \/
       exists c, c ∈ Scene.cards s /\ Scene.id c = Scene.id c' /\
                 Scene.isMatched c = true) /\
    (forall c, c ∈ Scene.cards s -> Scene.id c = Scene.id c' ->
       (Scene.isFaceUp c <> Wire.isFaceUp g -> Scene.value c' = Wire.value g) /\
       (Scene.isFaceUp c = Wire.isFaceUp g -> Scene.value c' = Scene.value c)).
Proof.
  intros Hok Hs Hg.
  destruct (update_as_phases gs s Hok) as (-> & _ & _ & Hsub & Hkeep & Hnew & _).
  pose proof (created_NoDup gs s Hs) as Hnd2.
  rewrite (sync_cards (Wire.cards gs) (created gs s) Hnd2 Hg).
  destruct (releaseInput_fields
    (Scene.set_cards (syncWith (Wire.cards gs) <$> Scene.cards (created gs s))
                     (created gs s))) as (-> & _). simpl.
  split.
  { rewrite <- list_fmap_compose. erewrite list_fmap_ext; [exact Hnd2|].
    intros k c Hc. simpl. unfold syncWith.
    destruct (Scene.find_wire (Scene.id c) (Wire.cards gs)) as [w|]; [|done].
    by destruct (syncLocal_keeps w c) as (-> & _). }
  intros g c' Hgin Hc' Hid.
  apply list_elem_of_fmap in Hc' as (c2 & -> & Hc2).
  unfold syncWith in *.
  destruct (Scene.find_wire (Scene.id c2) (Wire.cards gs)) as [g0|] eqn:Hf.
  - destruct (find_wire_Some _ _ _ Hf) as [Hi0 Hin0].
    destruct (syncLocal_keeps g0 c2)
      as (Hid2 & _ & _ & Hface & Hmatch & Hwhy & Hval & Hval').
    assert (g0 = g).
    { apply (NoDup_fmap_unique Wire.id (Wire.cards gs)); try done.
      rewrite Hi0, <- Hid2. exact Hid. }
    subst g0. split; [done|]. split; [done|]. split.
    + intros Hm. destruct (Hwhy Hm) as [?|Hm2]; [by left|].
      destruct (Hnew c2 Hc2) as [Hold|[_ Hf2]]; [|congruence].
      right. exists c2. by rewrite Hid2.
    + intros c Hc Hidc. rewrite Hid2 in Hidc.
      assert (c = c2).
      { apply (NoDup_fmap_unique Scene.id (Scene.cards (created gs s)));
          try done. apply Hkeep; [done|]. rewrite Hidc. by apply Hsub. }
      subst c. split; [intros Hne; apply Hval; congruence | intros He; by apply Hval'].
  - exfalso. apply find_wire_None in Hf. apply Hf. by apply Hsub.
Qed.

(** X14. A call of updateFromGameState that starts while no other call
    waits, and during which no other call starts (clicks and timers may
    run between its awaits), leaves the flags of its state: when the ids
    are unique, in the scene and in the state, every card object has the
    face of its card in the state once the call has ended, and it is
    matched if its card is; it is matched only if its card is or if it
    was matched before.  The value of a card object is that of the state
    whenever its face changed, and is left as it was otherwise. *)
Theorem card_objects_follow_the_flags
    (gs : Wire.GameState) (es : list SceneAsync.Event) (g : SceneInput.Stage) :
  sceneOk (SceneInput.st g) ->
  NoDup (Scene.id <$> Scene.cards (SceneInput.st g)) ->
  NoDup (Wire.id <$> Wire.cards gs) ->
  Forall (fun e => arrives e = false) es ->
  SceneAsync.calls (callThen gs es g) = [] ->
  NoDup (Scene.id <$> Scene.cards (sceneOf (callThen gs es g))) /\
  forall g0 c', g0 ∈ Wire.cards gs ->
    c' ∈ Scene.cards (sceneOf (callThen gs es g)) ->
    Scene.id c' = Wire.id g0 ->
    Scene.isFaceUp c' = Wire.isFaceUp g0 /\
    (Wire.isMatched g0 = true -> Scene.isMatched c' = true) /\
    (Scene.isMatched c' = true ->
       Wire.isMatched g0 = true \/
       exists c, c ∈ Scene.cards (SceneInput.st g) /\ Scene.id c = Scene.id c' /\
                 Scene.isMatched c = true) /\
    (forall c, c ∈ Scene.cards (SceneInput.st g) -> Scene.id c = Scene.id c' ->
       (Scene.isFaceUp c <> Wire.isFaceUp g0 -> Scene.value c' = Wire.value g0) /\
       (Scene.isFaceUp c = Wire.isFaceUp g0 -> Scene.value c' = Scene.value c)).
Proof.
  intros Hok Hs Hg Hes Hdone.
  destruct (call_alone gs es g Hok Hes Hdone) as (-> & _).
  by apply update_flags.
Qed.

Lemma card_objects_follow_the_flags_witness :
  sceneOk matchedScene /\
  NoDup (Scene.id <$>
           Scene.cards
             (sceneOf (callThen nextGame
                         [SceneAsync.Resume 0; SceneAsync.Elapse 700;
                          SceneAsync.Resume 0]
                         (SceneInput.mkStage matchedScene true true 0 0 [] [])))) /\
  Forall (fun c' => Scene.id c' = 1%nat -> Scene.isFaceUp c' = false)
    (Scene.cards
       (sceneOf (callThen nextGame
                   [SceneAsync.Resume 0; SceneAsync.Elapse 700;
                    SceneAsync.Resume 0]
                   (SceneInput.mkStage matchedScene true true 0 0 [] [])))).
Proof.
  assert (Hok : sceneOk matchedScene).
  { unfold sceneOk. vm_compute Scene.scene. vm_compute Scene.cards.
    vm_compute Scene.nextHandle. split; [done|]. split.
    + cbn. repeat constructor; rewrite ?elem_of_cons, ?elem_of_nil; intuition lia.
    + split; intros x Hx; repeat (apply elem_of_cons in Hx as [->|Hx]);
        try (by apply elem_of_nil in Hx); simpl; try done; lia. }
  split; [exact Hok|].
  destruct (card_objects_follow_the_flags nextGame
              [SceneAsync.Resume 0; SceneAsync.Elapse 700; SceneAsync.Resume 0]
              (SceneInput.mkStage matchedScene true true 0 0 [] []) Hok)
    as [Hnd H].
  - vm_compute. repeat constructor; rewrite ?elem_of_cons, ?elem_of_nil; intuition lia.
  - vm_compute. repeat constructor; rewrite ?elem_of_cons, ?elem_of_nil; intuition lia.
  - by repeat constructor.
  - reflexivity.
  - split; [exact Hnd|]. apply Forall_forall. intros c' Hc' Hid.
    exact (proj1 (H (Wire.mkCard 1 JS.Null false false) c'
                    (list_elem_of_here _ _) Hc' Hid)).
Defined.

(** Calls that overlap can leave a face that the last state does not
    have.  The call for [oneUp] waits for the flip of card 1; the call
    for [twoUp], in which card 1 is face down again, finds the object
    still face down, leaves it and waits for the flip of card 2; then
    the first call goes on and sets card 1 face up.  At the end both
    cards are face up. *)
Example overlapping_calls_leave_a_stale_face :
  SceneAsync.calls
    (SceneAsync.run
       [SceneAsync.Arrive (Some oneUp); SceneAsync.Resume 0;
        SceneAsync.Arrive (Some twoUp); SceneAsync.Resume 1;
        SceneAsync.Resume 0; SceneAsync.Resume 0]
       (SceneAsync.mkWorld demoStage [])) = [] /\
  (fun c => (Scene.id c, Scene.isFaceUp c)) <$>
    Scene.cards
      (sceneOf
         (SceneAsync.run
            [SceneAsync.Arrive (Some oneUp); SceneAsync.Resume 0;
             SceneAsync.Arrive (Some twoUp); SceneAsync.Resume 1;
             SceneAsync.Resume 0; SceneAsync.Resume 0]
            (SceneAsync.mkWorld demoStage [])))
  = [(1%nat, true); (2%nat, true)] /\
  (fun c => (Wire.id c, Wire.isFaceUp c)) <$> Wire.cards twoUp
  = [(1%nat, false); (2%nat, true)].
Proof. split; [reflexivity|]. split; reflexivity. Qed.

Lemma createAll_nothing (gameCards : list Wire.Card) (s : Scene.State) :
  (forall g, g ∈ gameCards ->
     Scene.fbxTemplate s = None \/ Wire.id g ∈ Scene.id <$> Scene.cards s) ->
  foldl Scene.createMissing s gameCards = s.
Proof.
  induction gameCards as [|g l IH]; intros Hl; [done|]. simpl.
  assert (Hg : Scene.createMissing s g = s).
  { unfold Scene.createMissing, Scene.createCardInstance.
    destruct (Scene.find_card (Wire.id g) (Scene.cards s)) eqn:Hf; [done|].
    destruct (Hl g (list_elem_of_here _ _)) as [-> | Hin]; [done|].
    by apply find_card_None in Hf. }
  rewrite Hg. apply IH. intros x Hx. by apply Hl, list_elem_of_further.
Qed.

Lemma syncWith_twice (gameCards : list Wire.Card) (c : Scene.CardObj) :
  syncWith gameCards (syncWith gameCards c) = syncWith gameCards c.
Proof.
  unfold syncWith.
  destruct (Scene.find_wire (Scene.id c) gameCards) as [g|] eqn:Hf.
  - destruct (syncLocal_keeps g c) as (-> & _). rewrite Hf.
    destruct g as [gi gv [] []], c as [ci cv cm [] [] ch]; by cbv.
  - by rewrite Hf.
Qed.

(** A scene that already shows a state is left as it is by that state. *)
Lemma update_settled (gs : Wire.GameState) (t : Scene.State) :
  Scene.startingPlaceholder t = false -> Scene.inputLocked t = false ->
  Scene.inputLockTimer t = None ->
  NoDup (Scene.id <$> Scene.cards t) -> NoDup (Wire.id <$> Wire.cards gs) ->
  (forall x, x ∈ Scene.cards t -> Scene.id x ∈ Wire.id <$> Wire.cards gs) ->
  (is_Some (Scene.fbxTemplate t) ->
     forall i, i ∈ Wire.id <$> Wire.cards gs -> i ∈ Scene.id <$> Scene.cards t) ->
  (forall x, x ∈ Scene.cards t -> syncWith (Wire.cards gs) x = x) ->
  Scene.updateFromGameState (Some gs) t = t.
Proof.
  destruct t as [cs sc tpl nh il ilt ats sp]. simpl.
  intros -> -> -> Hnd Hg Hin Hall Hsync.
  unfold Scene.updateFromGameState.
  change (Scene.lockInput _) with (Scene.mkState cs sc tpl nh true None ats false).
  set (t1 := Scene.mkState cs sc tpl nh true None ats false).
  assert (H1 : Scene.removeOld (Wire.cards gs) t1 = t1).
  { unfold Scene.removeOld. simpl.
    rewrite (filter_none
               (fun c => Scene.id c ∉ (list_to_set (Wire.id <$> Wire.cards gs) : gset nat)));
      [done|].
    intros x Hx Hn. apply Hn. apply elem_of_list_to_set. by apply Hin. }
  rewrite H1.
  rewrite createAll_nothing.
  2:{ intros g Hgin. simpl. destruct tpl as [tp|]; [right|by left].
      apply Hall; [done|]. by apply list_elem_of_fmap_2. }
  rewrite removeExtra_nothing by exact Hin.
  rewrite sync_cards by done.
  assert (Hcs : syncWith (Wire.cards gs) <$> cs = cs).
  { rewrite <- (list_fmap_id cs) at 2. apply list_fmap_ext.
    intros k x Hx. apply Hsync. by eapply list_elem_of_lookup_2. }
  unfold t1, Scene.releaseInput, Scene.set_cards, Scene.set_inputLocked. simpl.
  by rewrite Hcs.
Qed.

Lemma update_placeholder (gs : Wire.GameState) (s : Scene.State) :
  Scene.startingPlaceholder (Scene.updateFromGameState (Some gs) s) = false /\
  Scene.inputLockTimer (Scene.updateFromGameState (Some gs) s) = None /\
  Scene.inputLocked (Scene.updateFromGameState (Some gs) s) = false.
Proof.
  unfold Scene.updateFromGameState.
  set (s4 := foldl Scene.syncState _ _).
  assert (H4 : Scene.startingPlaceholder s4 = false).
  { unfold s4. rewrite (foldl_keeps Scene.syncState Scene.startingPlaceholder) by done.
    rewrite (foldl_keeps (Scene.removeExtra (Wire.cards gs)) Scene.startingPlaceholder).
    2:{ intros a x. unfold Scene.removeExtra.
        by destruct (Scene.find_wire (Scene.id x) (Wire.cards gs)). }
    rewrite (foldl_keeps Scene.createMissing Scene.startingPlaceholder).
    2:{ intros a x. unfold Scene.createMissing, Scene.createCardInstance.
        destruct (Scene.find_card (Wire.id x) (Scene.cards a)); [done|].
        by destruct (Scene.fbxTemplate a). }
    unfold Scene.removeOld. case_bool_decide.
    - simpl.
      rewrite (foldl_keeps (fun st c => Scene.scene_remove (Scene.mesh c) st)
                 Scene.startingPlaceholder) by done.
      unfold Scene.lockInput. simpl. by destruct (Scene.inputLockTimer s).
    - unfold Scene.lockInput. simpl. by destruct (Scene.inputLockTimer s). }
  unfold Scene.releaseInput. simpl. clearbody s4.
  destruct s4 as [cs sc tpl nh il [h|] ats sp]; simpl in *; by subst.
Qed.

(** The same state processed twice in one go. *)
Lemma update_twice
    (gs : Wire.GameState) (s : Scene.State) :
  sceneOk s -> NoDup (Scene.id <$> Scene.cards s) ->
  NoDup (Wire.id <$> Wire.cards gs) ->
  Scene.updateFromGameState (Some gs)
    (Scene.updateFromGameState (Some gs) s)
  = Scene.updateFromGameState (Some gs) s.
Proof.
  intros Hok Hs Hg.
  destruct (update_placeholder gs s) as (Hsp & Htm & Hlk).
  apply update_settled; try done;
    destruct (update_as_phases gs s Hok) as (Heq & _ & Htpl & Hsub & _ & _ & Hall);
    pose proof (created_NoDup gs s Hs) as Hnd2;
    rewrite Heq, (sync_cards (Wire.cards gs) (created gs s) Hnd2 Hg);
    unfold Scene.releaseInput; simpl;
    destruct (Scene.inputLockTimer (created gs s)); simpl.
  all: try (rewrite <- list_fmap_compose; erewrite list_fmap_ext; [exact Hnd2|];
            intros k c Hc; simpl; unfold syncWith;
            destruct (Scene.find_wire (Scene.id c) (Wire.cards gs)) as [w|]; [|done];
            by destruct (syncLocal_keeps w c) as (-> & _)).
  all: try (intros x Hx; apply list_elem_of_fmap in Hx as (c & -> & Hc);
            first [ apply syncWith_twice
                  | unfold syncWith;
                    destruct (Scene.find_wire (Scene.id c) (Wire.cards gs)) as [w|];
                    [destruct (syncLocal_keeps w c) as (-> & _)|]; by apply Hsub ]).
  all: intros Ht i Hi; rewrite Htpl in Ht; specialize (Hall Ht i Hi);
    apply list_elem_of_fmap in Hall as (c & -> & Hc);
    apply list_elem_of_fmap; exists (syncWith (Wire.cards gs) c);
    (split; [|by apply list_elem_of_fmap_2]);
    unfold syncWith;
    destruct (Scene.find_wire (Scene.id c) (Wire.cards gs)) as [w|]; [|done];
    by destruct (syncLocal_keeps w c) as (-> & _).
Qed.

(** X15. A state that arrives a second time changes nothing.  When the
    ids are unique, in the scene and in the state, and a call for a
    state has ended, a second call for the same state (each of the two
    starts while no call waits, and no other call starts before it has
    ended) leaves every card object and the scene graph as the first
    call left them: no model is cloned or removed and no flag or value
    is touched.  When nothing at all runs between the awaits of the two
    calls, the lock and the timers are as the first call left them,
    too. *)
Theorem same_state_again_changes_nothing
    (gs : Wire.GameState) (es1 es2 : list SceneAsync.Event)
    (g : SceneInput.Stage) :
  sceneOk (SceneInput.st g) ->
  NoDup (Scene.id <$> Scene.cards (SceneInput.st g)) ->
  NoDup (Wire.id <$> Wire.cards gs) ->
  Forall (fun e => arrives e = false) es1 ->
  Forall (fun e => arrives e = false) es2 ->
  SceneAsync.calls (callThen gs es1 g) = [] ->
  SceneAsync.calls
    (SceneAsync.run (SceneAsync.Arrive (Some gs) :: es2) (callThen gs es1 g)) = [] ->
  sameCards
    (sceneOf
       (SceneAsync.run (SceneAsync.Arrive (Some gs) :: es2) (callThen gs es1 g)))
    (sceneOf (callThen gs es1 g)) /\
  SceneAsync.run
    (SceneAsync.Arrive (Some gs)
       :: replicate (S (length (Wire.cards gs))) (SceneAsync.Resume 0))
    (callThen gs (replicate (S (length (Wire.cards gs))) (SceneAsync.Resume 0)) g)
  = callThen gs (replicate (S (length (Wire.cards gs))) (SceneAsync.Resume 0)) g.
Proof.
  intros Hok Hs Hg Hes1 Hes2 Hdone1 Hdone2.
  pose proof (update_twice gs (SceneInput.st g) Hok Hs Hg) as Htwice.
  destruct (update_cards gs (SceneInput.st g) Hok) as (_ & _ & _ & _ & Hok').
  split.
  - pose proof (call_alone gs es1 g Hok Hes1 Hdone1) as H1.
    destruct (callThen gs es1 g) as [g1 cs1] eqn:Hw1.
    cbn [SceneAsync.calls] in Hdone1. subst cs1.
    unfold sceneOf in *. cbn [SceneAsync.stage] in *.
    change (SceneAsync.run (SceneAsync.Arrive (Some gs) :: es2)
              (SceneAsync.mkWorld g1 [])) with (callThen gs es2 g1) in *.
    assert (Hok1 : sceneOk (SceneInput.st g1))
      by (by apply (sameCards_sceneOk _ _ (sameCards_sym _ _ H1))).
    pose proof (call_alone gs es2 g1 Hok1 Hes2 Hdone2) as H2.
    eapply sameCards_trans; [exact H2|].
    eapply sameCards_trans; [apply update_sameCards, H1|].
    rewrite Htwice. by apply sameCards_sym.
  - rewrite (call_uninterrupted gs g Hok).
    change (SceneAsync.run ?es (SceneAsync.mkWorld ?a [])) with (callThen gs
      (replicate (S (length (Wire.cards gs))) (SceneAsync.Resume 0)) a).
    rewrite call_uninterrupted by done.
    f_equal. unfold SceneInput.onGameState.
    cbn [SceneInput.st SceneInput.set_st SceneInput.ready
         SceneInput.onCardClickCallback SceneInput.now SceneInput.timerSeq
         SceneInput.due SceneInput.clicked]. by rewrite Htwice.
Qed.

Lemma same_state_again_changes_nothing_witness :
  sceneOk matchedScene /\
  sameCards
    (sceneOf
       (SceneAsync.run
          [SceneAsync.Arrive (Some nextGame); SceneAsync.Resume 0]
          (callThen nextGame [SceneAsync.Resume 0; SceneAsync.Resume 0]
             (SceneInput.mkStage matchedScene true true 0 0 [] []))))
    (sceneOf
       (callThen nextGame [SceneAsync.Resume 0; SceneAsync.Resume 0]
          (SceneInput.mkStage matchedScene true true 0 0 [] []))).
Proof.
  assert (Hok : sceneOk matchedScene).
  { unfold sceneOk. vm_compute Scene.scene. vm_compute Scene.cards.
    vm_compute Scene.nextHandle. split; [done|]. split.
    + cbn. repeat constructor; rewrite ?elem_of_cons, ?elem_of_nil; intuition lia.
    + split; intros x Hx; repeat (apply elem_of_cons in Hx as [->|Hx]);
        try (by apply elem_of_nil in Hx); simpl; try done; lia. }
  split; [exact Hok|].
  refine (proj1 (same_state_again_changes_nothing nextGame
            [SceneAsync.Resume 0; SceneAsync.Resume 0] [SceneAsync.Resume 0]
            (SceneInput.mkStage matchedScene true true 0 0 [] [])
            Hok _ _ _ _ _ _)).
  - vm_compute. repeat constructor; rewrite ?elem_of_cons, ?elem_of_nil; intuition lia.
  - vm_compute. repeat constructor; rewrite ?elem_of_cons, ?elem_of_nil; intuition lia.
  - by repeat constructor.
  - by repeat constructor.
  - reflexivity.
  - reflexivity.
Defined.

(** After calls that overlapped, the state that came last is not the
    state of the scene, and a call for it changes something: card 1,
    left face up by the overtaken call, is turned face down. *)
Example same_state_after_overlapping_calls :
  (fun c => (Scene.id c, Scene.isFaceUp c)) <$>
    Scene.cards
      (sceneOf
         (SceneAsync.run
            [SceneAsync.Arrive (Some oneUp); SceneAsync.Resume 0;
             SceneAsync.Arrive (Some twoUp); SceneAsync.Resume 1;
             SceneAsync.Resume 0; SceneAsync.Resume 0;
             SceneAsync.Arrive (Some twoUp); SceneAsync.Resume 0;
             SceneAsync.Resume 0]
            (SceneAsync.mkWorld demoStage [])))
  = [(1%nat, false); (2%nat, true)] /\
  SceneAsync.calls
    (SceneAsync.run
       [SceneAsync.Arrive (Some oneUp); SceneAsync.Resume 0;
        SceneAsync.Arrive (Some twoUp); SceneAsync.Resume 1;
        SceneAsync.Resume 0; SceneAsync.Resume 0;
        SceneAsync.Arrive (Some twoUp); SceneAsync.Resume 0;
        SceneAsync.Resume 0]
       (SceneAsync.mkWorld demoStage [])) = [].
Proof. split; reflexivity. Qed.

Lemma ensureFrontTexture_cases (parsed : string -> option string)
    (v : JS.value) (s : Textures.State) :
  Textures.ensureFrontTexture parsed v s
  = ((Textures.ensureFrontTexture parsed v
        (Textures.mkState (Textures.frontTextures s) [])).1,
     Textures.mkState (Textures.frontTextures s)
       (Textures.requests s ++
          (if JS.truthy v && bool_decide (Textures.Map_get v (Textures.frontTextures s) = None)
           then [Textures.texturePath parsed v] else []))%list).
Proof.
  unfold Textures.ensureFrontTexture. simpl.
  destruct (JS.truthy v); simpl.
  - destruct (Textures.Map_get v (Textures.frontTextures s)) eqn:Hg; simpl.
    + rewrite app_nil_r. by destruct s.
    + done.
  - rewrite app_nil_r. by destruct s.
Qed.

(** X16. The textures of a state are asked for card by card, and the
    cache is filled only when a load has ended: the calls that
    updateFromGameState makes at its start leave the cache as it is and
    give the loader one request for every card whose value is truthy and
    not in the cache, in the order of the cards, so a value that two
    cards share is requested twice.  Cards without a value (null, the
    empty string, 0) make no request. *)
Theorem textures_are_asked_per_card
    (parsed : string -> option string)
    (gameCards : list Wire.Card) (s : Textures.State) :
  Textures.queueTextures parsed gameCards s
  = (promiseFor parsed (Textures.frontTextures s) <$> gameCards,
     Textures.mkState (Textures.frontTextures s)
       (Textures.requests s ++
          (Textures.texturePath parsed ∘ Wire.value <$>
             filter (fun c => needsLoad (Textures.frontTextures s) c = true)
                    gameCards))%list).
Proof.
  unfold Textures.queueTextures.
  assert (H : forall (l : list Wire.Card) (ps : list Textures.Promise)
                     (t : Textures.State),
    foldl (fun acc c =>
             let '(p, s) := Textures.ensureFrontTexture parsed (Wire.value c) acc.2 in
             ((acc.1 ++ [p])%list, s)) (ps, t) l
    = ((ps ++ (promiseFor parsed (Textures.frontTextures t) <$> l))%list,
       Textures.mkState (Textures.frontTextures t)
         (Textures.requests t ++
            (Textures.texturePath parsed ∘ Wire.value <$>
               filter (fun c => needsLoad (Textures.frontTextures t) c = true) l))%list)).
  { induction l as [|c l IH]; intros ps t.
    - simpl. rewrite !app_nil_r. by destruct t.
    - cbn [foldl]. cbn [fst snd].
      rewrite (ensureFrontTexture_cases parsed (Wire.value c) t).
      rewrite IH. cbn [Textures.frontTextures Textures.requests].
      rewrite <- !app_assoc. f_equal. f_equal. f_equal.
      unfold needsLoad at 2.
      destruct (JS.truthy (Wire.value c) &&
                bool_decide (Textures.Map_get (Wire.value c) (Textures.frontTextures t) = None))
        eqn:Hn.
      + rewrite filter_cons_True by (unfold needsLoad; exact Hn). done.
      + rewrite filter_cons_False; [done|]. unfold needsLoad. by rewrite Hn. }
  apply (H gameCards [] s).
Qed.

Lemma Map_get_set (k : JS.value) (t : Textures.Texture) (m : Textures.TextureMap) :
  Textures.Map_get k (Textures.Map_set k t m) = Some t.
Proof.
  unfold Textures.Map_get. induction m as [|[k' t'] m IH]; simpl.
  - by rewrite bool_decide_eq_true_2.
  - destruct (decide (k' = k)) as [He|He].
    + rewrite (bool_decide_eq_true_2 _ He). simpl. by rewrite bool_decide_eq_true_2.
    + rewrite (bool_decide_eq_false_2 _ He). simpl.
      by rewrite (bool_decide_eq_false_2 _ He).
Qed.

Lemma Map_set_keeps (k k' : JS.value) (t : Textures.Texture)
    (m : Textures.TextureMap) :
  is_Some (Textures.Map_get k m) ->
  is_Some (Textures.Map_get k (Textures.Map_set k' t m)).
Proof.
  unfold Textures.Map_get. induction m as [|[k0 t0] m IH]; simpl.
  - by intros [x Hx].
  - destruct (decide (k0 = k')) as [He|He].
    + rewrite (bool_decide_eq_true_2 _ He). simpl. subst k0.
      destruct (decide (k' = k)) as [Hk|Hk].
      * by rewrite !(bool_decide_eq_true_2 _ Hk).
      * by rewrite !(bool_decide_eq_false_2 _ Hk).
    + rewrite (bool_decide_eq_false_2 _ He). simpl.
      destruct (decide (k0 = k)) as [Hk|Hk].
      * by rewrite !(bool_decide_eq_true_2 _ Hk).
      * by rewrite !(bool_decide_eq_false_2 _ Hk).
Qed.

Lemma textureStep_keeps (parsed : string -> option string) (v : JS.value)
    (es : list TextureEvent) (s : Textures.State) :
  is_Some (Textures.Map_get v (Textures.frontTextures s)) ->
  is_Some (Textures.Map_get v
             (Textures.frontTextures (foldl (textureStep parsed) s es))).
Proof.
  revert s. induction es as [|e es IH]; intros s Hs; [done|].
  simpl. apply IH. destruct e as [w|w t|w]; simpl; [|by apply Map_set_keeps|done].
  rewrite ensureFrontTexture_cases. exact Hs.
Qed.

(** X17. A texture that was loaded is never asked for again: once a load
    for a truthy value has succeeded, every later call for that value,
    whatever calls and loads came in between, resolves at once from the
    cache and gives the loader nothing.  A load that failed leaves no
    trace: the next call for the value asks the loader again, for the
    same path. *)
Theorem loaded_texture_is_not_asked_again
    (parsed : string -> option string) (v : JS.value) (t : Textures.Texture)
    (es : list TextureEvent) (s : Textures.State) :
  JS.truthy v = true ->
  (exists t',
     Textures.ensureFrontTexture parsed v
       (foldl (textureStep parsed) (Textures.onLoad v t s).2 es)
     = (Textures.Resolved t',
        foldl (textureStep parsed) (Textures.onLoad v t s).2 es)) /\
  Textures.ensureFrontTexture parsed v (Textures.onLoad v t s).2
    = (Textures.Resolved t, (Textures.onLoad v t s).2) /\
  (Textures.Map_get v (Textures.frontTextures s) = None ->
   Textures.ensureFrontTexture parsed v (Textures.onLoadError s).2
   = (Textures.Loading v (Textures.texturePath parsed v),
      Textures.mkState (Textures.frontTextures s)
        (Textures.requests s ++ [Textures.texturePath parsed v])%list)).
Proof.
  intros Hv. split; [|split].
  - destruct (textureStep_keeps parsed v es (Textures.onLoad v t s).2) as [t' Ht'].
    { simpl. rewrite Map_get_set. by exists t. }
    exists t'. unfold Textures.ensureFrontTexture at 1. by rewrite Hv, Ht'.
  - unfold Textures.ensureFrontTexture. rewrite Hv. simpl. by rewrite Map_get_set.
  - intros Hn. unfold Textures.ensureFrontTexture. rewrite Hv. simpl. by rewrite Hn.
Qed.

Lemma loaded_texture_is_not_asked_again_witness :
  JS.truthy (JS.Str "A") = true /\
  exists t',
    Textures.ensureFrontTexture (fun _ => None) (JS.Str "A")
      (foldl (textureStep (fun _ => None))
         (Textures.onLoad (JS.Str "A") (Textures.loaded 1)
            (Textures.mkState [] ["/assets/textures/card_01.png"])).2
         [Asked (JS.Str "B"); LoadDone (JS.Str "B") (Textures.loaded 2)])
    = (Textures.Resolved t',
       foldl (textureStep (fun _ => None))
         (Textures.onLoad (JS.Str "A") (Textures.loaded 1)
            (Textures.mkState [] ["/assets/textures/card_01.png"])).2
         [Asked (JS.Str "B"); LoadDone (JS.Str "B") (Textures.loaded 2)]).
Proof.
  split; [reflexivity|].
  exact (proj1 (loaded_texture_is_not_asked_again (fun _ => None) (JS.Str "A")
           (Textures.loaded 1)
           [Asked (JS.Str "B"); LoadDone (JS.Str "B") (Textures.loaded 2)]
           (Textures.mkState [] ["/assets/textures/card_01.png"]) eq_refl)).
Defined.

Lemma letter_index (parsed : string -> option string) (c : ascii) :
  Textures.letterChar c = true ->
  Textures.indexStr parsed (JS.Str (String c EmptyString)) = twoDigits (position c) /\
  (1 <= position c <= 26)%nat /\
  (97 <= nat_of_ascii (JS.lowerChar c))%nat.
Proof.
  intros H. unfold Textures.indexStr, Textures.letter. rewrite H. revert H.
  destruct c as [[] [] [] [] [] [] [] []]; intros H; vm_compute in H;
    try discriminate H; vm_compute; repeat split; lia.
Qed.

Lemma twoDigits_inj (n m : nat) :
  (n < 100)%nat -> (m < 100)%nat -> twoDigits n = twoDigits m -> n = m.
Proof.
  intros Hn Hm. unfold twoDigits.
  assert (Hd : forall k, (k < 100)%nat -> (k / 10 < 10)%nat).
  { intros k Hk. apply Nat.Div0.div_lt_upper_bound. lia. }
  pose proof (Nat.mod_upper_bound n 10 ltac:(lia)) as Hb.
  pose proof (Nat.mod_upper_bound m 10 ltac:(lia)) as Hb'.
  pose proof (Hd n Hn) as Ha. pose proof (Hd m Hm) as Ha'.
  rewrite (Nat.div_mod_eq n 10) at 3. rewrite (Nat.div_mod_eq m 10) at 3.
  generalize dependent (n / 10)%nat. generalize dependent (n mod 10)%nat.
  generalize dependent (m / 10)%nat. generalize dependent (m mod 10)%nat.
  intros b' Hb' a' Ha' b Hb a Ha [= H1 H2].
  apply (f_equal nat_of_ascii) in H1, H2.
  rewrite !nat_ascii_embedding in H1 by lia.
  rewrite !nat_ascii_embedding in H2 by lia.
  lia.
Qed.

(** X18. The texture of a letter is the file numbered by the place of
    the letter in the alphabet: for a value that is a single letter,
    upper or lower case, the path asked for is
    /assets/textures/card_NN.png with NN the place (A is 01, Z is 26)
    in two digits, without parseInt being consulted; two letters are
    given the same file exactly when they differ at most in case. *)
Theorem letter_texture_paths
    (parsed : string -> option string) (c1 c2 : ascii) :
  Textures.letterChar c1 = true -> Textures.letterChar c2 = true ->
  Textures.texturePath parsed (JS.Str (String c1 EmptyString))
    = "/assets/textures/card_" +:+ twoDigits (position c1) +:+ ".png" /\
  (1 <= position c1 <= 26)%nat /\
  (Textures.texturePath parsed (JS.Str (String c1 EmptyString))
     = Textures.texturePath parsed (JS.Str (String c2 EmptyString))
   <-> JS.lowerChar c1 = JS.lowerChar c2).
Proof.
  intros H1 H2.
  destruct (letter_index parsed c1 H1) as (E1 & B1 & L1).
  destruct (letter_index parsed c2 H2) as (E2 & B2 & L2).
  unfold Textures.texturePath. rewrite E1, E2.
  split; [done|]. split; [done|]. split.
  - intros Hp.
    assert (Ht : twoDigits (position c1) = twoDigits (position c2)).
    { revert Hp. unfold twoDigits.
      generalize (ascii_of_nat (48 + position c1 / 10))
                 (ascii_of_nat (48 + position c1 mod 10))
                 (ascii_of_nat (48 + position c2 / 10))
                 (ascii_of_nat (48 + position c2 mod 10)).
      intros a b a' b'. simpl. by intros [= -> ->]. }
    apply twoDigits_inj in Ht; [|lia|lia]. unfold position in Ht.
    rewrite <- (ascii_nat_embedding (JS.lowerChar c1)),
            <- (ascii_nat_embedding (JS.lowerChar c2)).
    f_equal. lia.
  - intros Hl. unfold position. by rewrite Hl.
Qed.

Lemma letter_texture_paths_witness :
  Textures.texturePath (fun _ => None) (JS.Str "h")
    = "/assets/textures/card_08.png" /\
  Textures.texturePath (fun _ => None) (JS.Str "h")
    = Textures.texturePath (fun _ => None) (JS.Str "H").
Proof.
  destruct (letter_texture_paths (fun _ => None) "h"%char "H"%char eq_refl eq_refl)
    as (Hp & _ & Hi).
  split; [exact Hp|]. apply Hi. reflexivity.
Defined.

Lemma shade_channel (c : Z) :
  0 <= c < 256 ->
  exists k, Board.shade 0 (PrimFloat.div (Board.ofZ 55) (Board.ofZ 100)) c
            = Board.Int k /\ darkened c k.
Proof.
  intros Hc.
  assert (Hall : forallb (fun n =>
            match Board.shade 0 (PrimFloat.div (Board.ofZ 55) (Board.ofZ 100))
                    (Z.of_nat n) with
            | Board.Int k =>
                (0 <=? k) && (k <=? Z.of_nat n)
                && (Z.abs (20 * k - 9 * Z.of_nat n) <=? 10)
            | _ => false
            end) (seq 0 256) = true) by (vm_compute; reflexivity).
  rewrite forallb_forall in Hall.
  assert (Hin : In (Z.to_nat c) (seq 0 256)) by (apply in_seq; lia).
  specialize (Hall (Z.to_nat c) Hin). rewrite Z2Nat.id in Hall by lia.
  destruct (Board.shade 0 _ c) as [k| |]; [|done|done].
  exists k. split; [done|]. unfold darkened. lia.
Qed.

Lemma hexGo_step (fuel : nat) (q d : Z) (acc : string) :
  0 <= d < 16 -> 0 < q ->
  Board.hexGo (S fuel) (16 * q + d) acc
  = Board.hexGo fuel q (String (Board.hexDigit d) acc).
Proof.
  intros Hd Hq. cbn [Board.hexGo].
  replace ((16 * q + d) mod 16) with d
    by (apply (Z.mod_unique_pos _ _ q); lia).
  replace ((16 * q + d) / 16) with q
    by (apply (Z.div_unique_pos _ _ q d); lia).
  destruct (q =? 0) eqn:E; [lia|done].
Qed.

Lemma hexGo_last (fuel : nat) (d : Z) (acc : string) :
  0 <= d < 16 ->
  Board.hexGo (S fuel) d acc = String (Board.hexDigit d) acc.
Proof.
  intros Hd. cbn [Board.hexGo].
  rewrite (Z.mod_small d 16), (Z.div_small d 16) by lia. done.
Qed.

(** Seven hex digits: a 1 and the three channels. *)
Lemma toString16_colour (r g b : Z) :
  0 <= r < 256 -> 0 <= g < 256 -> 0 <= b < 256 ->
  Board.slice1 (Board.toString16 (Board.Int (16777216 + r * 65536 + g * 256 + b)))
  = hex2 r +:+ hex2 g +:+ hex2 b.
Proof.
  intros Hr Hg Hb. unfold Board.toString16.
  set (z := 16777216 + r * 65536 + g * 256 + b).
  assert (Hz : 2 ^ 24 <= z < 2 ^ (24 + 1)) by (unfold z; lia).
  destruct (z <? 0) eqn:E; [lia|].
  rewrite (Z.abs_eq z) by lia.
  rewrite (Z.log2_unique z 24) by lia.
  replace (Z.to_nat 24) with 24%nat by reflexivity.
  pose proof (Z.div_mod r 16 ltac:(lia)) as Er.
  pose proof (Z.div_mod g 16 ltac:(lia)) as Eg.
  pose proof (Z.div_mod b 16 ltac:(lia)) as Eb.
  pose proof (Z.mod_pos_bound r 16 ltac:(lia)).
  pose proof (Z.mod_pos_bound g 16 ltac:(lia)).
  pose proof (Z.mod_pos_bound b 16 ltac:(lia)).
  assert (0 <= r / 16 < 16)
    by (split; [apply Z.div_pos; lia | apply Z.div_lt_upper_bound; lia]).
  assert (0 <= g / 16 < 16)
    by (split; [apply Z.div_pos; lia | apply Z.div_lt_upper_bound; lia]).
  assert (0 <= b / 16 < 16)
    by (split; [apply Z.div_pos; lia | apply Z.div_lt_upper_bound; lia]).
  replace z with
    (16 * (16 * (16 * (16 * (16 * (16 * 1 + r / 16) + r mod 16) + g / 16)
                 + g mod 16) + b / 16) + b mod 16) by (unfold z; lia).
  rewrite !hexGo_step by lia. rewrite hexGo_last by lia. reflexivity.
Qed.

Lemma channels_of (f : Z) :
  0 <= f < 2 ^ 24 ->
  Z.shiftr f 16 = redOf f /\ Z.land (Z.shiftr f 8) 255 = greenOf f /\
  Z.land f 255 = blueOf f /\
  0 <= redOf f < 256 /\ 0 <= greenOf f < 256 /\ 0 <= blueOf f < 256.
Proof.
  intros Hf. unfold redOf, greenOf, blueOf.
  change 255 with (Z.ones 8). rewrite !Z.land_ones, !Z.shiftr_div_pow2 by lia.
  change (2 ^ 16) with 65536. change (2 ^ 8) with 256.
  repeat split; try done; try (apply Z.mod_pos_bound; lia).
  - apply Z.div_pos; lia.
  - apply Z.div_lt_upper_bound; lia.
Qed.

(** X19. The outer colour of the board gradient is a colour, and a
    darker one: when the digits of the base colour give an integer below
    2^24 (six hex digits at most; a colour with no hex digit counts as
    0), shadeColor at -55 returns a hash sign and exactly six hex digits,
    and each channel is 45% of the channel of the base colour to the
    nearest integer, so never above it.  createRadialGradient puts the
    base colour at 0% and this colour at 90%. *)
Theorem gradient_outer_colour_is_darker
    (parseHex : string -> option Z) (color : string) (f : Z) :
  Board.toInt32 (parseHex color) = f -> 0 <= f < 2 ^ 24 ->
  exists r g b,
    Board.shadeColor parseHex color (-55)
      = "#" +:+ hex2 r +:+ hex2 g +:+ hex2 b /\
    Board.createRadialGradient parseHex color
      = "radial-gradient(circle at center, " +:+ color +:+ " 0%, #"
        +:+ hex2 r +:+ hex2 g +:+ hex2 b +:+ " 90%)" /\
    darkened (redOf f) r /\ darkened (greenOf f) g /\ darkened (blueOf f) b.
Proof.
  intros Hf Hrange.
  destruct (channels_of f Hrange) as (ER & EG & EB & HR & HG & HB).
  destruct (shade_channel (redOf f) HR) as (r & Er & Dr).
  destruct (shade_channel (greenOf f) HG) as (g & Eg & Dg).
  destruct (shade_channel (blueOf f) HB) as (b & Eb & Db).
  exists r, g, b.
  assert (Hs : Board.shadeColor parseHex color (-55)
               = "#" +:+ hex2 r +:+ hex2 g +:+ hex2 b).
  { unfold Board.shadeColor. rewrite Hf, ER, EG, EB.
    change (-55 <? 0) with true. change (Z.abs (-55)) with 55. cbv iota.
    rewrite Er, Eg, Eb. cbn [Board.scale Board.add].
    rewrite toString16_colour; [done| | |]; unfold darkened in *; lia. }
  split; [exact Hs|]. split; [|done].
  unfold Board.createRadialGradient. rewrite Hs. reflexivity.
Qed.

Lemma gradient_outer_colour_is_darker_witness :
  Board.createRadialGradient (fun _ => Some 16739201) "#ff6b81"
  = "radial-gradient(circle at center, #ff6b81 0%, #73303a 90%)" /\
  Board.shadeColor (fun _ => None) "purple" (-55) = "#000000" /\
  exists r g b,
    Board.shadeColor (fun _ => Some 16739201) "#ff6b81" (-55)
      = "#" +:+ hex2 r +:+ hex2 g +:+ hex2 b /\
    darkened (redOf 16739201) r.
Proof.
  split; [vm_compute; reflexivity|]. split; [vm_compute; reflexivity|].
  destruct (gradient_outer_colour_is_darker (fun _ => Some 16739201) "#ff6b81"
              16739201 eq_refl ltac:(lia)) as (r & g & b & H1 & _ & H2 & _).
  exists r, g, b. split; [exact H1|exact H2].
Defined.

Lemma visit_rolesOk (st : CardModel.Found) (node : CardModel.Node) :
  rolesOk st -> rolesOk (CardModel.visit st node).
Proof.
  intros (Hf & Hb & Hd). unfold CardModel.visit.
  destruct (CardModel.isMesh node); simpl; [|done].
  destruct (CardModel.frontMesh st) as [i|] eqn:Ef,
           (CardModel.backMesh st) as [j|] eqn:Eb; simpl;
    repeat match goal with
    | |- context [if ?b then _ else _] => destruct b
    end;
    unfold rolesOk; simpl; rewrite ?length_app; simpl;
    repeat split; intros k; intros; simplify_eq;
    try (specialize (Hf _ eq_refl)); try (specialize (Hb _ eq_refl));
    try lia; try congruence;
    try (intros [= <-]; by apply (Hd _ eq_refl));
    intros [= E]; lia.
Qed.

Lemma byName_rolesOk (nodes : list CardModel.Node) :
  rolesOk (CardModel.byName nodes) /\
  CardModel.allMeshes (CardModel.byName nodes)
    = filter (fun n => CardModel.isMesh n = true) nodes.
Proof.
  unfold CardModel.byName.
  assert (H : forall l st, rolesOk st ->
            rolesOk (foldl CardModel.visit st l) /\
            CardModel.allMeshes (foldl CardModel.visit st l)
              = (CardModel.allMeshes st
                 ++ filter (fun n => CardModel.isMesh n = true) l)%list).
  { induction l as [|n l IH]; intros st Hst; simpl.
    - by rewrite app_nil_r.
    - destruct (IH (CardModel.visit st n) (visit_rolesOk st n Hst)) as [H1 H2].
      split; [done|]. rewrite H2. unfold CardModel.visit.
      destruct (CardModel.isMesh n) eqn:En; simpl.
      + rewrite filter_cons_True by done.
        repeat match goal with
        | |- context [if ?b then _ else _] => destruct b
        end; simpl; by rewrite <- app_assoc.
      + rewrite filter_cons_False; [done|]. by rewrite En. }
  destruct (H nodes (CardModel.mkFound [] None None)) as [H1 H2].
  - unfold rolesOk. simpl. done.
  - done.
Qed.

(** X20. The search for the front and the back mesh of a card model
    takes them among the meshes of the model; with one mesh or more
    there is a front mesh, with two or more also a back mesh.  By name
    the two are never the same mesh, but the fallback can make them the
    same: this happens exactly when no mesh got the front role by name
    and the first mesh is the back mesh, or when the second mesh is the
    front mesh and no mesh got the back role by name. *)
Theorem front_and_back_mesh (nodes : list CardModel.Node) :
  CardModel.allMeshes (CardModel.findMeshes nodes)
    = filter (fun n => CardModel.isMesh n = true) nodes /\
  (forall i, CardModel.frontMesh (CardModel.findMeshes nodes) = Some i ->
     (i < length (CardModel.allMeshes (CardModel.findMeshes nodes)))%nat) /\
  (forall i, CardModel.backMesh (CardModel.findMeshes nodes) = Some i ->
     (i < length (CardModel.allMeshes (CardModel.findMeshes nodes)))%nat) /\
  ((1 <= length (CardModel.allMeshes (CardModel.findMeshes nodes)))%nat ->
     is_Some (CardModel.frontMesh (CardModel.findMeshes nodes))) /\
  ((2 <= length (CardModel.allMeshes (CardModel.findMeshes nodes)))%nat ->
     is_Some (CardModel.backMesh (CardModel.findMeshes nodes))) /\
  (forall i,
     (CardModel.frontMesh (CardModel.findMeshes nodes) = Some i /\
      CardModel.backMesh (CardModel.findMeshes nodes) = Some i)
     <->
     (i = 0%nat /\ CardModel.frontMesh (CardModel.byName nodes) = None /\
      CardModel.backMesh (CardModel.byName nodes) = Some 0%nat) \/
     (i = 1%nat /\ CardModel.frontMesh (CardModel.byName nodes) = Some 1%nat /\
      CardModel.backMesh (CardModel.byName nodes) = None /\
      (2 <= length (CardModel.allMeshes (CardModel.byName nodes)))%nat)).
Proof.
  destruct (byName_rolesOk nodes) as [(Hf & Hb & Hd) Hall].
  unfold CardModel.findMeshes, CardModel.fallback. rewrite <- Hall.
  destruct (Nat.leb_spec 2 (length (CardModel.allMeshes (CardModel.byName nodes)))),
           (Nat.leb_spec 1 (length (CardModel.allMeshes (CardModel.byName nodes))));
    destruct (CardModel.frontMesh (CardModel.byName nodes)) as [f|] eqn:Ef,
             (CardModel.backMesh (CardModel.byName nodes)) as [b|] eqn:Eb;
    cbn -[Nat.leb]; rewrite ?Ef, ?Eb;
    try (specialize (Hf _ eq_refl)); try (specialize (Hb _ eq_refl));
    try (specialize (Hd _ eq_refl));
    (split; [done|]);
    (split; [intros i Hi; simplify_eq; lia|]);
    (split; [intros i Hi; simplify_eq; lia|]);
    (split; [intros Hi; first [by eauto | lia]|]);
    (split; [intros Hi; first [by eauto | lia]|]);
    intros i; split.
  all: try (intros [Hi1 Hi2]; simplify_eq; first [by left | by right | lia | done]).
  all: try (intros [(-> & Hi1 & Hi2) | (-> & Hi1 & Hi2 & Hi3)]; simplify_eq;
            first [done | lia]).
Qed.

(** Two models for which the fallback gives one mesh both roles: only
    the first mesh is named as a back, and only the second as a front. *)
Example one_mesh_as_front_and_back :
  CardModel.findMeshes
    [CardModel.mkNode "card_back" true; CardModel.mkNode "plane" true]
  = CardModel.mkFound
      [CardModel.mkNode "card_back" true; CardModel.mkNode "plane" true]
      (Some 0%nat) (Some 0%nat) /\
  CardModel.findMeshes
    [CardModel.mkNode "plane" true; CardModel.mkNode "card_front" true]
  = CardModel.mkFound
      [CardModel.mkNode "plane" true; CardModel.mkNode "card_front" true]
      (Some 1%nat) (Some 1%nat).
Proof. split; reflexivity. Qed.

(** X21. The split of the confetti is the one of exact arithmetic: for
    every number of pieces up to 10000, Math.floor(pieces * 0.4)
    computed in doubles is two fifths of the pieces, rounded down, so
    the rounding of 0.4 and of the product never moves the count of the
    first burst. *)
Theorem confetti_split_in_doubles (pieces : Z) :
  0 <= pieces <= 10000 ->
  ConfettiSplit.burstPieces pieces = Board.Int ((2 * pieces) / 5).
Proof.
  intros Hp.
  assert (Hall : allFrom (Z.to_nat 10001) 0
            (fun z => match ConfettiSplit.burstPieces z with
                      | Board.Int k => k =? (2 * z) / 5
                      | _ => false
                      end) = true) by (vm_compute; reflexivity).
  assert (Hx : 0 <= pieces < 0 + Z.of_nat (Z.to_nat 10001))
    by (rewrite Z2Nat.id; lia).
  pose proof (allFrom_spec _ _ _ Hall pieces Hx) as H. cbv beta in H.
  destruct (ConfettiSplit.burstPieces pieces) as [k| |];
    [|discriminate H|discriminate H].
  apply Z.eqb_eq in H. by subst k.
Qed.

Lemma confetti_split_in_doubles_witness :
  ConfettiSplit.burstPieces 320 = Board.Int 128.
Proof. apply (confetti_split_in_doubles 320). lia. Defined.
